(** * go-cache-prog: a shallow embedding of the cache program

    The development follows the Go sources:
    - the local disk store (package [local]): marker files under
      [<cacheDir>/action], object files under [<cacheDir>/object];
    - the tiered store (package [cos]): the local store plus a remote
      object store;
    - the protocol engine (package [cache]): [Handler.Run] with its reader
      loop, [handleGet], [handlePut], [handleClose], [enc] and [dec].

    Go values are modelled as they are in the code: [string] for Go strings,
    [list byte] for [[]byte], [Z] for [int64], a Go [error] as [option error]
    ([None] is [nil]), and a function with several results as a tuple. *)

From Stdlib Require Import ZArith Lia Ascii String List Bool.
From Stdlib.Strings Require Import Byte.
From stdpp Require Import base option list gmap strings.

Local Open Scope string_scope.
Local Open Scope Z_scope.

(** ** Errors *)

(** The error values that the modelled code can produce or pass on. *)
Inductive error : Type :=
| ErrNotExist                         (* os.ErrNotExist (ENOENT) *)
| ErrIsDir                            (* EISDIR *)
| ErrEOF                              (* io.EOF *)
| ErrSyntax                           (* strconv.ErrSyntax, json syntax errors *)
| ErrRange                            (* strconv.ErrRange *)
| ErrHexLength                        (* hex.ErrLength *)
| ErrHexInvalidByte (c : ascii)       (* hex.InvalidByteError *)
| ErrIO (msg : string)                (* a failing reader, writer or remote call *)
| Errorf (msg : string)               (* fmt.Errorf without %w *)
| ErrWrap (msg : string) (e : error). (* fmt.Errorf with %w *)

#[global] Instance error_eq_dec : EqDecision error.
Proof. solve_decision. Defined.

(** [errors.Is err target]: [err] or an error that it wraps with [%w] is the
    target. *)
Fixpoint errors_Is (err target : error) : bool :=
  if bool_decide (err = target) then true
  else match err with
       | ErrWrap _ e' => errors_Is e' target
       | _ => false
       end.

Inductive result (A : Type) : Type :=
| Ok (a : A)
| Err (e : error).
Arguments Ok {A} a.
Arguments Err {A} e.

(** ** strconv, fmt, strings *)

Definition is_digit (c : ascii) : bool :=
  let n := N_of_ascii c in ((48 <=? n) && (n <=? 57))%N.

Definition digit_val (c : ascii) : Z := Z.of_N (N_of_ascii c) - 48.

Definition digit_char (d : Z) : ascii := ascii_of_N (Z.to_N (48 + d)).

(** The unsigned decimal reading of [strconv.ParseInt]: at least one digit,
    digits only. *)
Fixpoint parse_digits_acc (s : string) (acc : Z) : option Z :=
  match s with
  | EmptyString => Some acc
  | String c s' =>
      if is_digit c then parse_digits_acc s' (10 * acc + digit_val c) else None
  end.

Definition parse_digits (s : string) : option Z :=
  match s with
  | EmptyString => None
  | _ => parse_digits_acc s 0
  end.

(** [strconv.ParseInt(s, 10, 64)]: an optional sign, then decimal digits; a
    value outside of [int64] is a range error. *)
Definition ParseInt (s : string) : result Z :=
  match s with
  | EmptyString => Err ErrSyntax
  | String c rest =>
      let '(neg, ds) :=
        if Ascii.eqb c "+" then (false, rest)
        else if Ascii.eqb c "-" then (true, rest)
        else (false, s) in
      match parse_digits ds with
      | None => Err ErrSyntax
      | Some un =>
          if neg
          then if un <=? 2 ^ 63 then Ok (- un) else Err ErrRange
          else if un <? 2 ^ 63 then Ok un else Err ErrRange
      end
  end.

(** Decimal digits of a non-negative number, most significant first. *)
Fixpoint digits_fuel (fuel : nat) (n : Z) (acc : string) : string :=
  match fuel with
  | O => acc
  | S fuel' =>
      let acc' := String (digit_char (n mod 10)) acc in
      if n <? 10 then acc' else digits_fuel fuel' (n / 10) acc'
  end.

Definition digits (n : Z) : string :=
  digits_fuel (S (Z.to_nat (Z.log2 n))) n "".

(** [strconv.FormatInt(n, 10)], which is also what the verb [%d] prints. *)
Definition FormatInt (n : Z) : string :=
  if n <? 0 then String "-" (digits (- n)) else digits n.

(** [c] occurs in [s]. *)
Fixpoint contains (c : ascii) (s : string) : bool :=
  match s with
  | EmptyString => false
  | String x s' => Ascii.eqb x c || contains c s'
  end.

(** Cut [s] at the first occurrence of [sep]. *)
Fixpoint cut (sep : ascii) (s : string) : option (string * string) :=
  match s with
  | EmptyString => None
  | String c s' =>
      if Ascii.eqb c sep then Some ("", s')
      else match cut sep s' with
           | Some (before, after) => Some (String c before, after)
           | None => None
           end
  end.

(** [strings.SplitN(s, sep, n)] for a one-character separator and [n >= 0]:
    at most [n] pieces, the last one holding the unsplit rest. *)
Fixpoint SplitN (s : string) (sep : ascii) (n : nat) : list string :=
  match n with
  | O => []
  | S O => [s]
  | S n' =>
      match cut sep s with
      | Some (before, after) => before :: SplitN after sep n'
      | None => [s]
      end
  end.

(** [fmt.Appendf(nil, "%s:%d", objectId, size)]. *)
Definition Appendf_marker (objectId : string) (size : Z) : list byte :=
  list_byte_of_string (objectId ++ ":" ++ FormatInt size).

(** ** encoding/hex *)

Definition hextable (n : N) : ascii :=
  if (n <? 10)%N then ascii_of_N (48 + n) else ascii_of_N (87 + n).

(** [hex.EncodeToString]: two lower-case digits per byte. *)
Fixpoint EncodeToString (src : list byte) : string :=
  match src with
  | [] => ""
  | b :: rest =>
      let n := Byte.to_N b in
      String (hextable (n / 16)) (String (hextable (n mod 16)) (EncodeToString rest))
  end.

(** The reverse table of package hex: digits and letters of both cases. *)
Definition fromHexChar (c : ascii) : option N :=
  let n := N_of_ascii c in
  if ((48 <=? n) && (n <=? 57))%N then Some (n - 48)%N
  else if ((97 <=? n) && (n <=? 102))%N then Some (n - 87)%N
  else if ((65 <=? n) && (n <=? 70))%N then Some (n - 55)%N
  else None.

Definition byte_of_nibbles (a b : N) : byte :=
  match Byte.of_N (16 * a + b) with
  | Some x => x
  | None => x00
  end.

(** [hex.DecodeString]: the bytes decoded before the first defect, and the
    error.  An odd length is reported after a check of the last character. *)
Fixpoint DecodeString (s : string) : list byte * option error :=
  match s with
  | EmptyString => ([], None)
  | String p EmptyString =>
      match fromHexChar p with
      | None => ([], Some (ErrHexInvalidByte p))
      | Some _ => ([], Some ErrHexLength)
      end
  | String p (String q rest) =>
      match fromHexChar p, fromHexChar q with
      | None, _ => ([], Some (ErrHexInvalidByte p))
      | Some _, None => ([], Some (ErrHexInvalidByte q))
      | Some a, Some b =>
          let '(out, err) := DecodeString rest in
          (byte_of_nibbles a b :: out, err)
      end
  end.

Definition is_hex_char (c : ascii) : bool :=
  match fromHexChar c with Some _ => true | None => false end.

Fixpoint all_hex (s : string) : bool :=
  match s with
  | EmptyString => true
  | String c s' => is_hex_char c && all_hex s'
  end.

(** A well-formed hexadecimal string, stated on its own: an even number of
    characters, each a hexadecimal digit. *)
Definition is_hex_string (s : string) : bool :=
  all_hex s && Nat.even (String.length s).

(** ** path/filepath (Unix) *)

(** [strings.Split(s, "/")]. *)
Fixpoint split_slash (s : string) : list string :=
  match s with
  | EmptyString => [""]
  | String c s' =>
      if Ascii.eqb c "/" then "" :: split_slash s'
      else match split_slash s' with
           | x :: xs => String c x :: xs
           | [] => [String c ""]
           end
  end.

(** One component of [filepath.Clean]; [stack] holds the kept components,
    last one first. *)
Definition clean_step (rooted : bool) (stack : list string) (c : string)
  : list string :=
  if String.eqb c "" || String.eqb c "." then stack
  else if String.eqb c ".." then
    match stack with
    | top :: rest => if String.eqb top ".." then c :: stack else rest
    | [] => if rooted then [] else [c]
    end
  else c :: stack.

Definition clean_comps (rooted : bool) (cs : list string) : list string :=
  rev (fold_left (clean_step rooted) cs []).

Definition IsAbs (path : string) : bool :=
  match path with
  | String c _ => Ascii.eqb c "/"
  | EmptyString => false
  end.

(** [filepath.Clean]: the shortest path equivalent by purely lexical
    processing. *)
Definition Clean (path : string) : string :=
  match path with
  | EmptyString => "."
  | _ =>
      let cs := clean_comps (IsAbs path) (split_slash path) in
      if IsAbs path then "/" ++ String.concat "/" cs
      else match cs with
           | [] => "."
           | _ => String.concat "/" cs
           end
  end.

(** [filepath.Join]: leading empty elements are ignored, the rest is joined
    with slashes and cleaned. *)
Fixpoint Join (elem : list string) : string :=
  match elem with
  | [] => ""
  | e :: rest =>
      if String.eqb e "" then Join rest else Clean (String.concat "/" elem)
  end.

(** The directory holding an absolute, clean path. *)
Definition parent_dir (path : string) : string :=
  "/" ++ String.concat "/" (removelast (clean_comps true (split_slash path))).

(** ** The file system *)

(** Files and directories, kept under their absolute clean path.  The size
    that [Stat] reports for a directory depends on the system; it is recorded
    with the directory.  Symbolic links, permissions and a full disk are not
    modelled: an operation fails only for the shape of the tree, and a path
    that is not on the disk is reported as absent. *)
Inductive node : Type :=
| File (data : list byte) (modTime : Z)
| Directory (dirSize : Z) (modTime : Z).

Record filesystem : Type := {
  nodes : gmap string node;
  cwd : string;          (* the working directory, absolute and clean *)
  now : Z;               (* the clock that stamps modifications *)
  newDirSize : Z         (* the size the system reports for a new directory *)
}.

Record FileInfo : Type := {
  Size : Z;
  ModTime : Z;
  IsDir : bool
}.

(** Where a path given to the system leads. *)
Definition resolve (fs : filesystem) (name : string) : string :=
  if IsAbs name then Clean name else Join [cwd fs; name].

(** [filepath.Abs]: [os.Getwd] is the one call in it that can fail. *)
Definition os_Getwd (fs : filesystem) : result string := Ok (cwd fs).

Definition Abs (fs : filesystem) (path : string) : result string :=
  if IsAbs path then Ok (Clean path)
  else match os_Getwd fs with
       | Ok wd => Ok (Join [wd; path])
       | Err e => Err e
       end.

Definition set_node (fs : filesystem) (key : string) (n : node) : filesystem :=
  {| nodes := <[key := n]> (nodes fs);
     cwd := cwd fs;
     now := now fs + 1;
     newDirSize := newDirSize fs |}.

Definition os_ReadFile (fs : filesystem) (name : string) : result (list byte) :=
  match nodes fs !! resolve fs name with
  | Some (File data _) => Ok data
  | Some (Directory _ _) => Err ErrIsDir
  | None => Err ErrNotExist
  end.

Definition os_Stat (fs : filesystem) (name : string) : result FileInfo :=
  match nodes fs !! resolve fs name with
  | Some (File data t) =>
      Ok {| Size := Z.of_nat (length data); ModTime := t; IsDir := false |}
  | Some (Directory sz t) =>
      Ok {| Size := sz; ModTime := t; IsDir := true |}
  | None => Err ErrNotExist
  end.

(** Can a regular file be created or truncated at [key]?  Its directory has
    to exist and [key] must not be a directory. *)
Definition writable (fs : filesystem) (key : string) : option error :=
  match nodes fs !! key with
  | Some (Directory _ _) => Some ErrIsDir
  | _ =>
      match nodes fs !! parent_dir key with
      | Some (Directory _ _) => None
      | _ => Some ErrNotExist
      end
  end.

(** [os.Create]: the file is created or truncated; the handle is the place
    of the file. *)
Definition os_Create (fs : filesystem) (name : string)
  : result string * filesystem :=
  let key := resolve fs name in
  match writable fs key with
  | Some e => (Err e, fs)
  | None => (Ok key, set_node fs key (File [] (now fs)))
  end.

(** An [io.Reader]: the bytes it yields, and the error (if any) that ends the
    stream in place of [io.EOF]. *)
Record Reader : Type := {
  rd_data : list byte;
  rd_err : option error
}.

Definition bytes_NewReader (b : list byte) : Reader :=
  {| rd_data := b; rd_err := None |}.

(** [io.Copy(file, body)]: what was read before the end of the stream or the
    error is in the file; the count is the number of bytes copied. *)
Definition io_Copy (fs : filesystem) (file : string) (body : Reader)
  : (Z * option error) * filesystem :=
  let old := match nodes fs !! file with
             | Some (File data _) => data
             | _ => []
             end in
  ((Z.of_nat (length (rd_data body)), rd_err body),
   set_node fs file (File (old ++ rd_data body) (now fs))).

(** [os.WriteFile]: create or truncate, then write everything. *)
Definition os_WriteFile (fs : filesystem) (name : string) (data : list byte)
  : option error * filesystem :=
  let key := resolve fs name in
  match writable fs key with
  | Some e => (Some e, fs)
  | None => (None, set_node fs key (File data (now fs)))
  end.

(** [os.MkdirAll]: every missing directory on the way is created; a regular
    file on the way is an error. *)
Fixpoint mkdir_chain (fs : filesystem) (prefix : string) (cs : list string)
  : option error * filesystem :=
  match cs with
  | [] => (None, fs)
  | c :: rest =>
      let key := if String.eqb prefix "/" then prefix ++ c
                 else prefix ++ "/" ++ c in
      match nodes fs !! key with
      | Some (File _ _) => (Some (Errorf "not a directory"), fs)
      | Some (Directory _ _) => mkdir_chain fs key rest
      | None =>
          mkdir_chain (set_node fs key (Directory (newDirSize fs) (now fs)))
                      key rest
      end
  end.

Definition os_MkdirAll (fs : filesystem) (name : string)
  : option error * filesystem :=
  mkdir_chain fs "/" (clean_comps true (split_slash (resolve fs name))).

(** ** Package local: the store on the local disk *)

Module LocalStore.

Record provider : Type := {
  cacheDir : string
}.

Definition NewProvider (cacheDir : string) (fs : filesystem)
  : result provider * filesystem :=
  let cacheDir := Clean cacheDir in
  match os_MkdirAll fs (Join [cacheDir; "action"]) with
  | (Some err, fs1) => (Err err, fs1)
  | (None, fs1) =>
      match os_MkdirAll fs1 (Join [cacheDir; "object"]) with
      | (Some err, fs2) => (Err err, fs2)
      | (None, fs2) => (Ok {| cacheDir := cacheDir |}, fs2)
      end
  end.

Definition actionPath (p : provider) (actionId : string) : string :=
  Join [cacheDir p; "action"; actionId].

Definition objPath (p : provider) (objectId : string) : string :=
  Join [cacheDir p; "object"; objectId].

Definition KnownCommands (p : provider) : list string :=
  ["get"; "put"; "close"].

Definition notFound : string * string * option error := ("", "", None).

Definition Get (p : provider) (actionId : string) (fs : filesystem)
  : string * string * option error :=
  match os_ReadFile fs (actionPath p actionId) with
  | Err err =>
      if errors_Is err ErrNotExist then notFound else ("", "", Some err)
  | Ok data =>
      let parts := SplitN (string_of_list_byte data) ":" 2 in
      if negb (Nat.eqb (length parts) 2) then notFound
      else
        let objectId := nth 0 parts "" in
        match ParseInt (nth 1 parts "") with
        | Err _ => notFound
        | Ok size =>
            match Abs fs (objPath p objectId) with
            | Err _ => notFound
            | Ok diskpath =>
                match os_Stat fs diskpath with
                | Err _ => notFound
                | Ok fi =>
                    if negb (Size fi =? size) then notFound
                    else (objectId, diskpath, None)
                end
            end
        end
  end.

Definition Put (p : provider) (actionId objectId : string) (body : Reader)
  (fs : filesystem) : (string * option error) * filesystem :=
  match Abs fs (objPath p objectId) with
  | Err err => (("", Some err), fs)
  | Ok diskpath =>
      match os_Create fs diskpath with
      | (Err err, fs1) => (("", Some err), fs1)
      | (Ok file, fs1) =>
          match io_Copy fs1 file body with
          | ((_, Some err), fs2) => (("", Some err), fs2)
          | ((size, None), fs2) =>
              match os_WriteFile fs2 (actionPath p actionId)
                                 (Appendf_marker objectId size) with
              | (Some err, fs3) => (("", Some err), fs3)
              | (None, fs3) => ((diskpath, None), fs3)
              end
          end
      end
  end.

Definition Close (p : provider) : option error := None.

End LocalStore.

(** ** The remote object store *)

(** What the S3 client of the tiered store talks to: the objects stored per
    bucket and key, whether the service answers at all, and the requests
    received so far.  Metadata is a [map[string]*string]: a key can be bound
    to a nil pointer. *)
Record s3_object : Type := {
  Metadata : gmap string (option string);
  Body : Reader
}.

Inductive s3_call : Type :=
| CallListBuckets
| CallGetObject (bucket key : string)
| CallPutObject (bucket key : string) (metadata : gmap string (option string))
                (body : Reader) (contentLength : Z).

Record S3 : Type := {
  bucketNames : list string;
  objects : gmap (string * string) s3_object;
  reachable : bool;
  calls : list s3_call
}.

Definition log_call (c : S3) (call : s3_call) : S3 :=
  {| bucketNames := bucketNames c;
     objects := objects c;
     reachable := reachable c;
     calls := calls c ++ [call] |}.

Definition ListBuckets (c : S3) : result (list string) * S3 :=
  let c' := log_call c CallListBuckets in
  if reachable c then (Ok (bucketNames c), c')
  else (Err (ErrIO "request failed"), c').

Definition GetObject (c : S3) (bucket key : string) : result s3_object * S3 :=
  let c' := log_call c (CallGetObject bucket key) in
  if reachable c
  then match objects c !! (bucket, key) with
       | Some o => (Ok o, c')
       | None => (Err (ErrIO "NoSuchKey"), c')
       end
  else (Err (ErrIO "request failed"), c').

(** [PutObject]: the request fails when the service does not answer or when
    the body cannot be read to its end. *)
Definition PutObject (c : S3) (bucket key : string)
  (metadata : gmap string (option string)) (body : Reader) (contentLength : Z)
  : option error * S3 :=
  let c' := log_call c (CallPutObject bucket key metadata body contentLength) in
  if reachable c
  then match rd_err body with
       | Some e => (Some e, c')
       | None =>
           (None,
            {| bucketNames := bucketNames c';
               objects := <[(bucket, key) :=
                              {| Metadata := metadata;
                                 Body := bytes_NewReader (rd_data body) |}]>
                            (objects c');
               reachable := reachable c';
               calls := calls c' |})
       end
  else (Some (ErrIO "request failed"), c').

(** [os.Open] for reading: the stream of the file's bytes. *)
Definition os_Open (fs : filesystem) (name : string) : result Reader :=
  match nodes fs !! resolve fs name with
  | Some (File data _) => Ok (bytes_NewReader data)
  | Some (Directory _ _) => Ok {| rd_data := []; rd_err := Some ErrIsDir |}
  | None => Err ErrNotExist
  end.

(** The process environment that providers act on. *)
Record world : Type := {
  disk : filesystem;
  remote : S3
}.

(** ** Package cos: the tiered store *)

Module CosStore.

Definition DefaultMinUploadSize : Z := 1024.
Definition objectIdKey : string := "objectid".
Definition sizeKey : string := "size".

Record Cos : Type := {
  AuthEndpoint : string;
  ApiKey : string;
  Endpoint : string;
  ResourceInstanceId : string;
  Bucket : string
}.

Record Config : Type := {
  cos : Cos;
  CacheDir : string;
  MinUploadSize : Z
}.

Record provider : Type := {
  config : Config;
  localProvider : LocalStore.provider
}.

Definition actionKey (p : provider) (actionId : string) : string :=
  "action/" ++ actionId.

Definition KnownCommands (p : provider) : list string :=
  ["get"; "put"; "close"].

Definition NewProvider (config : Config) (w : world) : result provider * world :=
  if String.eqb (CacheDir config) "" then
    (Err (Errorf "cache directory cannot be empty"), w)
  else
    let config :=
      if MinUploadSize config <=? 0
      then {| cos := cos config; CacheDir := CacheDir config;
              MinUploadSize := DefaultMinUploadSize |}
      else config in
    match LocalStore.NewProvider (CacheDir config) (disk w) with
    | (Err err, fs) => (Err err, {| disk := fs; remote := remote w |})
    | (Ok lp, fs) =>
        match ListBuckets (remote w) with
        | (Err err, c) => (Err err, {| disk := fs; remote := c |})
        | (Ok names, c) =>
            let w' := {| disk := fs; remote := c |} in
            if existsb (String.eqb (Bucket (cos config))) names
            then (Ok {| config := config; localProvider := lp |}, w')
            else (Err (Errorf "failed to find bucket in COS"), w')
        end
    end.

Definition lookUpObjectId (metadata : gmap string (option string))
  : string * bool :=
  match metadata !! objectIdKey with
  | Some (Some val) => (val, true)
  | _ => ("", false)
  end.

Definition lookUpSize (metadata : gmap string (option string)) : Z * bool :=
  match metadata !! sizeKey with
  | Some (Some val) =>
      match ParseInt val with
      | Ok size => (size, true)
      | Err _ => (-1, false)
      end
  | _ => (-1, false)
  end.

Definition notFound : string * string * option error := ("", "", None).

Definition failure (err : error) : string * string * option error :=
  ("", "", Some err).

Definition Get (p : provider) (actionId : string) (w : world)
  : (string * string * option error) * world :=
  match LocalStore.Get (localProvider p) actionId (disk w) with
  | (_, _, Some err) => (failure err, w)
  | (objectId, diskpath, None) =>
      if negb (String.eqb objectId "") && negb (String.eqb diskpath "")
      then ((objectId, diskpath, None), w)
      else
        match GetObject (remote w) (Bucket (cos (config p)))
                        (actionKey p actionId) with
        | (Err _, c) => (notFound, {| disk := disk w; remote := c |})
        | (Ok res, c) =>
            match lookUpObjectId (Metadata res) with
            | (_, false) => (notFound, {| disk := disk w; remote := c |})
            | (objectId, true) =>
                match lookUpSize (Metadata res) with
                | (_, false) => (notFound, {| disk := disk w; remote := c |})
                | (size, true) =>
                    match LocalStore.Put (localProvider p) actionId objectId
                                         (Body res) (disk w) with
                    | ((_, Some _), fs) =>
                        (notFound, {| disk := fs; remote := c |})
                    | ((diskpath, None), fs) =>
                        let w' := {| disk := fs; remote := c |} in
                        match os_Stat fs diskpath with
                        | Err err => (failure err, w')
                        | Ok fi =>
                            if negb (Size fi =? size) then (notFound, w')
                            else ((objectId, diskpath, None), w')
                        end
                    end
                end
            end
        end
  end.

Definition Put (p : provider) (actionId objectId : string) (body : Reader)
  (w : world) : (string * option error) * world :=
  match LocalStore.Put (localProvider p) actionId objectId body (disk w) with
  | ((_, Some err), fs) => (("", Some err), {| disk := fs; remote := remote w |})
  | ((diskpath, None), fs) =>
      let w1 := {| disk := fs; remote := remote w |} in
      match os_Stat fs diskpath with
      | Err err => (("", Some err), w1)
      | Ok fi =>
          let size := Size fi in
          if size <? MinUploadSize (config p) then ((diskpath, None), w1)
          else
            match os_Open fs diskpath with
            | Err err => (("", Some err), w1)
            | Ok file =>
                let '(err, c) :=
                  PutObject (remote w) (Bucket (cos (config p)))
                    (actionKey p actionId)
                    (<[objectIdKey := Some objectId]>
                       (<[sizeKey := Some (FormatInt size)]> ∅))
                    file size in
                ((diskpath, err), {| disk := fs; remote := c |})
            end
      end
  end.

(** [Close]: the local store is closed, then the idle connections of the
    client are dropped, which leaves nothing to observe here. *)
Definition Close (p : provider) (w : world) : option error * world :=
  match LocalStore.Close (localProvider p) with
  | Some err => (Some err, w)
  | None => (None, w)
  end.

End CosStore.

(** ** Package cache: the protocol engine *)

Module Req.
Record progRequest : Type := {
  ID : Z;
  Command : string;
  ActionID : list byte;
  OutputID : list byte;
  Body : option Reader;      (* [io.Reader], not on the wire; [None] is nil *)
  BodySize : Z
}.
End Req.

Module Resp.
Record progResponse : Type := {
  ID : Z;
  Err : string;
  KnownCommands : list string;
  Miss : bool;
  OutputID : list byte;
  Size : Z;
  Time : option Z;
  DiskPath : string
}.
End Resp.

(** Package errgroup is not among the sources; only its use in [Run] is:
    [errgroup.New(h.workers + 1)], [g.Go], [g.Done] and [g.Wait].  Its
    definitions below follow the description of the spec: a worker-pool
    construct with a fixed capacity in which spawning a task blocks while the
    pool is saturated, in which an error of any task cancels the work that is
    not yet scheduled but lets the tasks in flight finish, and whose outcome
    is the first error observed. *)
Module errgroup.

(** Modelled from the spec: the state of the group of package errgroup, which
    is missing from the sources. *)
Record Group : Type := {
  limit : Z;                  (* the capacity given to [New] *)
  active : nat;               (* the tasks that hold a slot *)
  firstErr : option error;    (* the first error observed *)
  done : bool                 (* [Done] was called *)
}.

(** Modelled from the spec: [errgroup.New(n)], a pool with capacity [n]. *)
Definition New (n : Z) : Group :=
  {| limit := n; active := 0; firstErr := None; done := false |}.

(** Modelled from the spec: what a call of [g.Go] can meet. *)
Inductive go_outcome : Type :=
| Started (g : Group)     (* the task holds a slot and runs *)
| Cancelled               (* an error was observed: the task is not scheduled *)
| Blocked.                (* the pool is saturated: the caller waits *)

(** Modelled from the spec: [g.Go(f)], missing from the sources.  Spawning
    blocks while the pool is saturated; after an error, work that is not yet
    scheduled is cancelled. *)
Definition Go (g : Group) : go_outcome :=
  match firstErr g with
  | Some _ => Cancelled
  | None =>
      if Z.of_nat (active g) <? limit g
      then Started {| limit := limit g; active := S (active g);
                      firstErr := firstErr g; done := done g |}
      else Blocked
  end.

(** Modelled from the spec: a task of the group returns.  Its slot is free
    again, and its error is kept when it is the first one. *)
Definition task_returns (g : Group) (err : option error) : Group :=
  {| limit := limit g; active := Nat.pred (active g);
     firstErr := match firstErr g with
                 | Some e => Some e
                 | None => err
                 end;
     done := done g |}.

(** Modelled from the spec: [g.Done()], missing from the sources; the spec
    says no more of it than that the session drains after [close]. *)
Definition Done (g : Group) : Group :=
  {| limit := limit g; active := active g; firstErr := firstErr g;
     done := true |}.

(** Modelled from the spec: [g.Wait()], missing from the sources.  It returns
    once no task is left, with the first error observed. *)
Definition Wait (g : Group) : option (option error) :=
  match active g with
  | O => Some (firstErr g)
  | S _ => None
  end.

End errgroup.

Module Cache.

Import Req.

(** The interface [Provider]; its methods act on the process environment. *)
Class Provider (P : Type) : Type := {
  KnownCommands : P -> list string;
  Get : P -> string -> world -> (string * string * option error) * world;
  Put : P -> string -> string -> Reader -> world
        -> (string * option error) * world;
  Close : P -> world -> option error * world
}.

#[global] Instance local_Provider : Provider LocalStore.provider := {|
  KnownCommands := LocalStore.KnownCommands;
  Get p actionId w := (LocalStore.Get p actionId (disk w), w);
  Put p actionId objectId body w :=
    let '(r, fs) := LocalStore.Put p actionId objectId body (disk w) in
    (r, {| disk := fs; remote := remote w |});
  Close p w := (LocalStore.Close p, w)
|}.

#[global] Instance cos_Provider : Provider CosStore.provider := {|
  KnownCommands := CosStore.KnownCommands;
  Get := CosStore.Get;
  Put := CosStore.Put;
  Close := CosStore.Close
|}.

(** The values that follow one another on the input stream, as the JSON
    decoder sees them. *)
Inductive frame : Type :=
| FRequest (req : progRequest)   (* an object with the request fields *)
| FBytes (b : list byte)         (* a string, base64 of a byte slice *)
| FNull                          (* null *)
| FInvalid.                      (* anything that is not JSON *)

Definition zero_request : progRequest :=
  {| ID := 0; Command := ""; ActionID := []; OutputID := [];
     Body := None; BodySize := 0 |}.

Definition with_Body (req : progRequest) (body : option Reader) : progRequest :=
  {| ID := ID req; Command := Command req; ActionID := ActionID req;
     OutputID := OutputID req; Body := body; BodySize := BodySize req |}.

(** [decoder.Decode(&req)]: the field [Body] is not decoded. *)
Definition Decode_request (input : list frame)
  : result progRequest * list frame :=
  match input with
  | [] => (Err ErrEOF, [])
  | FRequest req :: rest => (Ok (with_Body req None), rest)
  | FNull :: rest => (Ok zero_request, rest)
  | FBytes _ :: rest => (Err (Errorf "cannot unmarshal string"), rest)
  | FInvalid :: rest => (Err ErrSyntax, rest)
  end.

(** [decoder.Decode(&body)] for [body []byte]. *)
Definition Decode_bytes (input : list frame) : result (list byte) * list frame :=
  match input with
  | [] => (Err ErrEOF, [])
  | FBytes b :: rest => (Ok b, rest)
  | FNull :: rest => (Ok [], rest)
  | FRequest _ :: rest => (Err (Errorf "cannot unmarshal object"), rest)
  | FInvalid :: rest => (Err ErrSyntax, rest)
  end.

(** The output stream: what has been written, and after how many further
    writes the stream breaks ([None]: never). *)
Record Writer : Type := {
  written : list Resp.progResponse;
  failAfter : option nat
}.

(** The closure [write] of [Run]: encode and flush one response. *)
Definition write (out : Writer) (v : Resp.progResponse) : option error * Writer :=
  match failAfter out with
  | Some O => (Some (ErrIO "write failed"), out)
  | Some (S k) => (None, {| written := written out ++ [v]; failAfter := Some k |})
  | None => (None, {| written := written out ++ [v]; failAfter := None |})
  end.

Definition enc (b : list byte) : string := EncodeToString b.

Definition dec (s : string) : list byte * option error := DecodeString s.

Definition cacheMiss (req : progRequest) : option Resp.progResponse * option error :=
  (Some {| Resp.ID := ID req; Resp.Err := ""; Resp.KnownCommands := [];
           Resp.Miss := true; Resp.OutputID := []; Resp.Size := 0;
           Resp.Time := None; Resp.DiskPath := "" |}, None).

Definition cacheHit (req : progRequest) (objectId : list byte) (diskpath : string)
  (w : world) : option Resp.progResponse * option error :=
  match os_Stat (disk w) diskpath with
  | Err err => (None, Some err)
  | Ok fi =>
      (Some {| Resp.ID := ID req; Resp.Err := ""; Resp.KnownCommands := [];
               Resp.Miss := false; Resp.OutputID := objectId;
               Resp.Size := Size fi; Resp.Time := Some (ModTime fi);
               Resp.DiskPath := diskpath |}, None)
  end.

(** A worker of the group: the closure given to [g.Go] for a request. *)
Inductive task : Type :=
| TaskGet (req : progRequest)
| TaskPut (req : progRequest).

(** One turn of the reader's loop decides between these. *)
Inductive reader_action : Type :=
| Return (err : option error)    (* [return err] *)
| Go (t : task)                  (* [g.Go(worker)], then the next turn *)
| DoClose (req : progRequest).   (* [defer g.Done(); return h.handleClose(&req)] *)

(** The body of the reader's [for] loop in [Run], up to the point where it
    returns, starts a worker or closes. *)
Definition reader_iter (input : list frame) : reader_action * list frame :=
  match Decode_request input with
  | (Err err, rest) =>
      if errors_Is err ErrEOF then (Return None, rest)
      else (Return (Some (ErrWrap "failed to decode" err)), rest)
  | (Ok req, rest) =>
      if String.eqb (Command req) "get" then
        if Nat.eqb (length (ActionID req)) 0
        then (Return (Some (Errorf "invalid ActionID")), rest)
        else (Go (TaskGet req), rest)
      else if String.eqb (Command req) "put" then
        if Nat.eqb (length (OutputID req)) 0
        then (Return (Some (Errorf "invalid OutputID")), rest)
        else
          let with_default req :=
            match Body req with
            | None => with_Body req (Some (bytes_NewReader []))
            | Some _ => req
            end in
          if BodySize req >? 0 then
            match Decode_bytes rest with
            | (Err err, rest') => (Return (Some err), rest')
            | (Ok body, rest') =>
                if negb (BodySize req =? Z.of_nat (length body))
                then (Return (Some (Errorf "error processing request, size mismatch")),
                      rest')
                else (Go (TaskPut (with_default
                                     (with_Body req (Some (bytes_NewReader body))))),
                      rest')
            end
          else (Go (TaskPut (with_default req)), rest)
      else if String.eqb (Command req) "close" then (DoClose req, rest)
      else (Return (Some (Errorf "unsupported command")), rest)
  end.

Section Engine.

Context {P : Type} `{Provider P}.

Record Handler : Type := {
  provider : P;
  workers : Z
}.

Definition handleGet (h : Handler) (req : progRequest) (w : world)
  : (option Resp.progResponse * option error) * world :=
  match Get (provider h) (enc (ActionID req)) w with
  | ((_, _, Some err), w') =>
      ((None, Some (ErrWrap "failed to obtain entry from cache" err)), w')
  | ((pid, diskpath, None), w') =>
      if String.eqb pid "" && String.eqb diskpath "" then (cacheMiss req, w')
      else
        match dec pid with
        | (_, Some err) => ((None, Some err), w')
        | (outputID, None) => (cacheHit req outputID diskpath w', w')
        end
  end.

Definition handlePut (h : Handler) (req : progRequest) (w : world)
  : (option Resp.progResponse * option error) * world :=
  let body := match Body req with
              | Some r => r
              | None => bytes_NewReader []
              end in
  match Put (provider h) (enc (ActionID req)) (enc (OutputID req)) body w with
  | ((_, Some err), w') => ((None, Some err), w')
  | ((path, None), w') =>
      ((Some {| Resp.ID := ID req; Resp.Err := ""; Resp.KnownCommands := [];
                Resp.Miss := false; Resp.OutputID := []; Resp.Size := 0;
                Resp.Time := None; Resp.DiskPath := path |}, None), w')
  end.

Definition handleClose (h : Handler) (req : progRequest) (w : world)
  : option error * world :=
  Close (provider h) w.

(** What a worker does from start to end: handle the request, then write the
    response. *)
Definition run_task (h : Handler) (t : task) (w : world) (out : Writer)
  : option error * world * Writer :=
  let '((resp, err), w') :=
    match t with
    | TaskGet req => handleGet h req w
    | TaskPut req => handlePut h req w
    end in
  match err, resp with
  | Some e, _ => (Some e, w', out)
  | None, Some r => let '(e, out') := write out r in (e, w', out')
  | None, None => (None, w', out)
  end.

(** *** A session: [Run] as a transition system

    [Run] writes the handshake, creates the group with [workers + 1] slots,
    gives it the reader and waits.  The reader and the workers run
    concurrently; a run of the session is a sequence of the moves below.  A
    worker acts on the environment and on the output in one move, at its
    end. *)

Inductive reader_state : Type :=
| Pending                 (* [g.Go(reader)] has not yet got a slot *)
| Reading                 (* at the head of the loop *)
| Spawning (t : task)     (* inside [g.Go(worker)], waiting for a slot *)
| Returned.

Inductive event : Type :=
| EvStart (t : task)
| EvEnd (t : task) (err : option error)
| EvClose (running : list task) (err : option error).

Record session : Type := {
  input : list frame;          (* what the decoder has not yet read *)
  reader : reader_state;
  inflight : list task;        (* the workers started and not yet ended *)
  env : world;
  output : Writer;
  group : errgroup.Group;
  trace : list event
}.

Inductive label : Type :=
| LAdmit                  (* the reader gets its slot *)
| LRead                   (* the reader takes one turn of its loop *)
| LSpawn                  (* [g.Go(worker)] goes through *)
| LEnd (i : nat).         (* the worker at position [i] ends *)

(** [Run] up to [g.Go(reader)]. *)
Definition Run_start (h : Handler) (input : list frame) (out : Writer) (w : world)
  : result session :=
  match write out {| Resp.ID := 0; Resp.Err := "";
                     Resp.KnownCommands := KnownCommands (provider h);
                     Resp.Miss := false; Resp.OutputID := []; Resp.Size := 0;
                     Resp.Time := None; Resp.DiskPath := "" |} with
  | (Some err, _) => Err err
  | (None, out') =>
      Ok {| input := input; reader := Pending; inflight := []; env := w;
            output := out'; group := errgroup.New (workers h + 1);
            trace := [] |}
  end.

Definition exec (h : Handler) (l : label) (s : session) : option session :=
  match l, reader s with
  | LAdmit, Pending =>
      match errgroup.Go (group s) with
      | errgroup.Started g =>
          Some {| input := input s; reader := Reading; inflight := inflight s;
                  env := env s; output := output s; group := g;
                  trace := trace s |}
      | _ => None
      end
  | LRead, Reading =>
      match reader_iter (input s) with
      | (Return err, rest) =>
          Some {| input := rest; reader := Returned; inflight := inflight s;
                  env := env s; output := output s;
                  group := errgroup.task_returns (group s) err;
                  trace := trace s |}
      | (Go t, rest) =>
          Some {| input := rest; reader := Spawning t; inflight := inflight s;
                  env := env s; output := output s; group := group s;
                  trace := trace s |}
      | (DoClose req, rest) =>
          let '(err, w') := handleClose h req (env s) in
          Some {| input := rest; reader := Returned; inflight := inflight s;
                  env := w'; output := output s;
                  group := errgroup.task_returns (errgroup.Done (group s)) err;
                  trace := trace s ++ [EvClose (inflight s) err] |}
      end
  | LSpawn, Spawning t =>
      match errgroup.Go (group s) with
      | errgroup.Started g =>
          Some {| input := input s; reader := Reading;
                  inflight := inflight s ++ [t];
                  env := env s; output := output s; group := g;
                  trace := trace s ++ [EvStart t] |}
      | errgroup.Cancelled =>
          Some {| input := input s; reader := Reading; inflight := inflight s;
                  env := env s; output := output s; group := group s;
                  trace := trace s |}
      | errgroup.Blocked => None
      end
  | LEnd i, _ =>
      match inflight s !! i with
      | Some t =>
          let '(err, w', out') := run_task h t (env s) (output s) in
          Some {| input := input s; reader := reader s;
                  inflight := delete i (inflight s);
                  env := w'; output := out';
                  group := errgroup.task_returns (group s) err;
                  trace := trace s ++ [EvEnd t err] |}
      | None => None
      end
  | _, _ => None
  end.

Fixpoint exec_all (h : Handler) (ls : list label) (s : session) : option session :=
  match ls with
  | [] => Some s
  | l :: ls' =>
      match exec h l s with
      | Some s' => exec_all h ls' s'
      | None => None
      end
  end.

(** [s'] can be reached from [s]. *)
Definition reaches (h : Handler) (s s' : session) : Prop :=
  exists ls, exec_all h ls s = Some s'.

(** [g.Wait()] returns, and so does [Run], when the reader has returned and
    no worker is left. *)
Definition Run_result (s : session) : option (option error) :=
  match reader s, inflight s with
  | Returned, [] => errgroup.Wait (group s)
  | _, _ => None
  end.

(** A session is well formed when the slots of its group are held by the
    reader and the workers in flight. *)
Definition reader_slots (r : reader_state) : nat :=
  match r with
  | Pending | Returned => 0
  | Reading | Spawning _ => 1
  end.

Definition well_formed (s : session) : Prop :=
  errgroup.active (group s) = (reader_slots (reader s) + length (inflight s))%nat.

(** No [Close] of the provider while a worker is in flight. *)
Fixpoint close_after_workers (tr : list event) : bool :=
  match tr with
  | [] => true
  | EvClose running _ :: tr' =>
      match running with
      | [] => close_after_workers tr'
      | _ :: _ => false
      end
  | _ :: tr' => close_after_workers tr'
  end.

End Engine.

End Cache.

(** ** Command [cos ping]: the endpoints *)

Module Ping.

Definition regions : list string :=
  ["us-south"; "us-east"; "eu-gb"; "eu-de"; "au-syd"; "jp-tok"; "jp-osa";
   "ca-tor"; "br-sao"; "eu-es"; "ca-mon"].

Record cosPingCmdOpts : Type := {
  public : bool;
  private : bool;
  direct : bool
}.

Definition genEndpoints (prefix : string) : list string :=
  fold_left
    (fun endpoints region =>
       endpoints
       ++ [(prefix ++ "." ++ region ++ "." ++ "cloud-object-storage.appdomain.cloud")%string])%list
    regions [].

(** The endpoints that [RunE] of the command pings, in the order in which it
    collects them. *)
Definition endpoints (o : cosPingCmdOpts) : list string :=
  let endpoints := [] in
  let endpoints :=
    if public o then (endpoints ++ genEndpoints "s3")%list else endpoints in
  let endpoints :=
    if private o then (endpoints ++ genEndpoints "s3.private")%list
    else endpoints in
  if direct o then (endpoints ++ genEndpoints "s3.direct")%list else endpoints.

End Ping.

(** ** Notions used in the statements *)

(** The content of a marker file reads as [objectId:size]: the object id is
    what precedes the first colon, the rest is a decimal [int64]. *)
Definition marker_of (data : list byte) (objectId : string) (size : Z) : Prop :=
  exists text,
    string_of_list_byte data = (objectId ++ String ":" text)%string
    /\ contains ":" objectId = false
    /\ ParseInt text = Ok size.

(** The local tier has no valid entry for the action: [Get] of the local
    store returns no error and not both an object id and a path. *)
Definition local_miss (p : CosStore.provider) (actionId : string) (w : world)
  : Prop :=
  exists objectId diskpath,
    LocalStore.Get (CosStore.localProvider p) actionId (disk w)
    = (objectId, diskpath, None)
    /\ (objectId = "" \/ diskpath = "").

(** The entry of the remote tier for an action. *)
Definition remote_entry (p : CosStore.provider) (actionId : string) (w : world)
  : option s3_object :=
  objects (remote w)
    !! (CosStore.Bucket (CosStore.cos (CosStore.config p)),
        CosStore.actionKey p actionId).

(** The failures of the remote tier during a lookup: the service does not
    answer, the entry is absent, a metadata field is missing, nil or not a
    number, the download breaks, or the write into the local store fails. *)
Inductive remote_failure (p : CosStore.provider) (actionId : string) (w : world)
  : Prop :=
| RemoteUnreachable :
    reachable (remote w) = false -> remote_failure p actionId w
| RemoteAbsent :
    remote_entry p actionId w = None -> remote_failure p actionId w
| RemoteNoObjectId o :
    remote_entry p actionId w = Some o ->
    (Metadata o !! CosStore.objectIdKey = None
     \/ Metadata o !! CosStore.objectIdKey = Some None) ->
    remote_failure p actionId w
| RemoteNoSize o :
    remote_entry p actionId w = Some o ->
    (Metadata o !! CosStore.sizeKey = None
     \/ Metadata o !! CosStore.sizeKey = Some None) ->
    remote_failure p actionId w
| RemoteBadSize o val e :
    remote_entry p actionId w = Some o ->
    Metadata o !! CosStore.sizeKey = Some (Some val) ->
    ParseInt val = Err e ->
    remote_failure p actionId w
| RemoteDownloadFails o e :
    remote_entry p actionId w = Some o ->
    rd_err (Body o) = Some e ->
    remote_failure p actionId w
| PromotionWriteFails o objectId path e fs' :
    remote_entry p actionId w = Some o ->
    Metadata o !! CosStore.objectIdKey = Some (Some objectId) ->
    LocalStore.Put (CosStore.localProvider p) actionId objectId (Body o) (disk w)
    = ((path, Some e), fs') ->
    remote_failure p actionId w.

(** ** Reading the trace of a session *)

(** The request that a worker handles. *)
Definition task_request (t : Cache.task) : Req.progRequest :=
  match t with
  | Cache.TaskGet req => req
  | Cache.TaskPut req => req
  end.

(** The workers started, in the order of their start. *)
Fixpoint started (tr : list Cache.event) : list Cache.task :=
  match tr with
  | [] => []
  | Cache.EvStart t :: tr' => t :: started tr'
  | _ :: tr' => started tr'
  end.

(** The workers ended, in the order of their end. *)
Fixpoint ended (tr : list Cache.event) : list Cache.task :=
  match tr with
  | [] => []
  | Cache.EvEnd t _ :: tr' => t :: ended tr'
  | _ :: tr' => ended tr'
  end.

(** The ids of the requests whose worker ended without error, in the order
    of their end. *)
Fixpoint answered (tr : list Cache.event) : list Z :=
  match tr with
  | [] => []
  | Cache.EvEnd t None :: tr' => Req.ID (task_request t) :: answered tr'
  | _ :: tr' => answered tr'
  end.

(** The errors of workers and of [Close]. *)
Fixpoint failures (tr : list Cache.event) : list error :=
  match tr with
  | [] => []
  | Cache.EvEnd _ (Some e) :: tr' => e :: failures tr'
  | Cache.EvClose _ (Some e) :: tr' => e :: failures tr'
  | _ :: tr' => failures tr'
  end.

(** ** Paths, by their components *)

(** A path component that [Clean] keeps as it is; it may be empty. *)
Definition simple (c : string) : Prop :=
  contains "/" c = false /\ c <> "." /\ c <> "..".

Definition push (c : string) (stack : list string) : list string :=
  if String.eqb c "" then stack else c :: stack.

(** A component of a cleaned absolute path. *)
Definition proper (c : string) : Prop := simple c /\ c <> "".

(** An absolute path, from its components. *)
Definition render (cs : list string) : string := "/" ++ String.concat "/" cs.

Definition stack_of (rooted : bool) (path : string) : list string :=
  fold_left (clean_step rooted) (split_slash path) [].

(** The components under which the entries of a cache directory live. *)
Definition base_stack (fs : filesystem) (cacheDir : string) : list string :=
  if IsAbs cacheDir then stack_of true cacheDir
  else fold_left (clean_step true) (rev (stack_of false cacheDir))
                 (stack_of true (cwd fs)).

(** Case analysis on one move of a session; [inv] inverts a [g.Go] that went
    through. *)
Ltac exec_cases Hexec inv :=
  unfold Cache.exec in Hexec;
  repeat match type of Hexec with
         | context [match ?x with _ => _ end] => destruct x eqn:?; try discriminate
         end;
  injection Hexec as <-;
  repeat match goal with
         | Hg : errgroup.Go _ = errgroup.Started _ |- _ =>
             apply inv in Hg; destruct Hg as (? & ? & ->)
         end.

(** ** Concrete states used in the examples *)

Definition ex_store : LocalStore.provider :=
  {| LocalStore.cacheDir := "/tmp/go-cache" |}.

(** A disk with the root directory only. *)
Definition fs0 : filesystem :=
  {| nodes := {[ "/" := Directory 4096 0 ]};
     cwd := "/"; now := 1; newDirSize := 4096 |}.

Definition ex_disk : filesystem :=
  snd (LocalStore.NewProvider "/tmp/go-cache" fs0).

(** A tiered store over [ex_store] with an upload threshold of four bytes,
    and an environment whose remote tier answers and holds nothing. *)
Definition ex_tiered : CosStore.provider :=
  {| CosStore.config :=
       {| CosStore.cos :=
            {| CosStore.AuthEndpoint := ""; CosStore.ApiKey := "";
               CosStore.Endpoint := ""; CosStore.ResourceInstanceId := "";
               CosStore.Bucket := "cache" |};
          CosStore.CacheDir := "/tmp/go-cache";
          CosStore.MinUploadSize := 4 |};
     CosStore.localProvider := ex_store |}.

Definition ex_world : world :=
  {| disk := ex_disk;
     remote := {| bucketNames := ["cache"]; objects := ∅;
                  reachable := true; calls := [] |} |}.

(** A [put] request without action id, and no body. *)
Definition put_without_action : Req.progRequest :=
  {| Req.ID := 7; Req.Command := "put"; Req.ActionID := [];
     Req.OutputID := [x62]; Req.Body := None; Req.BodySize := 0 |}.

(** A handler over the local store with two workers, its output, and some
    requests. *)
Definition ex_handler : @Cache.Handler LocalStore.provider :=
  {| Cache.provider := ex_store; Cache.workers := 2 |}.

Definition ex_out : Cache.Writer :=
  {| Cache.written := []; Cache.failAfter := None |}.

Definition get_request : Req.progRequest :=
  {| Req.ID := 1; Req.Command := "get"; Req.ActionID := [x61];
     Req.OutputID := []; Req.Body := None; Req.BodySize := 0 |}.

Definition close_request : Req.progRequest :=
  {| Req.ID := 2; Req.Command := "close"; Req.ActionID := [];
     Req.OutputID := []; Req.Body := None; Req.BodySize := 0 |}.

Definition put_request_10 : Req.progRequest :=
  {| Req.ID := 3; Req.Command := "put"; Req.ActionID := [x61];
     Req.OutputID := [x62]; Req.Body := None; Req.BodySize := 10 |}.

(** The session of [ex_handler] on [input], as [Run] starts it. *)
Definition ex_start (input : list Cache.frame) : result Cache.session :=
  Cache.Run_start ex_handler input ex_out ex_world.

(** The same session once the reader has got its slot. *)
Definition ex_reading (input : list Cache.frame) : Cache.session :=
  {| Cache.input := input; Cache.reader := Cache.Reading; Cache.inflight := [];
     Cache.env := ex_world;
     Cache.output :=
       {| Cache.written :=
            [{| Resp.ID := 0; Resp.Err := "";
                Resp.KnownCommands := ["get"; "put"; "close"];
                Resp.Miss := false; Resp.OutputID := []; Resp.Size := 0;
                Resp.Time := None; Resp.DiskPath := "" |}];
          Cache.failAfter := None |};
     Cache.group := {| errgroup.limit := 3; errgroup.active := 1;
                       errgroup.firstErr := None; errgroup.done := false |};
     Cache.trace := [] |}.

(** The session before the reader has got its slot. *)
Definition ex_initial (input : list Cache.frame) : Cache.session :=
  {| Cache.input := input; Cache.reader := Cache.Pending; Cache.inflight := [];
     Cache.env := ex_world; Cache.output := Cache.output (ex_reading input);
     Cache.group := errgroup.New 3; Cache.trace := [] |}.

(** Three [get] requests with two workers: after two of them are in flight,
    the reader waits in [g.Go] with the third. *)
Definition busy_run : Cache.session :=
  default (ex_initial [])
    (Cache.exec_all ex_handler
       [Cache.LAdmit; Cache.LRead; Cache.LSpawn; Cache.LRead; Cache.LSpawn;
        Cache.LRead]
       (ex_initial [Cache.FRequest get_request; Cache.FRequest get_request;
                    Cache.FRequest get_request])).

(** A disk whose marker for action [61] names the object [zz], which is not
    hexadecimal, with an object file of the recorded size. *)
Definition non_hex_world : world :=
  {| disk :=
       set_node
         (set_node ex_disk "/tmp/go-cache/object/zz" (File [x01; x02] 9))
         "/tmp/go-cache/action/61" (File (list_byte_of_string "zz:2") 10);
     remote := remote ex_world |}.

(** A [get] followed by [close]: the moves up to the reader's turn on
    [close]. *)
Definition close_run : option Cache.session :=
  Cache.exec_all ex_handler [Cache.LRead; Cache.LSpawn; Cache.LRead]
    (ex_reading [Cache.FRequest get_request; Cache.FRequest close_request]).

(** The disk after a [Put] of two bytes, and the same disk with the object
    file cut to one byte out of band. *)
Definition stored_disk : filesystem :=
  snd (LocalStore.Put ex_store "6161" "6262" (bytes_NewReader [x01; x02]) ex_disk).

Definition truncated_disk : filesystem :=
  set_node stored_disk "/tmp/go-cache/object/6262" (File [x01] 20).

(** A marker written out of band: no object id, and the size of the object
    directory. *)
Definition tampered_disk : filesystem :=
  set_node ex_disk "/tmp/go-cache/action/6161"
           (File (list_byte_of_string ":4096") 9).

(** A stream that breaks after one byte. *)
Definition broken_body : Reader :=
  {| rd_data := [x01]; rd_err := Some (ErrIO "broken") |}.

(** The environment after the tiered store has put four bytes for action
    [6161], and a second machine with an empty cache directory on the same
    remote tier. *)
Definition uploaded_world : world :=
  snd (CosStore.Put ex_tiered "6161" "6262"
         (bytes_NewReader [x01; x02; x03; x04]) ex_world).

Definition second_machine : world :=
  {| disk := ex_disk; remote := remote uploaded_world |}.

Definition uploaded_object : s3_object :=
  {| Metadata := <[CosStore.objectIdKey := Some "6262"]>
                   (<[CosStore.sizeKey := Some "4"]> ∅);
     Body := bytes_NewReader [x01; x02; x03; x04] |}.

(** A remote entry that declares five bytes and holds four. *)
Definition mislabeled_object : s3_object :=
  {| Metadata := <[CosStore.objectIdKey := Some "6262"]>
                   (<[CosStore.sizeKey := Some "5"]> ∅);
     Body := bytes_NewReader [x01; x02; x03; x04] |}.

Definition mislabeled_world : world :=
  {| disk := ex_disk;
     remote := {| bucketNames := ["cache"];
                  objects := {[ ("cache", "action/6161") := mislabeled_object ]};
                  reachable := true; calls := [] |} |}.

(** An environment whose remote tier does not answer. *)
Definition offline_world : world :=
  {| disk := ex_disk;
     remote := {| bucketNames := ["cache"]; objects := ∅;
                  reachable := false; calls := [] |} |}.

(** A [put] request with its body, and a request with a command that the
    engine does not know. *)
Definition put_request_ok : Req.progRequest :=
  {| Req.ID := 4; Req.Command := "put"; Req.ActionID := [x61];
     Req.OutputID := [x62]; Req.Body := Some (bytes_NewReader [x01; x02]);
     Req.BodySize := 2 |}.

Definition unknown_request : Req.progRequest :=
  {| Req.ID := 5; Req.Command := "list"; Req.ActionID := [];
     Req.OutputID := []; Req.Body := None; Req.BodySize := 0 |}.

(** A [get] followed by [close]: the worker ends before the reader comes to
    [close]. *)
Definition served_run : Cache.session :=
  default (ex_initial [])
    (Cache.exec_all ex_handler
       [Cache.LAdmit; Cache.LRead; Cache.LSpawn; Cache.LEnd 0; Cache.LRead]
       (ex_initial [Cache.FRequest get_request; Cache.FRequest close_request])).

(** * Properties *)

(** ** Strings *)

Lemma append_cons (x : ascii) (a b : string) :
  (String x a ++ b = String x (a ++ b))%string.
Proof. reflexivity. Qed.

Lemma append_nil_l (b : string) : ("" ++ b = b)%string.
Proof. reflexivity. Qed.

Lemma append_assoc (a b c : string) :
  ((a ++ b) ++ c = a ++ (b ++ c))%string.
Proof.
  induction a as [| x a IH]; [reflexivity |].
  now rewrite !append_cons, IH.
Qed.

Lemma append_nil_r (a : string) : (a ++ "" = a)%string.
Proof.
  induction a as [| x a IH]; [reflexivity |].
  now rewrite append_cons, IH.
Qed.

(** ** Decimal numbers *)

Lemma digit_char_is_digit d :
  0 <= d < 10 -> is_digit (digit_char d) = true /\ digit_val (digit_char d) = d.
Proof.
  intros Hd.
  assert (Hcases : d = 0 \/ d = 1 \/ d = 2 \/ d = 3 \/ d = 4 \/ d = 5 \/ d = 6
                   \/ d = 7 \/ d = 8 \/ d = 9) by lia.
  repeat (destruct Hcases as [-> | Hcases]; [split; reflexivity |]).
  subst d. split; reflexivity.
Qed.

Lemma parse_digits_acc_snoc s c acc :
  is_digit c = true ->
  parse_digits_acc (s ++ String c "") acc
  = option_map (fun v => 10 * v + digit_val c) (parse_digits_acc s acc).
Proof.
  intros Hc. revert acc.
  induction s as [| x s IH]; intros acc; simpl.
  - now rewrite Hc.
  - destruct (is_digit x); [apply IH | reflexivity].
Qed.

Lemma digits_fuel_acc fuel : forall n acc,
  digits_fuel fuel n acc = (digits_fuel fuel n "" ++ acc)%string.
Proof.
  induction fuel as [| fuel IH]; intros n acc; simpl; [reflexivity |].
  destruct (n <? 10); [reflexivity |].
  rewrite (IH _ (String _ acc)), (IH _ (String _ "")).
  now rewrite append_assoc.
Qed.

Lemma parse_digits_fuel fuel : forall n,
  0 <= n < 2 ^ Z.of_nat fuel ->
  parse_digits_acc (digits_fuel fuel n "") 0 = Some n.
Proof.
  induction fuel as [| fuel IH]; intros n Hn.
  - simpl in Hn. assert (n = 0) by lia. subst n. reflexivity.
  - simpl digits_fuel.
    assert (Hmod : 0 <= n mod 10 < 10) by (apply Z.mod_pos_bound; lia).
    destruct (digit_char_is_digit _ Hmod) as [Hd Hv].
    destruct (n <? 10) eqn:Hlt.
    + apply Z.ltb_lt in Hlt.
      simpl. rewrite Hd, Hv. f_equal. rewrite Z.mod_small; lia.
    + apply Z.ltb_ge in Hlt.
      rewrite digits_fuel_acc.
      assert (Hdiv : 0 <= n / 10 < 2 ^ Z.of_nat fuel).
      { split; [apply Z.div_pos; lia |].
        apply Z.div_lt_upper_bound; [lia |].
        rewrite Nat2Z.inj_succ, Z.pow_succ_r in Hn by lia. lia. }
      rewrite parse_digits_acc_snoc by exact Hd.
      rewrite (IH _ Hdiv). simpl. rewrite Hv. f_equal.
      pose proof (Z.div_mod n 10). lia.
Qed.

Lemma digits_fuel_head fuel : forall n acc,
  0 <= n -> fuel <> O ->
  exists c rest, digits_fuel fuel n acc = String c rest /\ is_digit c = true.
Proof.
  induction fuel as [| fuel IH]; intros n acc Hn Hf; [congruence |].
  simpl.
  assert (Hmod : 0 <= n mod 10 < 10) by (apply Z.mod_pos_bound; lia).
  destruct (digit_char_is_digit _ Hmod) as [Hd _].
  destruct (n <? 10) eqn:Hlt; [eauto |].
  destruct fuel as [| fuel']; [simpl; eauto |].
  apply IH; [apply Z.div_pos; lia | congruence].
Qed.

Lemma log2_fuel n : 0 <= n -> 0 <= n < 2 ^ Z.of_nat (S (Z.to_nat (Z.log2 n))).
Proof.
  intros Hn. split; [exact Hn |].
  rewrite Nat2Z.inj_succ, Z2Nat.id by apply Z.log2_nonneg.
  destruct (Z.eq_dec n 0) as [-> | Hne]; [reflexivity |].
  apply Z.log2_spec. lia.
Qed.

(** What [%d] prints, [ParseInt] reads back. *)
Lemma ParseInt_FormatInt n :
  0 <= n < 2 ^ 63 -> ParseInt (FormatInt n) = Ok n.
Proof.
  intros [Hn Hlt]. unfold FormatInt.
  assert (Hneg : (n <? 0) = false) by (apply Z.ltb_ge; lia).
  rewrite Hneg. unfold digits.
  pose proof (parse_digits_fuel _ _ (log2_fuel n Hn)) as Hp.
  destruct (digits_fuel_head (S (Z.to_nat (Z.log2 n))) n "" Hn) as (c & rest & Heq & Hc);
    [congruence |].
  rewrite Heq in *. unfold ParseInt.
  assert (Hplus : Ascii.eqb c "+" = false).
  { destruct (Ascii.eqb_spec c "+") as [-> |]; [discriminate | reflexivity]. }
  assert (Hminus : Ascii.eqb c "-" = false).
  { destruct (Ascii.eqb_spec c "-") as [-> |]; [discriminate | reflexivity]. }
  rewrite Hplus, Hminus. unfold parse_digits. rewrite Hp.
  assert (Hb : (n <? 2 ^ 63) = true) by (apply Z.ltb_lt; lia).
  now rewrite Hb.
Qed.

(** ** Cutting at the separator *)

Lemma cut_app sep o rest :
  contains sep o = false ->
  cut sep (o ++ String sep rest) = Some (o, rest).
Proof.
  induction o as [| c o IH]; simpl; intros Hc.
  - now rewrite Ascii.eqb_refl.
  - apply orb_false_iff in Hc as [Hne Hc].
    rewrite Hne, (IH Hc). reflexivity.
Qed.

Lemma cut_Some sep s before after :
  cut sep s = Some (before, after) ->
  s = (before ++ String sep after)%string /\ contains sep before = false.
Proof.
  revert before. induction s as [| c s IH]; simpl; intros before Hcut;
    [discriminate |].
  destruct (Ascii.eqb_spec c sep) as [-> | Hne].
  - injection Hcut as <- <-. split; reflexivity.
  - destruct (cut sep s) as [[b a] |] eqn:Hs; [| discriminate].
    injection Hcut as <- <-.
    destruct (IH b eq_refl) as [-> Hb]. split; [reflexivity |].
    simpl. rewrite Hb.
    destruct (Ascii.eqb_spec c sep); [contradiction | reflexivity].
Qed.

Lemma SplitN_marker o rest :
  contains ":" o = false ->
  SplitN (o ++ String ":" rest) ":" 2 = [o; rest].
Proof. intros Hc. simpl. now rewrite cut_app. Qed.

Lemma SplitN_two s a b :
  SplitN s ":" 2 = [a; b] ->
  s = (a ++ String ":" b)%string /\ contains ":" a = false.
Proof.
  simpl. destruct (cut ":" s) as [[x y] |] eqn:Hcut; [| discriminate].
  intros Heq. injection Heq as <- <-. now apply cut_Some.
Qed.

(** ** The file system *)

Lemma resolve_set_node fs key n name :
  resolve (set_node fs key n) name = resolve fs name.
Proof. reflexivity. Qed.

Lemma Abs_set_node fs key n path : Abs (set_node fs key n) path = Abs fs path.
Proof. reflexivity. Qed.

Lemma nodes_set_node fs key n :
  nodes (set_node fs key n) = <[key := n]> (nodes fs).
Proof. reflexivity. Qed.

Lemma clean_step_nonempty rooted stack c :
  Forall (fun x => x <> "") stack ->
  Forall (fun x => x <> "") (clean_step rooted stack c).
Proof.
  intros Hst. unfold clean_step.
  destruct (String.eqb_spec c "") as [-> | Hne]; [exact Hst |].
  simpl. destruct (String.eqb c "."); [exact Hst |].
  destruct (String.eqb c "..").
  - destruct stack as [| top rest].
    + destruct rooted; [constructor | constructor; [exact Hne | constructor]].
    + destruct (String.eqb top "..").
      * constructor; [exact Hne | exact Hst].
      * now inversion Hst.
  - constructor; [exact Hne | exact Hst].
Qed.

Lemma clean_fold_nonempty rooted cs : forall stack,
  Forall (fun x => x <> "") stack ->
  Forall (fun x => x <> "") (fold_left (clean_step rooted) cs stack).
Proof.
  induction cs as [| c cs IH]; intros stack Hst; simpl; [exact Hst |].
  apply IH, clean_step_nonempty, Hst.
Qed.

Lemma clean_comps_nonempty rooted cs :
  Forall (fun x => x <> "") (clean_comps rooted cs).
Proof.
  unfold clean_comps. apply Forall_rev, clean_fold_nonempty. constructor.
Qed.

Lemma Clean_nonempty path : Clean path <> "".
Proof.
  unfold Clean. destruct path as [| c path]; [discriminate |].
  destruct (IsAbs (String c path)); [discriminate |].
  pose proof (clean_comps_nonempty false (split_slash (String c path))) as Hall.
  destruct (clean_comps false (split_slash (String c path))) as [| x xs];
    [discriminate |].
  inversion Hall as [| ? ? Hx _]; subst.
  destruct xs as [| y ys]; simpl; [exact Hx |].
  destruct x; [congruence | discriminate].
Qed.

Lemma Join_nonempty elem :
  Exists (fun e => e <> "") elem -> Join elem <> "".
Proof.
  induction elem as [| e rest IH]; intros Hex; [inversion Hex |].
  simpl. destruct (String.eqb_spec e "") as [-> | Hne].
  - apply IH. inversion Hex; [congruence | assumption].
  - apply Clean_nonempty.
Qed.

Lemma Abs_nonempty fs path d : path <> "" -> Abs fs path = Ok d -> d <> "".
Proof.
  intros Hp. unfold Abs. destruct (IsAbs path).
  - intros [= <-]. apply Clean_nonempty.
  - unfold os_Getwd. intros Heq.
    replace d with (Join [cwd fs; path]) by congruence.
    apply Join_nonempty, Exists_cons_tl, Exists_cons_hd, Hp.
Qed.

Lemma objPath_nonempty p objectId : LocalStore.objPath p objectId <> "".
Proof.
  apply Join_nonempty, Exists_cons_tl, Exists_cons_hd. discriminate.
Qed.

(** ** The local store *)

(** The marker parser of [Get], on its own. *)
Lemma SplitN_marker_of data objectId size :
  marker_of data objectId size ->
  exists text, SplitN (string_of_list_byte data) ":" 2 = [objectId; text]
               /\ ParseInt text = Ok size.
Proof.
  intros (text & Heq & Hc & Hp). exists text. split; [| exact Hp].
  rewrite Heq. now apply SplitN_marker.
Qed.

Lemma local_Get_marker p actionId fs data objectId size :
  os_ReadFile fs (LocalStore.actionPath p actionId) = Ok data ->
  marker_of data objectId size ->
  LocalStore.Get p actionId fs =
    match Abs fs (LocalStore.objPath p objectId) with
    | Err _ => LocalStore.notFound
    | Ok diskpath =>
        match os_Stat fs diskpath with
        | Err _ => LocalStore.notFound
        | Ok fi =>
            if negb (Size fi =? size) then LocalStore.notFound
            else (objectId, diskpath, None)
        end
    end.
Proof.
  intros Hread Hm. destruct (SplitN_marker_of _ _ _ Hm) as (text & Hsplit & Hp).
  unfold LocalStore.Get. rewrite Hread, Hsplit. simpl. now rewrite Hp.
Qed.

Lemma local_Get_no_marker p actionId fs data :
  os_ReadFile fs (LocalStore.actionPath p actionId) = Ok data ->
  ~ (exists objectId size, marker_of data objectId size) ->
  LocalStore.Get p actionId fs = LocalStore.notFound.
Proof.
  intros Hread Hno. unfold LocalStore.Get. rewrite Hread.
  destruct (SplitN (string_of_list_byte data) ":" 2) as [| a [| b [| c l]]] eqn:Hs;
    try reflexivity.
  simpl. destruct (ParseInt b) as [size |] eqn:Hp; [| reflexivity].
  exfalso. apply Hno. exists a, size, b.
  destruct (SplitN_two _ _ _ Hs) as [Heq Hc]. auto.
Qed.

(** A result of [Get] that is not a miss comes from a marker that reads as
    [objectId:size] and from an object file of that size. *)
Lemma local_Get_hit_inv p actionId fs objectId diskpath :
  LocalStore.Get p actionId fs = (objectId, diskpath, None) ->
  (objectId, diskpath) <> ("", "") ->
  exists data size fi,
    os_ReadFile fs (LocalStore.actionPath p actionId) = Ok data
    /\ marker_of data objectId size
    /\ Abs fs (LocalStore.objPath p objectId) = Ok diskpath
    /\ os_Stat fs diskpath = Ok fi
    /\ Size fi = size.
Proof.
  unfold LocalStore.Get, LocalStore.notFound.
  destruct (os_ReadFile fs (LocalStore.actionPath p actionId)) as [data | e] eqn:Hread.
  2:{ destruct (errors_Is e ErrNotExist); intros [= <- <-]; congruence. }
  destruct (SplitN (string_of_list_byte data) ":" 2) as [| a [| b [| c l]]] eqn:Hs;
    simpl; try (intros [= <- <-]; congruence).
  destruct (ParseInt b) as [size |] eqn:Hp; [| intros [= <- <-]; congruence].
  destruct (Abs fs (LocalStore.objPath p a)) as [d |] eqn:Habs;
    [| intros [= <- <-]; congruence].
  destruct (os_Stat fs d) as [fi |] eqn:Hstat; [| intros [= <- <-]; congruence].
  destruct (Size fi =? size) eqn:Hsz; simpl; [| intros [= <- <-]; congruence].
  intros [= <- <-] _. exists data, size, fi.
  destruct (SplitN_two _ _ _ Hs) as [Heq Hc].
  apply Z.eqb_eq in Hsz.
  repeat split; try assumption. exists b. auto.
Qed.

(** What a successful [Put] leaves on the disk. *)
Lemma local_Put_ok_inv p actionId objectId body fs diskpath fs' :
  LocalStore.Put p actionId objectId body fs = ((diskpath, None), fs') ->
  Abs fs (LocalStore.objPath p objectId) = Ok diskpath
  /\ rd_err body = None
  /\ cwd fs' = cwd fs
  /\ nodes fs' =
       <[resolve fs (LocalStore.actionPath p actionId) :=
           File (Appendf_marker objectId (Z.of_nat (length (rd_data body))))
                (now fs + 1 + 1)]>
         (<[resolve fs diskpath := File (rd_data body) (now fs + 1)]>
            (<[resolve fs diskpath := File [] (now fs)]> (nodes fs))).
Proof.
  unfold LocalStore.Put.
  destruct (Abs fs (LocalStore.objPath p objectId)) as [d |] eqn:Habs;
    [| intros [=]].
  unfold os_Create. destruct (writable fs (resolve fs d)); [intros [=] |].
  unfold io_Copy. rewrite nodes_set_node, lookup_insert_eq. simpl app.
  destruct (rd_err body) eqn:Herr; [intros [=] |].
  unfold os_WriteFile.
  destruct (writable _ _); [intros [=] |].
  intros [= <- <-]. repeat split; reflexivity.
Qed.

(** The marker and the object file after a successful [Put], when they are
    different files. *)
Lemma local_disk_after_Put p actionId objectId body fs diskpath fs' :
  resolve fs (LocalStore.actionPath p actionId) <> resolve fs diskpath ->
  LocalStore.Put p actionId objectId body fs = ((diskpath, None), fs') ->
  os_ReadFile fs' (LocalStore.actionPath p actionId)
  = Ok (Appendf_marker objectId (Z.of_nat (length (rd_data body))))
  /\ Abs fs' (LocalStore.objPath p objectId) = Ok diskpath
  /\ os_ReadFile fs' diskpath = Ok (rd_data body)
  /\ os_Stat fs' diskpath
     = Ok {| Size := Z.of_nat (length (rd_data body));
             ModTime := now fs + 1; IsDir := false |}.
Proof.
  intros Hdiff Hput.
  destruct (local_Put_ok_inv _ _ _ _ _ _ _ Hput) as (Habs & _ & Hcwd & Hnodes).
  assert (Hres : forall name, resolve fs' name = resolve fs name).
  { intros name. unfold resolve. now rewrite Hcwd. }
  assert (Hobj : nodes fs' !! resolve fs diskpath
                 = Some (File (rd_data body) (now fs + 1))).
  { rewrite Hnodes, lookup_insert_ne by exact Hdiff. apply lookup_insert_eq. }
  repeat split.
  - unfold os_ReadFile. rewrite Hres, Hnodes, lookup_insert_eq. reflexivity.
  - unfold Abs, os_Getwd in *. now rewrite Hcwd.
  - unfold os_ReadFile. now rewrite Hres, Hobj.
  - unfold os_Stat. now rewrite Hres, Hobj.
Qed.

(** What [Put] writes into the marker reads as the object id and the size. *)
Lemma marker_of_Appendf objectId size :
  contains ":" objectId = false ->
  0 <= size < 2 ^ 63 ->
  marker_of (Appendf_marker objectId size) objectId size.
Proof.
  intros Hcolon Hsize. exists (FormatInt size).
  split; [apply string_of_list_byte_of_string |].
  split; [exact Hcolon | now apply ParseInt_FormatInt].
Qed.

(** C1 (as amended): after a successful [Put] of an object id without a colon,
    with the marker file and the object file at different places and a size
    within [int64], [Get] of the action returns that object id and the path
    that [Put] returned; the file there holds the payload and has its length. *)
Theorem local_Put_Get_roundtrip p actionId objectId body fs diskpath fs' :
  contains ":" objectId = false ->
  Z.of_nat (length (rd_data body)) < 2 ^ 63 ->
  resolve fs (LocalStore.actionPath p actionId) <> resolve fs diskpath ->
  LocalStore.Put p actionId objectId body fs = ((diskpath, None), fs') ->
  LocalStore.Get p actionId fs' = (objectId, diskpath, None)
  /\ os_ReadFile fs' diskpath = Ok (rd_data body)
  /\ exists fi, os_Stat fs' diskpath = Ok fi
                /\ Size fi = Z.of_nat (length (rd_data body)).
Proof.
  intros Hcolon Hsize Hdiff Hput.
  destruct (local_disk_after_Put _ _ _ _ _ _ _ Hdiff Hput)
    as (Hmarker & Habs & Hread & Hstat).
  split; [| split; [exact Hread | eauto]].
  assert (Hm : marker_of (Appendf_marker objectId (Z.of_nat (length (rd_data body))))
                         objectId (Z.of_nat (length (rd_data body))))
    by (apply marker_of_Appendf; [exact Hcolon | lia]).
  rewrite (local_Get_marker _ _ _ _ _ _ Hmarker Hm), Habs, Hstat.
  simpl Size. now rewrite Z.eqb_refl.
Qed.

(** C1, the claim as it stands fails: an object id with a colon is stored by
    [Put], and the [Get] that follows is a miss. *)
Lemma local_roundtrip_colon_counterexample :
  exists diskpath fs',
    LocalStore.Put ex_store "6161" "b:b" (bytes_NewReader [x01; x02]) ex_disk
    = ((diskpath, None), fs')
    /\ LocalStore.Get ex_store "6161" fs' = ("", "", None).
Proof.
  exists "/tmp/go-cache/object/b:b",
    (snd (LocalStore.Put ex_store "6161" "b:b" (bytes_NewReader [x01; x02]) ex_disk)).
  split; vm_compute; reflexivity.
Qed.

Lemma local_Put_Get_roundtrip_witness :
  LocalStore.Get ex_store "6161"
    (snd (LocalStore.Put ex_store "6161" "6262" (bytes_NewReader [x01; x02]) ex_disk))
  = ("6262", "/tmp/go-cache/object/6262", None).
Proof.
  apply (local_Put_Get_roundtrip ex_store "6161" "6262"
           (bytes_NewReader [x01; x02]) ex_disk "/tmp/go-cache/object/6262").
  - reflexivity.
  - simpl. lia.
  - vm_compute. discriminate.
  - vm_compute. reflexivity.
Defined.

(** C4: a marker that exists but does not read as [objectId:size], or whose
    object file has another size than the recorded one, gives a miss: empty
    results and no error. *)
Theorem local_Get_corrupt_entry_is_miss p actionId fs data :
  os_ReadFile fs (LocalStore.actionPath p actionId) = Ok data ->
  (~ (exists objectId size, marker_of data objectId size))
  \/ (exists objectId size diskpath fi,
        marker_of data objectId size
        /\ Abs fs (LocalStore.objPath p objectId) = Ok diskpath
        /\ os_Stat fs diskpath = Ok fi
        /\ Size fi <> size) ->
  LocalStore.Get p actionId fs = ("", "", None).
Proof.
  intros Hread [Hno | (objectId & size & diskpath & fi & Hm & Habs & Hstat & Hne)].
  - now apply (local_Get_no_marker p actionId fs data).
  - rewrite (local_Get_marker _ _ _ _ _ _ Hread Hm), Habs, Hstat.
    apply Z.eqb_neq in Hne. now rewrite Hne.
Qed.

Lemma local_Get_corrupt_entry_is_miss_witness :
  LocalStore.Get ex_store "6161" truncated_disk = ("", "", None).
Proof.
  apply (local_Get_corrupt_entry_is_miss ex_store "6161" truncated_disk
           (list_byte_of_string "6262:2")).
  - vm_compute. reflexivity.
  - right.
    exists "6262", 2, "/tmp/go-cache/object/6262",
      {| Size := 1; ModTime := 20; IsDir := false |}.
    split; [exists "2"; repeat split; vm_compute; reflexivity |].
    split; [vm_compute; reflexivity |].
    split; [vm_compute; reflexivity | vm_compute; discriminate].
Defined.

(** C10 (as amended): a result of [Get] without error is a miss with both
    strings empty, or it has a disk path that is not empty and its object id
    is the one that the marker file records; so the object id is empty only
    when the marker records an empty one. *)
Theorem local_Get_result_shape p actionId fs objectId diskpath :
  LocalStore.Get p actionId fs = (objectId, diskpath, None) ->
  (objectId = "" /\ diskpath = "")
  \/ (diskpath <> ""
      /\ exists data size,
           os_ReadFile fs (LocalStore.actionPath p actionId) = Ok data
           /\ marker_of data objectId size).
Proof.
  intros Hget.
  destruct (decide ((objectId, diskpath) = ("", ""))) as [Heq | Hne].
  - left. now injection Heq.
  - right.
    destruct (local_Get_hit_inv _ _ _ _ _ Hget Hne)
      as (data & size & fi & Hread & Hm & Habs & _).
    split; [| eauto].
    eapply Abs_nonempty; [apply objPath_nonempty | exact Habs].
Qed.

Lemma local_Get_result_shape_witness :
  ("6262" = "" /\ "/tmp/go-cache/object/6262" = "")
  \/ ("/tmp/go-cache/object/6262" <> ""
      /\ exists data size,
           os_ReadFile stored_disk (LocalStore.actionPath ex_store "6161") = Ok data
           /\ marker_of data "6262" size).
Proof.
  apply (local_Get_result_shape ex_store "6161" stored_disk).
  vm_compute. reflexivity.
Defined.

(** C10, the claim as it stands fails: a marker without object id that
    records the size of the object directory makes [Get] return an empty
    object id with a disk path, and no error. *)
Lemma local_Get_mixed_result_counterexample :
  LocalStore.Get ex_store "6161" tampered_disk
  = ("", "/tmp/go-cache/object", None).
Proof. vm_compute. reflexivity. Qed.

(** With an error, both strings are empty. *)
Lemma local_Get_error_shape p actionId fs objectId diskpath err :
  LocalStore.Get p actionId fs = (objectId, diskpath, Some err) ->
  objectId = "" /\ diskpath = "".
Proof.
  unfold LocalStore.Get, LocalStore.notFound.
  destruct (os_ReadFile fs (LocalStore.actionPath p actionId)) as [data | e].
  2:{ destruct (errors_Is e ErrNotExist); intros [= <- <-]; auto. }
  destruct (negb _); [intros [=] |].
  destruct (ParseInt _); [| intros [=]].
  destruct (Abs _ _); [| intros [=]].
  destruct (os_Stat _ _); [| intros [=]].
  destruct (negb _); intros [=].
Qed.

(** ** The tiered store *)

(** A body whose stream breaks is never stored as a valid entry. *)
Lemma local_Put_broken_body p actionId objectId body fs e :
  rd_err body = Some e ->
  exists path e' fs',
    LocalStore.Put p actionId objectId body fs = ((path, Some e'), fs').
Proof.
  intros Herr. unfold LocalStore.Put.
  destruct (Abs fs (LocalStore.objPath p objectId)) as [d | e0]; [| eauto].
  destruct (os_Create fs d) as [[file | e1] fs1]; [| eauto].
  unfold io_Copy. rewrite Herr. eauto.
Qed.

(** C3: when the local tier misses, every failure of the remote tier (service
    unreachable, entry absent, metadata field missing or malformed, broken
    download, failed write into the local store) makes [Get] return a miss:
    empty results and no error. *)
Theorem cos_Get_remote_failure_is_miss p actionId w :
  local_miss p actionId w ->
  remote_failure p actionId w ->
  fst (CosStore.Get p actionId w) = ("", "", None).
Proof.
  intros (o0 & d0 & Hlocal & Hempty) Hfail.
  unfold CosStore.Get. rewrite Hlocal.
  assert (Hgate : negb (String.eqb o0 "") && negb (String.eqb d0 "") = false).
  { destruct Hempty as [-> | ->]; [reflexivity |].
    rewrite String.eqb_refl. apply andb_false_r. }
  rewrite Hgate. clear Hgate Hlocal Hempty.
  unfold GetObject.
  destruct (reachable (remote w)) eqn:Hreach;
    [| reflexivity].
  destruct Hfail as [Hr | Habs | o Hent Hmeta | o Hent Hmeta | o val e Hent Hmeta Hparse
                     | o e Hent Herr | o objectId path e fs' Hent Hmeta Hput];
    unfold remote_entry in *; try congruence.
  - now rewrite Habs.
  - rewrite Hent. unfold CosStore.lookUpObjectId.
    destruct Hmeta as [-> | ->]; reflexivity.
  - rewrite Hent.
    destruct (CosStore.lookUpObjectId (Metadata o)) as [oid [|]]; [| reflexivity].
    unfold CosStore.lookUpSize. destruct Hmeta as [-> | ->]; reflexivity.
  - rewrite Hent.
    destruct (CosStore.lookUpObjectId (Metadata o)) as [oid [|]]; [| reflexivity].
    unfold CosStore.lookUpSize. rewrite Hmeta, Hparse. reflexivity.
  - rewrite Hent.
    destruct (CosStore.lookUpObjectId (Metadata o)) as [oid [|]]; [| reflexivity].
    destruct (CosStore.lookUpSize (Metadata o)) as [size [|]]; [| reflexivity].
    destruct (local_Put_broken_body (CosStore.localProvider p) actionId oid
                (Body o) (disk w) e Herr) as (path & e' & fs' & ->).
    reflexivity.
  - rewrite Hent. unfold CosStore.lookUpObjectId. rewrite Hmeta.
    destruct (CosStore.lookUpSize (Metadata o)) as [size [|]]; [| reflexivity].
    rewrite Hput. reflexivity.
Qed.

Lemma cos_Get_remote_failure_is_miss_witness :
  fst (CosStore.Get ex_tiered "6161" ex_world) = ("", "", None).
Proof.
  apply (cos_Get_remote_failure_is_miss ex_tiered "6161" ex_world).
  - exists "", "". split; [vm_compute; reflexivity | now left].
  - apply RemoteAbsent. vm_compute. reflexivity.
Defined.

Lemma os_Open_after_Stat fs name fi :
  os_Stat fs name = Ok fi -> exists file, os_Open fs name = Ok file.
Proof.
  unfold os_Stat, os_Open.
  destruct (nodes fs !! resolve fs name) as [[data t | sz t] |]; eauto.
  intros [=].
Qed.

(** C7: when the file that the local [Put] leaves is one byte smaller than
    the upload threshold, [Put] returns the local path without error and sends
    nothing to the remote tier; when its size is the threshold, [Put] sends one
    [PutObject] for the action, with the object id and the size as metadata. *)
Theorem cos_Put_threshold p actionId objectId body w diskpath fs' fi :
  LocalStore.Put (CosStore.localProvider p) actionId objectId body (disk w)
  = ((diskpath, None), fs') ->
  os_Stat fs' diskpath = Ok fi ->
  (Size fi = CosStore.MinUploadSize (CosStore.config p) - 1 ->
   CosStore.Put p actionId objectId body w
   = ((diskpath, None), {| disk := fs'; remote := remote w |}))
  /\ (Size fi = CosStore.MinUploadSize (CosStore.config p) ->
      exists metadata file,
        calls (remote (snd (CosStore.Put p actionId objectId body w)))
        = (calls (remote w)
           ++ [CallPutObject (CosStore.Bucket (CosStore.cos (CosStore.config p)))
                             (CosStore.actionKey p actionId)
                             metadata file (Size fi)])%list
        /\ metadata !! CosStore.objectIdKey = Some (Some objectId)
        /\ metadata !! CosStore.sizeKey = Some (Some (FormatInt (Size fi)))
        /\ fst (fst (CosStore.Put p actionId objectId body w)) = diskpath).
Proof.
  intros Hput Hstat. unfold CosStore.Put. rewrite Hput, Hstat. split.
  - intros Hsize.
    assert (Hlt : (Size fi <? CosStore.MinUploadSize (CosStore.config p)) = true)
      by (apply Z.ltb_lt; lia).
    now rewrite Hlt.
  - intros Hsize.
    assert (Hge : (Size fi <? CosStore.MinUploadSize (CosStore.config p)) = false)
      by (apply Z.ltb_ge; lia).
    rewrite Hge.
    destruct (os_Open_after_Stat _ _ _ Hstat) as [file ->].
    eexists _, file.
    unfold PutObject.
    destruct (reachable (remote w)); [destruct (rd_err file) |];
      (split; [reflexivity |]); (split; [reflexivity |]);
      (split; reflexivity).
Qed.

Lemma cos_Put_threshold_witness :
  CosStore.Put ex_tiered "6161" "6262" (bytes_NewReader [x01; x02; x03]) ex_world
  = (("/tmp/go-cache/object/6262", None),
     {| disk := snd (LocalStore.Put ex_store "6161" "6262"
                       (bytes_NewReader [x01; x02; x03]) ex_disk);
        remote := remote ex_world |})
  /\ exists metadata file,
       calls (remote (snd (CosStore.Put ex_tiered "6161" "6262"
                             (bytes_NewReader [x01; x02; x03; x04]) ex_world)))
       = (calls (remote ex_world)
          ++ [CallPutObject "cache" "action/6161" metadata file 4])%list
       /\ metadata !! CosStore.objectIdKey = Some (Some "6262")
       /\ metadata !! CosStore.sizeKey = Some (Some "4")
       /\ fst (fst (CosStore.Put ex_tiered "6161" "6262"
                      (bytes_NewReader [x01; x02; x03; x04]) ex_world))
          = "/tmp/go-cache/object/6262".
Proof.
  split.
  - apply (proj1 (cos_Put_threshold ex_tiered "6161" "6262"
                    (bytes_NewReader [x01; x02; x03]) ex_world
                    "/tmp/go-cache/object/6262" _
                    {| Size := 3; ModTime := 6; IsDir := false |}
                    eq_refl eq_refl)).
    reflexivity.
  - apply (proj2 (cos_Put_threshold ex_tiered "6161" "6262"
                    (bytes_NewReader [x01; x02; x03; x04]) ex_world
                    "/tmp/go-cache/object/6262" _
                    {| Size := 4; ModTime := 6; IsDir := false |}
                    eq_refl eq_refl)).
    reflexivity.
Defined.

(** The threshold of a store made by [NewProvider]: the configured one when
    it is positive, else the default. *)
Lemma cos_NewProvider_threshold config w p w' :
  CosStore.NewProvider config w = (Ok p, w') ->
  CosStore.MinUploadSize (CosStore.config p)
  = (if CosStore.MinUploadSize config <=? 0 then CosStore.DefaultMinUploadSize
     else CosStore.MinUploadSize config)
  /\ 0 < CosStore.MinUploadSize (CosStore.config p).
Proof.
  unfold CosStore.NewProvider.
  destruct (String.eqb (CosStore.CacheDir config) ""); [intros [=] |].
  destruct (CosStore.MinUploadSize config <=? 0) eqn:Hle; cbn [CosStore.CacheDir].
  - destruct (LocalStore.NewProvider _ _) as [[lp | e] fs]; [| intros [=]].
    destruct (ListBuckets _) as [[names | e] c]; [| intros [=]].
    destruct (existsb _ _); intros [=]; subst. split; reflexivity.
  - apply Z.leb_gt in Hle.
    destruct (LocalStore.NewProvider _ _) as [[lp | e] fs]; [| intros [=]].
    destruct (ListBuckets _) as [[names | e] c]; [| intros [=]].
    destruct (existsb _ _); intros [=]; subst. split; [reflexivity | exact Hle].
Qed.

(** ** Hexadecimal strings *)

Lemma string_pair_ind (Q : string -> Prop) :
  Q "" ->
  (forall c, Q (String c "")) ->
  (forall p q s, Q s -> Q (String p (String q s))) ->
  forall s, Q s.
Proof.
  intros H0 H1 H2 s.
  assert (Hboth : Q s /\ forall c, Q (String c s)).
  { induction s as [| x s [IHs IHc]]; [split; [exact H0 | exact H1] |].
    split; [apply IHc |]. intros c. apply H2, IHs. }
  apply Hboth.
Qed.

(** [DecodeString] fails exactly on the strings that are not well-formed
    hexadecimal. *)
Lemma DecodeString_ok_iff s :
  snd (DecodeString s) = None <-> is_hex_string s = true.
Proof.
  unfold is_hex_string.
  induction s as [| c | p q s IH] using string_pair_ind.
  - split; reflexivity.
  - simpl. unfold is_hex_char. destruct (fromHexChar c); simpl.
    + split; discriminate.
    + split; discriminate.
  - cbn [DecodeString all_hex String.length Nat.even]. unfold is_hex_char.
    destruct (fromHexChar p) as [a |]; [| simpl; split; discriminate].
    destruct (fromHexChar q) as [b |]; [| simpl; split; discriminate].
    destruct (DecodeString s) as [out err]. simpl in *. exact IH.
Qed.

Lemma DecodeString_not_hex s :
  is_hex_string s = false -> exists e, snd (DecodeString s) = Some e.
Proof.
  intros Hno. destruct (snd (DecodeString s)) as [e |] eqn:Hd; [eauto |].
  apply DecodeString_ok_iff in Hd. congruence.
Qed.

(** What [enc] produces is well-formed hexadecimal. *)
Lemma hextable_is_hex n : (n < 16)%N -> is_hex_char (hextable n) = true.
Proof.
  intros Hn.
  assert (Hcases : In n (map N.of_nat (seq 0 16))).
  { apply in_map_iff. exists (N.to_nat n). split; [apply N2Nat.id |].
    apply in_seq. lia. }
  simpl in Hcases.
  repeat (destruct Hcases as [<- | Hcases]; [reflexivity |]). contradiction.
Qed.

Lemma enc_is_hex b : is_hex_string (Cache.enc b) = true.
Proof.
  unfold is_hex_string, Cache.enc.
  induction b as [| x b IH]; [reflexivity |].
  apply andb_true_iff in IH as [IHa IHe].
  cbn [EncodeToString all_hex String.length Nat.even].
  rewrite IHa, IHe.
  rewrite !hextable_is_hex; [reflexivity | |].
  - apply N.mod_upper_bound. discriminate.
  - apply N.Div0.div_lt_upper_bound. pose proof (Byte.to_N_bounded x). lia.
Qed.

(** ** The engine *)

(** The sibling checks of the reader: a [get] without action id and a [put]
    without object id make the reader return an error. *)
Lemma reader_get_without_action req rest :
  Req.Command req = "get" ->
  Req.ActionID req = [] ->
  Cache.reader_iter (Cache.FRequest req :: rest)
  = (Cache.Return (Some (Errorf "invalid ActionID")), rest).
Proof.
  intros Hc Ha. unfold Cache.reader_iter. cbn -[String.eqb].
  now rewrite Hc, Ha.
Qed.

Lemma reader_put_without_object req rest :
  Req.Command req = "put" ->
  Req.OutputID req = [] ->
  Cache.reader_iter (Cache.FRequest req :: rest)
  = (Cache.Return (Some (Errorf "invalid OutputID")), rest).
Proof.
  intros Hc Ho. unfold Cache.reader_iter. cbn -[String.eqb].
  now rewrite Hc, Ho.
Qed.

(** No such check guards the action id of a [put]: whatever the action id,
    a [put] with an object id and no body goes to a worker. *)
Lemma reader_put_any_action req rest :
  Req.Command req = "put" ->
  Req.OutputID req <> [] ->
  Req.BodySize req <= 0 ->
  Cache.reader_iter (Cache.FRequest req :: rest)
  = (Cache.Go (Cache.TaskPut (Cache.with_Body req (Some (bytes_NewReader [])))),
     rest).
Proof.
  intros Hc Ho Hb. unfold Cache.reader_iter. cbn -[String.eqb Z.gtb].
  rewrite Hc. cbn -[Z.gtb].
  destruct (Req.OutputID req) as [| b l]; [congruence |]. simpl Nat.eqb. cbn iota.
  assert (Hgt : (Req.BodySize req >? 0) = false).
  { destruct (Z.gtb_spec (Req.BodySize req) 0); [lia | reflexivity]. }
  now rewrite Hgt.
Qed.

(** A [put] with a positive [BodySize] and a payload of another length makes
    the reader return an error. *)
Lemma reader_put_size_mismatch req frames body rest :
  Req.Command req = "put" ->
  Req.BodySize req > 0 ->
  Cache.Decode_bytes frames = (Ok body, rest) ->
  Z.of_nat (length body) <> Req.BodySize req ->
  exists e rest',
    Cache.reader_iter (Cache.FRequest req :: frames) = (Cache.Return (Some e), rest').
Proof.
  intros Hc Hpos Hdec Hne. unfold Cache.reader_iter. cbn -[String.eqb Z.gtb Z.eqb].
  rewrite Hc. cbn -[Z.gtb Z.eqb].
  destruct (Nat.eqb (length (Req.OutputID req)) 0); [eauto |].
  assert (Hgt : (Req.BodySize req >? 0) = true) by (apply Z.gtb_lt; lia).
  rewrite Hgt, Hdec.
  assert (Hneq : (Req.BodySize req =? Z.of_nat (length body)) = false)
    by (apply Z.eqb_neq; lia).
  rewrite Hneq. simpl. eauto.
Qed.


(** ** Sessions *)

Lemma Go_started g g' :
  errgroup.Go g = errgroup.Started g' ->
  errgroup.firstErr g = None
  /\ Z.of_nat (errgroup.active g) < errgroup.limit g
  /\ g' = {| errgroup.limit := errgroup.limit g;
             errgroup.active := S (errgroup.active g);
             errgroup.firstErr := errgroup.firstErr g;
             errgroup.done := errgroup.done g |}.
Proof.
  unfold errgroup.Go. destruct (errgroup.firstErr g); [discriminate |].
  destruct (Z.of_nat (errgroup.active g) <? errgroup.limit g) eqn:Hlt;
    [| discriminate].
  apply Z.ltb_lt in Hlt. intros [= <-]. auto.
Qed.

Section SessionProperties.

Context {P : Type} `{Cache.Provider P}.
Variable h : @Cache.Handler P.

Lemma exec_limit l s s' :
  Cache.exec h l s = Some s' ->
  errgroup.limit (Cache.group s') = errgroup.limit (Cache.group s).
Proof. intros Hexec. exec_cases Hexec Go_started; reflexivity. Qed.

Lemma lookup_length_pos {A} (l : list A) i x :
  l !! i = Some x -> length (delete i l) = Nat.pred (length l) /\ (0 < length l)%nat.
Proof.
  intros Hl. pose proof (lookup_lt_Some _ _ _ Hl) as Hlt.
  rewrite length_delete by eauto. lia.
Qed.

(** The slots of the group are those of the reader and of the workers in
    flight, in every move. *)
Lemma exec_well_formed l s s' :
  Cache.well_formed s -> Cache.exec h l s = Some s' -> Cache.well_formed s'.
Proof.
  unfold Cache.well_formed. intros Hwf Hexec.
  exec_cases Hexec Go_started; simpl;
    repeat match goal with
           | Hr : Cache.reader s = _ |- _ => rewrite Hr in Hwf
           | Hl : Cache.inflight s !! _ = Some _ |- _ =>
               apply lookup_length_pos in Hl; destruct Hl as [-> ?]
           end;
    simpl in *; rewrite ?length_app; simpl; lia.
Qed.

(** A worker is started only while the reader holds its slot and one more
    slot is free. *)
Lemma exec_inflight_bound l s s' :
  Cache.well_formed s ->
  Z.of_nat (length (Cache.inflight s)) < errgroup.limit (Cache.group s) ->
  Cache.exec h l s = Some s' ->
  Z.of_nat (length (Cache.inflight s')) < errgroup.limit (Cache.group s').
Proof.
  unfold Cache.well_formed. intros Hwf Hb Hexec.
  exec_cases Hexec Go_started; simpl;
    repeat match goal with
           | Hr : Cache.reader s = _ |- _ => rewrite Hr in Hwf
           | Hl : Cache.inflight s !! _ = Some _ |- _ =>
               apply lookup_length_pos in Hl; destruct Hl as [-> ?]
           end;
    simpl in *; rewrite ?length_app; simpl; lia.
Qed.

(** Once the reader has returned, nothing is read any more. *)
Lemma exec_after_return l s s' :
  Cache.reader s = Cache.Returned ->
  Cache.exec h l s = Some s' ->
  Cache.reader s' = Cache.Returned /\ Cache.input s' = Cache.input s.
Proof.
  intros Hr Hexec. exec_cases Hexec Go_started; simpl; try congruence; auto.
Qed.

(** The first error stays. *)
Lemma exec_firstErr l s s' e :
  errgroup.firstErr (Cache.group s) = Some e ->
  Cache.exec h l s = Some s' ->
  errgroup.firstErr (Cache.group s') = Some e.
Proof.
  intros He Hexec. exec_cases Hexec Go_started; simpl; try rewrite He; congruence.
Qed.

Lemma exec_all_invariant (I : Cache.session -> Prop) :
  (forall l s s', I s -> Cache.exec h l s = Some s' -> I s') ->
  forall ls s s', I s -> Cache.exec_all h ls s = Some s' -> I s'.
Proof.
  intros Hstep ls. induction ls as [| l ls IH]; intros s s' Hs; simpl.
  - now intros [= <-].
  - destruct (Cache.exec h l s) as [s1 |] eqn:Hexec; [| discriminate].
    apply IH. eapply Hstep; eauto.
Qed.

Lemma reaches_invariant (I : Cache.session -> Prop) :
  (forall l s s', I s -> Cache.exec h l s = Some s' -> I s') ->
  forall s s', I s -> Cache.reaches h s s' -> I s'.
Proof. intros Hstep s s' Hs [ls Hls]. eapply exec_all_invariant; eauto. Qed.

Lemma reaches_well_formed s s' :
  Cache.well_formed s -> Cache.reaches h s s' -> Cache.well_formed s'.
Proof.
  apply reaches_invariant. intros l s1 s2. apply exec_well_formed.
Qed.

Lemma reaches_after_return s s' :
  Cache.reader s = Cache.Returned ->
  Cache.reaches h s s' ->
  Cache.reader s' = Cache.Returned /\ Cache.input s' = Cache.input s.
Proof.
  intros Hr.
  apply (reaches_invariant
           (fun x => Cache.reader x = Cache.Returned
                     /\ Cache.input x = Cache.input s)); [| auto].
  intros l s1 s2 [Hr1 Hi1] Hexec.
  destruct (exec_after_return _ _ _ Hr1 Hexec) as [Hr2 Hi2].
  split; congruence.
Qed.

Lemma reaches_firstErr s s' e :
  errgroup.firstErr (Cache.group s) = Some e ->
  Cache.reaches h s s' ->
  errgroup.firstErr (Cache.group s') = Some e.
Proof.
  apply (reaches_invariant
           (fun x => errgroup.firstErr (Cache.group x) = Some e)).
  intros l s1 s2 He. now apply exec_firstErr.
Qed.

(** When [Run] returns, it returns the first error of the group, and no
    worker is left. *)
Lemma Run_result_inv s r :
  Cache.Run_result s = Some r ->
  r = errgroup.firstErr (Cache.group s)
  /\ Cache.inflight s = [] /\ Cache.reader s = Cache.Returned.
Proof.
  unfold Cache.Run_result, errgroup.Wait.
  destruct (Cache.reader s); try discriminate.
  destruct (Cache.inflight s); [| discriminate].
  destruct (errgroup.active (Cache.group s)); [| discriminate].
  intros [= <-]. auto.
Qed.

(** After the reader has returned, the workers in flight end one after the
    other, and [Run] returns. *)
Lemma drain n : forall s,
  length (Cache.inflight s) = n ->
  Cache.well_formed s ->
  Cache.reader s = Cache.Returned ->
  exists s',
    Cache.exec_all h (repeat (Cache.LEnd 0) n) s = Some s'
    /\ Cache.Run_result s' = Some (errgroup.firstErr (Cache.group s')).
Proof.
  induction n as [| n IH]; intros s Hlen Hwf Hr.
  - exists s. split; [reflexivity |].
    unfold Cache.Run_result, errgroup.Wait. rewrite Hr.
    destruct (Cache.inflight s) eqn:Hin; [| discriminate].
    unfold Cache.well_formed in Hwf. rewrite Hr, Hin in Hwf. simpl in Hwf.
    now rewrite Hwf.
  - destruct (Cache.inflight s) as [| t ts] eqn:Hin; [discriminate |].
    assert (Hexec : exists s1, Cache.exec h (Cache.LEnd 0) s = Some s1
                               /\ Cache.inflight s1 = ts).
    { unfold Cache.exec. rewrite Hr, Hin. simpl.
      destruct (Cache.run_task h t (Cache.env s) (Cache.output s)) as [[e w'] out'].
      eexists. split; reflexivity. }
    destruct Hexec as (s1 & Hexec & Hin1).
    destruct (exec_after_return _ _ _ Hr Hexec) as [Hr1 _].
    destruct (IH s1) as (s' & Hall & Hres).
    + rewrite Hin1. simpl in Hlen. lia.
    + eapply exec_well_formed; eauto.
    + exact Hr1.
    + exists s'. split; [| exact Hres].
      cbn [repeat Cache.exec_all]. now rewrite Hexec.
Qed.

Lemma Run_returns s :
  Cache.well_formed s ->
  Cache.reader s = Cache.Returned ->
  exists s', Cache.reaches h s s'
             /\ Cache.Run_result s' = Some (errgroup.firstErr (Cache.group s')).
Proof.
  intros Hwf Hr.
  destruct (drain _ s eq_refl Hwf Hr) as (s' & Hall & Hres).
  exists s'. split; [eexists; exact Hall | exact Hres].
Qed.

(** C5: when the reader is at a [put] whose [BodySize] is positive and whose
    payload decodes to another length, its turn ends the reader with an
    error: no worker is started and nothing is written for the request;
    nothing is read from the stream afterwards; [Run] returns, and whenever
    it returns it returns an error. *)
Theorem put_size_mismatch_aborts_session s req frames body rest :
  Cache.well_formed s ->
  Cache.reader s = Cache.Reading ->
  Cache.input s = Cache.FRequest req :: frames ->
  Req.Command req = "put" ->
  Req.BodySize req > 0 ->
  Cache.Decode_bytes frames = (Ok body, rest) ->
  Z.of_nat (length body) <> Req.BodySize req ->
  exists s',
    Cache.exec h Cache.LRead s = Some s'
    /\ Cache.reader s' = Cache.Returned
    /\ errgroup.firstErr (Cache.group s') <> None
    /\ Cache.inflight s' = Cache.inflight s
    /\ Cache.output s' = Cache.output s
    /\ Cache.env s' = Cache.env s
    /\ (forall s'', Cache.reaches h s' s'' ->
         Cache.input s'' = Cache.input s'
         /\ forall r, Cache.Run_result s'' = Some r -> r <> None)
    /\ (exists s'' e, Cache.reaches h s' s''
                      /\ Cache.Run_result s'' = Some (Some e)).
Proof.
  intros Hwf Hr Hin Hc Hpos Hdec Hne.
  destruct (reader_put_size_mismatch req frames body rest Hc Hpos Hdec Hne)
    as (e & rest' & Hiter).
  assert (Hexec : Cache.exec h Cache.LRead s
                  = Some {| Cache.input := rest'; Cache.reader := Cache.Returned;
                            Cache.inflight := Cache.inflight s;
                            Cache.env := Cache.env s;
                            Cache.output := Cache.output s;
                            Cache.group :=
                              errgroup.task_returns (Cache.group s) (Some e);
                            Cache.trace := Cache.trace s |}).
  { unfold Cache.exec. now rewrite Hr, Hin, Hiter. }
  eexists. split; [exact Hexec |].
  set (s' := {| Cache.input := rest' |}) in *.
  assert (Herr : exists e', errgroup.firstErr (Cache.group s') = Some e').
  { simpl. destruct (errgroup.firstErr (Cache.group s)); eauto. }
  destruct Herr as [e' He'].
  assert (Hwf' : Cache.well_formed s') by (eapply exec_well_formed; eauto).
  repeat split; try reflexivity.
  - congruence.
  - now apply (reaches_after_return s' s'').
  - intros r Hres. apply Run_result_inv in Hres as [-> _].
    rewrite (reaches_firstErr s' s'' e' He'); [discriminate | assumption].
  - destruct (Run_returns s' Hwf' eq_refl) as (s'' & Hreach & Hres).
    exists s'', e'. split; [exact Hreach |].
    now rewrite Hres, (reaches_firstErr s' s'' e' He').
Qed.

(** C8: in every state that a session with a worker budget [workers h >= 0]
    reaches, at most [workers h] workers are in flight; the group has
    [workers h + 1] slots, held by the reader and by the workers in flight. *)
Theorem bounded_concurrency input out w s0 s :
  0 <= Cache.workers h ->
  Cache.Run_start h input out w = Ok s0 ->
  Cache.reaches h s0 s ->
  Z.of_nat (length (Cache.inflight s)) <= Cache.workers h
  /\ errgroup.limit (Cache.group s) = Cache.workers h + 1
  /\ errgroup.active (Cache.group s)
     = (Cache.reader_slots (Cache.reader s) + length (Cache.inflight s))%nat.
Proof.
  intros Hn Hstart Hreach.
  cut (Cache.well_formed s
       /\ errgroup.limit (Cache.group s) = Cache.workers h + 1
       /\ Z.of_nat (length (Cache.inflight s)) < errgroup.limit (Cache.group s)).
  { unfold Cache.well_formed. intros (Hwf & Hlim & Hlt). repeat split; auto. lia. }
  revert Hreach.
  apply (reaches_invariant
           (fun x => Cache.well_formed x
                     /\ errgroup.limit (Cache.group x) = Cache.workers h + 1
                     /\ Z.of_nat (length (Cache.inflight x))
                        < errgroup.limit (Cache.group x))).
  - intros l s1 s2 (Hwf & Hlim & Hlt) Hexec. split; [| split].
    + eapply exec_well_formed; eauto.
    + now rewrite (exec_limit _ _ _ Hexec).
    + eapply exec_inflight_bound; eauto.
  - unfold Cache.Run_start in Hstart.
    destruct (Cache.write out _) as [[e |] out']; [discriminate |].
    injection Hstart as <-. unfold Cache.well_formed. simpl. repeat split. lia.
Qed.

(** In a saturated group, [g.Go] of a further worker does not go through. *)
Lemma spawn_blocks_when_saturated s t :
  Cache.well_formed s ->
  Cache.reader s = Cache.Spawning t ->
  errgroup.firstErr (Cache.group s) = None ->
  errgroup.limit (Cache.group s) = Cache.workers h + 1 ->
  Z.of_nat (length (Cache.inflight s)) = Cache.workers h ->
  Cache.exec h Cache.LSpawn s = None.
Proof.
  unfold Cache.well_formed. intros Hwf Hr He Hlim Hlen.
  unfold Cache.exec, errgroup.Go. rewrite Hr, He, Hwf, Hr, Hlim.
  assert (Hge : (Z.of_nat (Cache.reader_slots (Cache.Spawning t)
                           + length (Cache.inflight s))
                 <? Cache.workers h + 1) = false)
    by (apply Z.ltb_ge; simpl; lia).
  now rewrite Hge.
Qed.

(** C2 (as amended): when the reader is at a [close], its turn calls [Close]
    of the provider at once, whichever workers are in flight, and ends the
    reader; nothing is read afterwards; [Run] returns, and when it returns no
    worker is left and its result is the first error of the group: an error
    observed before, else the result of [Close], else the first error of a
    worker that ended later. *)
Theorem close_is_called_at_once s req rest :
  Cache.well_formed s ->
  Cache.reader s = Cache.Reading ->
  Cache.input s = Cache.FRequest req :: rest ->
  Req.Command req = "close" ->
  exists s',
    Cache.exec h Cache.LRead s = Some s'
    /\ Cache.env s' = snd (Cache.Close (Cache.provider h) (Cache.env s))
    /\ Cache.trace s'
       = (Cache.trace s
          ++ [Cache.EvClose (Cache.inflight s)
                (fst (Cache.Close (Cache.provider h) (Cache.env s)))])%list
    /\ Cache.inflight s' = Cache.inflight s
    /\ Cache.reader s' = Cache.Returned
    /\ Cache.input s' = rest
    /\ errgroup.firstErr (Cache.group s')
       = match errgroup.firstErr (Cache.group s) with
         | Some e => Some e
         | None => fst (Cache.Close (Cache.provider h) (Cache.env s))
         end
    /\ (forall s'', Cache.reaches h s' s'' ->
         Cache.input s'' = rest
         /\ Cache.reader s'' = Cache.Returned
         /\ forall r, Cache.Run_result s'' = Some r ->
              Cache.inflight s'' = []
              /\ r = errgroup.firstErr (Cache.group s'')
              /\ (forall e, errgroup.firstErr (Cache.group s') = Some e ->
                            r = Some e))
    /\ (exists s'' r, Cache.reaches h s' s'' /\ Cache.Run_result s'' = Some r).
Proof.
  intros Hwf Hr Hin Hc.
  assert (Hiter : Cache.reader_iter (Cache.FRequest req :: rest)
                  = (Cache.DoClose (Cache.with_Body req None), rest)).
  { unfold Cache.reader_iter. cbn -[String.eqb]. now rewrite Hc. }
  destruct (Cache.Close (Cache.provider h) (Cache.env s)) as [err w'] eqn:Hclose.
  assert (Hexec : Cache.exec h Cache.LRead s
                  = Some {| Cache.input := rest; Cache.reader := Cache.Returned;
                            Cache.inflight := Cache.inflight s;
                            Cache.env := w';
                            Cache.output := Cache.output s;
                            Cache.group :=
                              errgroup.task_returns
                                (errgroup.Done (Cache.group s)) err;
                            Cache.trace :=
                              (Cache.trace s
                               ++ [Cache.EvClose (Cache.inflight s) err])%list |}).
  { unfold Cache.exec. rewrite Hr, Hin, Hiter.
    unfold Cache.handleClose. now rewrite Hclose. }
  eexists. split; [exact Hexec |].
  set (s' := {| Cache.input := rest |}) in *.
  assert (Hwf' : Cache.well_formed s') by (eapply exec_well_formed; eauto).
  repeat (split; [reflexivity |]).
  split.
  - intros s'' Hreach.
    destruct (reaches_after_return s' s'' eq_refl Hreach) as [Hr'' Hin''].
    split; [exact Hin'' |]. split; [exact Hr'' |].
    intros r Hres. apply Run_result_inv in Hres as (-> & Hnil & _).
    repeat split; [exact Hnil |].
    intros e He. now apply (reaches_firstErr s' s'' e He).
  - destruct (Run_returns s' Hwf' eq_refl) as (s'' & Hreach & Hres). eauto.
Qed.

(** C9: when the provider reports a hit whose object id is not well-formed
    hexadecimal, [handleGet] returns an error and no response.  The worker
    that handles the request writes nothing and ends with that error, the
    group records an error, and whenever [Run] returns afterwards it returns
    an error. *)
Theorem handleGet_non_hex_is_error req w pid diskpath w' :
  Cache.Get (Cache.provider h) (Cache.enc (Req.ActionID req)) w
  = ((pid, diskpath, None), w') ->
  is_hex_string pid = false ->
  exists e,
    Cache.handleGet h req w = ((None, Some e), w')
    /\ forall s i,
         Cache.inflight s !! i = Some (Cache.TaskGet req) ->
         Cache.env s = w ->
         exists s',
           Cache.exec h (Cache.LEnd i) s = Some s'
           /\ Cache.output s' = Cache.output s
           /\ Cache.trace s' = (Cache.trace s
                                ++ [Cache.EvEnd (Cache.TaskGet req) (Some e)])%list
           /\ errgroup.firstErr (Cache.group s') <> None
           /\ forall s'' r, Cache.reaches h s' s'' ->
                            Cache.Run_result s'' = Some r -> r <> None.
Proof.
  intros Hget Hhex.
  destruct (DecodeString_not_hex pid Hhex) as [e He].
  assert (Hne : String.eqb pid "" = false).
  { destruct (String.eqb_spec pid "") as [-> |]; [discriminate | reflexivity]. }
  assert (Hh : Cache.handleGet h req w = ((None, Some e), w')).
  { unfold Cache.handleGet. rewrite Hget, Hne. simpl andb.
    unfold Cache.dec. destruct (DecodeString pid) as [out err].
    simpl in He. now rewrite He. }
  exists e. split; [exact Hh |].
  intros s i Hi Henv.
  assert (Htask : Cache.run_task h (Cache.TaskGet req) (Cache.env s) (Cache.output s)
                  = (Some e, w', Cache.output s)).
  { unfold Cache.run_task. now rewrite Henv, Hh. }
  assert (Hexec : exists s', Cache.exec h (Cache.LEnd i) s = Some s'
                  /\ Cache.output s' = Cache.output s
                  /\ Cache.trace s' = (Cache.trace s
                                ++ [Cache.EvEnd (Cache.TaskGet req) (Some e)])%list
                  /\ errgroup.firstErr (Cache.group s')
                     = match errgroup.firstErr (Cache.group s) with
                       | Some e0 => Some e0
                       | None => Some e
                       end).
  { unfold Cache.exec. rewrite Hi, Htask.
    destruct (Cache.reader s); eexists; repeat split; reflexivity. }
  destruct Hexec as (s' & Hexec & Hout & Htr & Herr).
  exists s'. repeat (split; [assumption |]).
  assert (Hsome : exists e', errgroup.firstErr (Cache.group s') = Some e').
  { rewrite Herr. destruct (errgroup.firstErr (Cache.group s)); eauto. }
  destruct Hsome as [e' He'].
  split; [congruence |].
  intros s'' r Hreach Hres. apply Run_result_inv in Hres as [-> _].
  rewrite (reaches_firstErr s' s'' e' He' Hreach). discriminate.
Qed.

End SessionProperties.

(** ** The properties on concrete sessions *)

Lemma ex_start_initial input : ex_start input = Ok (ex_initial input).
Proof. reflexivity. Qed.

Lemma ex_initial_reading input :
  Cache.exec ex_handler Cache.LAdmit (ex_initial input) = Some (ex_reading input).
Proof. reflexivity. Qed.

Lemma handleGet_non_hex_is_error_witness :
  exists e,
    Cache.handleGet ex_handler get_request non_hex_world
    = ((None, Some e), non_hex_world).
Proof.
  destruct (handleGet_non_hex_is_error ex_handler get_request non_hex_world
              "zz" "/tmp/go-cache/object/zz" non_hex_world)
    as (e & Hh & _).
  - vm_compute. reflexivity.
  - reflexivity.
  - exists e. exact Hh.
Defined.

(** The error is the one of [hex.DecodeString]. *)
Lemma handleGet_non_hex_example :
  Cache.handleGet ex_handler get_request non_hex_world
  = ((None, Some (ErrHexInvalidByte "z")), non_hex_world).
Proof. vm_compute. reflexivity. Qed.

(** C6, the code at a [put] without action id: the reader returns no error,
    it gives the request to a worker.  With the local store the worker then
    fails on the marker file, whose path is the directory of the markers,
    after it has written the object file. *)
Lemma reader_dispatches_put_without_action :
  Cache.reader_iter [Cache.FRequest put_without_action]
  = (Cache.Go (Cache.TaskPut
                 (Cache.with_Body put_without_action (Some (bytes_NewReader [])))),
     [])
  /\ (let '(err, w, out) :=
        Cache.run_task ex_handler
          (Cache.TaskPut
             (Cache.with_Body put_without_action (Some (bytes_NewReader []))))
          ex_world ex_out in
      err = Some ErrIsDir
      /\ os_ReadFile (disk w) "/tmp/go-cache/object/62" = Ok []
      /\ out = ex_out).
Proof. split; [reflexivity |]. vm_compute. repeat split; reflexivity. Qed.

Lemma put_size_mismatch_aborts_session_witness :
  exists s',
    Cache.exec ex_handler Cache.LRead
      (ex_reading [Cache.FRequest put_request_10;
                   Cache.FBytes [x01; x02; x03; x04; x05; x06; x07; x08; x09];
                   Cache.FRequest get_request])
    = Some s'
    /\ Cache.reader s' = Cache.Returned
    /\ errgroup.firstErr (Cache.group s') <> None.
Proof.
  destruct (put_size_mismatch_aborts_session ex_handler
              (ex_reading [Cache.FRequest put_request_10;
                           Cache.FBytes [x01; x02; x03; x04; x05; x06; x07; x08; x09];
                           Cache.FRequest get_request])
              put_request_10
              [Cache.FBytes [x01; x02; x03; x04; x05; x06; x07; x08; x09];
               Cache.FRequest get_request]
              [x01; x02; x03; x04; x05; x06; x07; x08; x09]
              [Cache.FRequest get_request])
    as (s' & Hexec & Hr & He & _).
  - reflexivity.
  - reflexivity.
  - reflexivity.
  - reflexivity.
  - reflexivity.
  - reflexivity.
  - simpl. lia.
  - exists s'. auto.
Defined.

Lemma bounded_concurrency_witness :
  Z.of_nat (length (Cache.inflight busy_run)) <= 2
  /\ errgroup.limit (Cache.group busy_run) = 2 + 1
  /\ errgroup.active (Cache.group busy_run)
     = (Cache.reader_slots (Cache.reader busy_run)
        + length (Cache.inflight busy_run))%nat.
Proof.
  apply (bounded_concurrency ex_handler
           [Cache.FRequest get_request; Cache.FRequest get_request;
            Cache.FRequest get_request]
           ex_out ex_world
           (ex_initial [Cache.FRequest get_request; Cache.FRequest get_request;
                        Cache.FRequest get_request])
           busy_run).
  - simpl. lia.
  - reflexivity.
  - exists [Cache.LAdmit; Cache.LRead; Cache.LSpawn; Cache.LRead; Cache.LSpawn;
            Cache.LRead].
    vm_compute. reflexivity.
Defined.

(** In [busy_run] both workers are in flight and the third [g.Go] waits. *)
Lemma busy_run_saturated :
  length (Cache.inflight busy_run) = 2%nat
  /\ Cache.reader busy_run = Cache.Spawning (Cache.TaskGet get_request)
  /\ Cache.exec ex_handler Cache.LSpawn busy_run = None.
Proof. vm_compute. repeat split; reflexivity. Qed.

(** C2, the claim as it stands fails: with a [get] in flight, the reader's
    turn on [close] calls [Close] of the provider while the worker has not
    ended. *)
Lemma close_while_worker_in_flight :
  match close_run with
  | Some s =>
      Cache.inflight s = [Cache.TaskGet get_request]
      /\ Cache.trace s
         = [Cache.EvStart (Cache.TaskGet get_request);
            Cache.EvClose [Cache.TaskGet get_request] None]
      /\ Cache.close_after_workers (Cache.trace s) = false
  | None => False
  end.
Proof. vm_compute. repeat split; reflexivity. Qed.

Lemma close_is_called_at_once_witness :
  exists s',
    Cache.exec ex_handler Cache.LRead (ex_reading [Cache.FRequest close_request])
    = Some s'
    /\ Cache.reader s' = Cache.Returned
    /\ Cache.trace s' = [Cache.EvClose [] None].
Proof.
  destruct (close_is_called_at_once ex_handler
              (ex_reading [Cache.FRequest close_request]) close_request [])
    as (s' & Hexec & _ & Htrace & _ & Hr & _).
  - reflexivity.
  - reflexivity.
  - reflexivity.
  - reflexivity.
  - exists s'. auto.
Defined.

(** ** Paths of hexadecimal keys *)

Lemma split_slash_cons_case c s :
  split_slash (String c s)
  = if Ascii.eqb c "/" then "" :: split_slash s
    else match split_slash s with
         | x :: xs => String c x :: xs
         | [] => [String c ""]
         end.
Proof. reflexivity. Qed.

Lemma split_slash_simple c : contains "/" c = false -> split_slash c = [c].
Proof.
  induction c as [| x c IH]; intros Hc; [reflexivity |].
  simpl in Hc. apply orb_false_iff in Hc as [Hx Hc].
  rewrite split_slash_cons_case, Hx, (IH Hc). reflexivity.
Qed.

Lemma split_slash_not_nil s : split_slash s <> [].
Proof.
  destruct s as [| c s]; [discriminate |].
  rewrite split_slash_cons_case.
  destruct (Ascii.eqb c "/"); [discriminate |].
  destruct (split_slash s); discriminate.
Qed.

Lemma split_slash_app x y :
  split_slash (x ++ String "/" y) = (split_slash x ++ split_slash y)%list.
Proof.
  induction x as [| c x IH].
  - reflexivity.
  - rewrite append_cons, !split_slash_cons_case, IH.
    destruct (Ascii.eqb c "/"); [reflexivity |].
    pose proof (split_slash_not_nil x).
    destruct (split_slash x); [contradiction | reflexivity].
Qed.

Lemma split_slash_no_slash s : Forall (fun c => contains "/" c = false) (split_slash s).
Proof.
  induction s as [| c s IH]; [repeat constructor |].
  rewrite split_slash_cons_case.
  destruct (Ascii.eqb c "/") eqn:Hc; [constructor; [reflexivity | exact IH] |].
  destruct (split_slash s) as [| x xs]; [repeat constructor; simpl; now rewrite Hc |].
  inversion IH; subst. constructor; [| assumption].
  simpl. now rewrite Hc.
Qed.

Lemma concat_cons2 (x y : string) (l : list string) :
  String.concat "/" (x :: y :: l) = (x ++ String "/" (String.concat "/" (y :: l)))%string.
Proof. reflexivity. Qed.

Lemma split_slash_concat cs :
  Forall (fun c => contains "/" c = false) cs ->
  cs <> [] ->
  split_slash (String.concat "/" cs) = cs.
Proof.
  induction cs as [| x cs IH]; intros Hall Hne; [congruence |].
  inversion Hall as [| ? ? Hx Hcs]; subst.
  destruct cs as [| y cs].
  - simpl. now apply split_slash_simple.
  - rewrite concat_cons2, split_slash_app, (split_slash_simple x Hx), IH;
      [reflexivity | assumption | discriminate].
Qed.

Lemma clean_step_simple rooted stack c :
  simple c -> clean_step rooted stack c = push c stack.
Proof.
  intros (_ & Hdot & Hdd). unfold clean_step, push.
  destruct (String.eqb_spec c ""); [reflexivity |].
  destruct (String.eqb_spec c "."); [contradiction |].
  destruct (String.eqb_spec c ".."); [contradiction | reflexivity].
Qed.

Lemma clean_step_proper stack c :
  contains "/" c = false ->
  Forall proper stack -> Forall proper (clean_step true stack c).
Proof.
  intros Hc Hst. unfold clean_step.
  destruct (String.eqb_spec c ""); [exact Hst |].
  destruct (String.eqb_spec c "."); [exact Hst |].
  destruct (String.eqb_spec c "..").
  - destruct stack as [| top rest]; [constructor |].
    inversion Hst as [| ? ? Htop Hrest]; subst.
    destruct (String.eqb_spec top ".."); [| exact Hrest].
    destruct Htop as [(_ & _ & Hdd) _]. contradiction.
  - constructor; [| exact Hst]. repeat split; assumption.
Qed.

Lemma clean_fold_proper cs : forall stack,
  Forall (fun c => contains "/" c = false) cs ->
  Forall proper stack ->
  Forall proper (fold_left (clean_step true) cs stack).
Proof.
  induction cs as [| c cs IH]; intros stack Hcs Hst; [exact Hst |].
  inversion Hcs; subst. simpl. apply IH; [assumption |].
  now apply clean_step_proper.
Qed.

Lemma clean_fold_id cs : forall stack,
  Forall proper cs ->
  fold_left (clean_step true) cs stack = (rev cs ++ stack)%list.
Proof.
  induction cs as [| c cs IH]; intros stack Hcs; [reflexivity |].
  inversion Hcs as [| ? ? [Hs Hne] Hrest]; subst. simpl.
  rewrite (clean_step_simple _ _ _ Hs). unfold push.
  destruct (String.eqb_spec c ""); [contradiction |].
  rewrite (IH _ Hrest), <- app_assoc. reflexivity.
Qed.

Lemma Clean_abs path :
  IsAbs path = true ->
  Clean path = render (clean_comps true (split_slash path)).
Proof.
  intros Habs. unfold Clean. destruct path; [discriminate |]. now rewrite Habs.
Qed.

Lemma IsAbs_render cs : IsAbs (render cs) = true.
Proof. reflexivity. Qed.

Lemma split_slash_render cs :
  Forall proper cs ->
  fold_left (clean_step true) (split_slash (render cs)) [] = rev cs.
Proof.
  intros Hcs. unfold render.
  change ("/" ++ String.concat "/" cs)%string
    with ("" ++ String "/" (String.concat "/" cs))%string.
  rewrite split_slash_app. simpl split_slash. rewrite fold_left_app.
  simpl fold_left at 2. unfold clean_step at 2. simpl orb.
  destruct cs as [| c cs]; [reflexivity |].
  rewrite split_slash_concat; [| | discriminate].
  - rewrite (clean_fold_id _ _ Hcs). apply app_nil_r.
  - eapply Forall_impl; [exact Hcs |]. intros x [[Hx _] _]. exact Hx.
Qed.

(** [Clean] leaves a cleaned absolute path as it is. *)
Lemma Clean_render cs : Forall proper cs -> Clean (render cs) = render cs.
Proof.
  intros Hcs. rewrite Clean_abs by reflexivity.
  unfold clean_comps. now rewrite split_slash_render, rev_involutive.
Qed.

Lemma clean_step_no_slash rooted stack c :
  contains "/" c = false ->
  Forall (fun x => contains "/" x = false) stack ->
  Forall (fun x => contains "/" x = false) (clean_step rooted stack c).
Proof.
  intros Hc Hst. unfold clean_step.
  destruct (String.eqb c "" || String.eqb c "."); [exact Hst |].
  destruct (String.eqb c "..").
  - destruct stack as [| top rest].
    + destruct rooted; repeat constructor; exact Hc.
    + destruct (String.eqb top ".."); [constructor; assumption |].
      now inversion Hst.
  - constructor; assumption.
Qed.

Lemma clean_fold_no_slash rooted cs : forall stack,
  Forall (fun x => contains "/" x = false) cs ->
  Forall (fun x => contains "/" x = false) stack ->
  Forall (fun x => contains "/" x = false) (fold_left (clean_step rooted) cs stack).
Proof.
  induction cs as [| c cs IH]; intros stack Hcs Hst; [exact Hst |].
  inversion Hcs; subst. simpl. apply IH; [assumption |].
  now apply clean_step_no_slash.
Qed.

Lemma stack_of_proper path : Forall proper (stack_of true path).
Proof.
  apply clean_fold_proper; [apply split_slash_no_slash | constructor].
Qed.

Lemma base_stack_proper fs cacheDir : Forall proper (base_stack fs cacheDir).
Proof.
  unfold base_stack. destruct (IsAbs cacheDir); [apply stack_of_proper |].
  apply clean_fold_proper; [| apply stack_of_proper].
  apply Forall_rev, clean_fold_no_slash;
    [apply split_slash_no_slash | constructor].
Qed.

Lemma push_proper n mid stack :
  simple mid -> mid <> "" -> simple n ->
  Forall proper stack -> Forall proper (push n (mid :: stack)).
Proof.
  intros Hmid Hne Hn Hst. unfold push.
  destruct (String.eqb_spec n "").
  - constructor; [split; assumption | exact Hst].
  - constructor; [split; assumption |].
    constructor; [split; assumption | exact Hst].
Qed.

Lemma fold_push rooted stack mid n :
  simple mid -> mid <> "" -> simple n ->
  fold_left (clean_step rooted) [mid; n] stack = push n (mid :: stack).
Proof.
  intros Hmid Hne Hn. simpl.
  rewrite (clean_step_simple _ _ _ Hmid), (clean_step_simple _ _ _ Hn).
  unfold push at 2. destruct (String.eqb_spec mid ""); [contradiction | reflexivity].
Qed.

Lemma IsAbs_app x y : x <> "" -> IsAbs (x ++ y) = IsAbs x.
Proof. destruct x; [congruence | reflexivity]. Qed.

Lemma IsAbs_no_slash x : contains "/" x = false -> IsAbs x = false.
Proof.
  destruct x as [| c x]; [reflexivity |]. simpl.
  intros Hc. now apply orb_false_iff in Hc as [-> _].
Qed.

Lemma IsAbs_concat x l :
  x <> "" -> contains "/" x = false -> IsAbs (String.concat "/" (x :: l)) = false.
Proof.
  intros Hne Hx. destruct l as [| y l]; simpl String.concat.
  - now apply IsAbs_no_slash.
  - rewrite IsAbs_app by exact Hne. now apply IsAbs_no_slash.
Qed.

(** The stack that [Clean] builds for [cacheDir/mid/n]. *)
Lemma stack_of_joined rooted cacheDir mid n :
  simple mid -> mid <> "" -> simple n ->
  fold_left (clean_step rooted)
            (split_slash (cacheDir ++ String "/" (mid ++ String "/" n))) []
  = push n (mid :: stack_of rooted cacheDir).
Proof.
  intros Hmid Hne Hn.
  rewrite !split_slash_app, fold_left_app.
  rewrite (split_slash_simple mid), (split_slash_simple n);
    [| apply Hn | apply Hmid].
  now apply fold_push.
Qed.

Lemma Join_three cacheDir mid n :
  mid <> "" ->
  Join [cacheDir; mid; n]
  = if String.eqb cacheDir "" then Clean (mid ++ String "/" n)
    else Clean (cacheDir ++ String "/" (mid ++ String "/" n)).
Proof.
  intros Hne. simpl Join.
  destruct (String.eqb_spec cacheDir ""); [| reflexivity].
  destruct (String.eqb_spec mid ""); [contradiction | reflexivity].
Qed.

Lemma Join_two a b : a <> "" -> Join [a; b] = Clean (a ++ String "/" b).
Proof.
  intros Ha. unfold Join. destruct (String.eqb_spec a ""); [contradiction |].
  reflexivity.
Qed.

Lemma rev_push n mid stack :
  rev (push n (mid :: stack))
  = (rev stack ++ mid :: (if String.eqb n "" then [] else [n]))%list.
Proof.
  unfold push. destruct (String.eqb n ""); simpl;
    rewrite <- ?app_assoc; reflexivity.
Qed.

Lemma fold_tail rooted stack mid n :
  simple mid -> mid <> "" -> simple n ->
  fold_left (clean_step rooted)
            (mid :: (if String.eqb n "" then [] else [n])) stack
  = push n (mid :: stack).
Proof.
  intros Hmid Hne Hn. rewrite <- (fold_push rooted stack mid n Hmid Hne Hn).
  destruct (String.eqb_spec n "") as [-> |]; reflexivity.
Qed.

Lemma stack_no_slash rooted path :
  Forall (fun x => contains "/" x = false) (stack_of rooted path).
Proof.
  apply clean_fold_no_slash; [apply split_slash_no_slash | constructor].
Qed.

Lemma stack_nonempty rooted path :
  Forall (fun x => x <> "") (stack_of rooted path).
Proof. apply clean_fold_nonempty. constructor. Qed.

(** [Clean] of [cacheDir/mid/n] for an absolute and for a relative cache
    directory. *)
Lemma Clean_joined_abs cacheDir mid n :
  IsAbs cacheDir = true ->
  simple mid -> mid <> "" -> simple n ->
  Clean (cacheDir ++ String "/" (mid ++ String "/" n))
  = render (rev (push n (mid :: stack_of true cacheDir))).
Proof.
  intros Habs Hmid Hne Hn.
  assert (Hcd : cacheDir <> "") by (destruct cacheDir; [discriminate | congruence]).
  rewrite Clean_abs by (now rewrite IsAbs_app).
  unfold clean_comps. now rewrite stack_of_joined.
Qed.

Lemma Clean_joined_rel cacheDir mid n :
  IsAbs cacheDir = false ->
  simple mid -> mid <> "" -> simple n ->
  (if String.eqb cacheDir "" then Clean (mid ++ String "/" n)
   else Clean (cacheDir ++ String "/" (mid ++ String "/" n)))
  = String.concat "/" (rev (push n (mid :: stack_of false cacheDir))).
Proof.
  intros Habs Hmid Hne Hn.
  assert (Hshape : forall St, exists x l, rev (push n (mid :: St)) = x :: l).
  { intros St. rewrite rev_push. destruct (rev St); simpl; eauto. }
  destruct (String.eqb_spec cacheDir "") as [-> | Hcd].
  - unfold Clean.
    destruct (mid ++ String "/" n)%string eqn:Hx;
      [destruct mid; [congruence | discriminate] |].
    rewrite <- Hx. clear Hx.
    rewrite IsAbs_app, (IsAbs_no_slash mid) by (try apply Hmid; exact Hne).
    unfold clean_comps. rewrite split_slash_app, fold_left_app.
    rewrite (split_slash_simple mid), (split_slash_simple n);
      [| apply Hn | apply Hmid].
    change (fold_left (clean_step false) [n] (fold_left (clean_step false) [mid] []))
      with (fold_left (clean_step false) [mid; n] []).
    rewrite (fold_push false [] mid n Hmid Hne Hn).
    destruct (Hshape []) as (x & l & Hrev).
    change (stack_of false "") with (@nil string). now rewrite Hrev.
  - unfold Clean.
    destruct (cacheDir ++ String "/" (mid ++ String "/" n))%string eqn:Hx;
      [destruct cacheDir; [congruence | discriminate] |].
    rewrite <- Hx. clear Hx.
    rewrite IsAbs_app, Habs by exact Hcd.
    unfold clean_comps. rewrite stack_of_joined by assumption.
    destruct (Hshape (stack_of false cacheDir)) as (x & l & Hrev).
    now rewrite Hrev.
Qed.

(** Where the entry [mid/n] of a cache directory is on the disk. *)
Lemma resolve_entry fs cacheDir mid n :
  IsAbs (cwd fs) = true ->
  simple mid -> mid <> "" -> simple n ->
  resolve fs (Join [cacheDir; mid; n])
  = render (rev (push n (mid :: base_stack fs cacheDir))).
Proof.
  intros Hcwd Hmid Hne Hn.
  rewrite (Join_three _ _ _ Hne). unfold base_stack.
  destruct (IsAbs cacheDir) eqn:Habs.
  - assert (Hcd : String.eqb cacheDir "" = false).
    { destruct cacheDir; [discriminate | reflexivity]. }
    rewrite Hcd, (Clean_joined_abs _ _ _ Habs Hmid Hne Hn).
    unfold resolve. rewrite IsAbs_render. apply Clean_render.
    apply Forall_rev, push_proper; try assumption. apply stack_of_proper.
  - rewrite (Clean_joined_rel _ _ _ Habs Hmid Hne Hn).
    set (St := stack_of false cacheDir).
    assert (Hrev : exists x l, rev (push n (mid :: St)) = x :: l
                               /\ x <> "" /\ contains "/" x = false
                               /\ Forall (fun c => contains "/" c = false) (x :: l)).
    { assert (Hall : Forall (fun c => c <> "" /\ contains "/" c = false)
                            (rev (push n (mid :: St)))).
      { apply Forall_rev. unfold push.
        pose proof (stack_no_slash false cacheDir) as Hs1.
        pose proof (stack_nonempty false cacheDir) as Hs2.
        assert (HS : Forall (fun c => c <> "" /\ contains "/" c = false) St).
        { apply Forall_and. split; [exact Hs2 | exact Hs1]. }
        destruct (String.eqb_spec n "").
        - constructor; [split; [exact Hne | apply Hmid] | exact HS].
        - constructor; [split; [assumption | apply Hn] |].
          constructor; [split; [exact Hne | apply Hmid] | exact HS]. }
      destruct (rev (push n (mid :: St))) as [| x l] eqn:Hr.
      - rewrite rev_push in Hr. destruct (rev St); discriminate.
      - exists x, l. inversion Hall as [| ? ? [Hx1 Hx2] Hl]; subst.
        repeat split; try assumption.
        eapply Forall_impl; [exact Hall |]. now intros c [_ Hc]. }
    destruct Hrev as (x & l & Hrev & Hx1 & Hx2 & Hall).
    unfold resolve. rewrite Hrev, (IsAbs_concat x l Hx1 Hx2).
    rewrite Join_two by (destruct (cwd fs); [discriminate | congruence]).
    rewrite Clean_abs.
    2:{ rewrite IsAbs_app; [exact Hcwd |]. destruct (cwd fs); [discriminate | congruence]. }
    unfold clean_comps. rewrite split_slash_app, fold_left_app.
    rewrite split_slash_concat by (try exact Hall; discriminate).
    rewrite <- Hrev, rev_push, fold_left_app.
    now rewrite fold_tail.
Qed.

Lemma all_hex_no_char c n :
  is_hex_char c = false -> all_hex n = true -> contains c n = false.
Proof.
  intros Hc. induction n as [| x n IH]; [reflexivity |].
  simpl. intros Hn. apply andb_true_iff in Hn as [Hx Hn].
  rewrite (IH Hn), orb_false_r.
  destruct (Ascii.eqb_spec x c) as [-> |]; [congruence | reflexivity].
Qed.

(** A string of hexadecimal digits is a plain path component. *)
Lemma all_hex_simple n : all_hex n = true -> simple n.
Proof.
  intros Hn. split; [now apply all_hex_no_char |].
  pose proof (all_hex_no_char "." n eq_refl Hn) as Hdot.
  split; intros ->; discriminate.
Qed.

Lemma Abs_resolve fs path : Abs fs path = Ok (resolve fs path).
Proof. unfold Abs, resolve, os_Getwd. now destruct (IsAbs path). Qed.

Lemma concat_head c x l :
  exists r, String.concat "/" (String c x :: l) = String c r.
Proof. destruct l; simpl; eauto. Qed.

Lemma concat_cons_app p pre x t :
  String.concat "/" (p :: (pre ++ x :: t)%list)
  = (p ++ String "/" (String.concat "/" (pre ++ x :: t)%list))%string.
Proof. destruct pre; reflexivity. Qed.

Lemma concat_action_object pre t1 t2 :
  String.concat "/" (pre ++ "action" :: t1)%list
  <> String.concat "/" (pre ++ "object" :: t2)%list.
Proof.
  induction pre as [| p pre IH].
  - simpl app.
    destruct (concat_head "a" "ction" t1) as [r1 ->].
    destruct (concat_head "o" "bject" t2) as [r2 ->].
    discriminate.
  - simpl app. rewrite !concat_cons_app. intros Heq.
    apply String.app_inj in Heq. injection Heq as Heq. now apply IH.
Qed.

(** For keys made of hexadecimal digits, the marker of an action and the
    file of an object are different files. *)
Lemma hex_marker_object_distinct p fs actionId objectId diskpath :
  IsAbs (cwd fs) = true ->
  all_hex actionId = true ->
  all_hex objectId = true ->
  Abs fs (LocalStore.objPath p objectId) = Ok diskpath ->
  resolve fs (LocalStore.actionPath p actionId) <> resolve fs diskpath.
Proof.
  intros Hcwd Ha Ho Habs.
  rewrite Abs_resolve in Habs. injection Habs as <-.
  assert (Hsa : simple "action") by (repeat split; discriminate).
  assert (Hso : simple "object") by (repeat split; discriminate).
  unfold LocalStore.actionPath, LocalStore.objPath.
  rewrite (resolve_entry fs _ "action" actionId Hcwd Hsa)
    by (try discriminate; now apply all_hex_simple).
  rewrite (resolve_entry fs _ "object" objectId Hcwd Hso)
    by (try discriminate; now apply all_hex_simple).
  unfold resolve at 1. rewrite IsAbs_render, Clean_render.
  - unfold render. rewrite !rev_push. intros Heq.
    injection Heq as Heq. now apply concat_action_object in Heq.
  - apply Forall_rev, push_proper;
      [exact Hso | discriminate | now apply all_hex_simple
       | apply base_stack_proper].
Qed.

(** X3: the round trip for the keys that the engine passes, [enc] of the
    action id and of the output id: after a [Put] without error, [Get] returns
    the key of the object and the path of the [Put], and the file there holds
    the payload. *)
Corollary local_roundtrip_enc_keys p actionID outputID body fs diskpath fs' :
  IsAbs (cwd fs) = true ->
  Z.of_nat (length (rd_data body)) < 2 ^ 63 ->
  LocalStore.Put p (Cache.enc actionID) (Cache.enc outputID) body fs
  = ((diskpath, None), fs') ->
  LocalStore.Get p (Cache.enc actionID) fs' = (Cache.enc outputID, diskpath, None)
  /\ os_ReadFile fs' diskpath = Ok (rd_data body).
Proof.
  intros Hcwd Hsize Hput.
  pose proof (enc_is_hex actionID) as Ha.
  pose proof (enc_is_hex outputID) as Ho.
  unfold is_hex_string in Ha, Ho.
  apply andb_true_iff in Ha as [Ha _]. apply andb_true_iff in Ho as [Ho _].
  assert (Hdiff : resolve fs (LocalStore.actionPath p (Cache.enc actionID))
                  <> resolve fs diskpath).
  { apply hex_marker_object_distinct with (objectId := Cache.enc outputID); auto.
    now destruct (local_Put_ok_inv _ _ _ _ _ _ _ Hput). }
  destruct (local_disk_after_Put _ _ _ _ _ _ _ Hdiff Hput)
    as (Hmarker & Habs & Hread & Hstat).
  split; [| exact Hread].
  assert (Hm : marker_of (Appendf_marker (Cache.enc outputID)
                            (Z.of_nat (length (rd_data body))))
                         (Cache.enc outputID) (Z.of_nat (length (rd_data body)))).
  { apply marker_of_Appendf; [now apply all_hex_no_char | lia]. }
  rewrite (local_Get_marker _ _ _ _ _ _ Hmarker Hm), Habs, Hstat.
  simpl Size. now rewrite Z.eqb_refl.
Qed.

(** * Further properties of the code *)

(** ** [enc] and [dec] *)

Lemma fromHexChar_hextable n : (n < 16)%N -> fromHexChar (hextable n) = Some n.
Proof.
  intros Hn.
  assert (Hcases : In n (map N.of_nat (seq 0 16))).
  { apply in_map_iff. exists (N.to_nat n). split; [apply N2Nat.id |].
    apply in_seq. lia. }
  simpl in Hcases.
  repeat (destruct Hcases as [<- | Hcases]; [reflexivity |]). contradiction.
Qed.

Lemma byte_of_nibbles_to_N x :
  byte_of_nibbles (Byte.to_N x / 16) (Byte.to_N x mod 16) = x.
Proof.
  unfold byte_of_nibbles.
  rewrite <- (N.div_mod' (Byte.to_N x) 16), Byte.of_to_N. reflexivity.
Qed.

Lemma DecodeString_EncodeToString b : DecodeString (EncodeToString b) = (b, None).
Proof.
  induction b as [| x b IH]; [reflexivity |].
  cbn [EncodeToString DecodeString].
  rewrite !fromHexChar_hextable, IH, byte_of_nibbles_to_N; [reflexivity | |].
  - apply N.mod_upper_bound. discriminate.
  - apply N.Div0.div_lt_upper_bound. pose proof (Byte.to_N_bounded x). lia.
Qed.

Lemma EncodeToString_length b :
  String.length (EncodeToString b) = (2 * length b)%nat.
Proof.
  induction b as [| x b IH]; [reflexivity |].
  cbn [EncodeToString String.length length]. rewrite IH. lia.
Qed.

(** X1: [dec] undoes [enc]: decoding the hexadecimal form of a byte string
    gives the bytes back, without error.  So [enc] maps different byte
    strings to different keys, each of twice the length. *)
Theorem enc_dec_roundtrip (b : list byte) :
  Cache.dec (Cache.enc b) = (b, None)
  /\ String.length (Cache.enc b) = (2 * length b)%nat
  /\ forall b', Cache.enc b = Cache.enc b' -> b = b'.
Proof.
  unfold Cache.dec, Cache.enc.
  split; [apply DecodeString_EncodeToString |].
  split; [apply EncodeToString_length |].
  intros b' Heq.
  assert (Hd : fst (DecodeString (EncodeToString b))
               = fst (DecodeString (EncodeToString b'))) by now rewrite Heq.
  now rewrite !DecodeString_EncodeToString in Hd.
Qed.

(** ** Where the keys of the engine lead on the disk *)

Lemma string_length_app (a b : string) :
  String.length (a ++ b) = (String.length a + String.length b)%nat.
Proof.
  induction a as [| c a IH]; [reflexivity |].
  rewrite append_cons. simpl. now rewrite IH.
Qed.

Lemma concat_snoc pre x :
  pre <> [] ->
  String.concat "/" (pre ++ [x])%list
  = (String.concat "/" pre ++ String "/" x)%string.
Proof.
  induction pre as [| p pre IH]; intros Hne; [congruence |].
  destruct pre as [| q pre]; [reflexivity |].
  change ((p :: q :: pre) ++ [x])%list with (p :: ((q :: pre) ++ [x]))%list.
  change (((q :: pre) ++ [x]))%list with (q :: (pre ++ [x]))%list.
  rewrite !concat_cons2.
  change (q :: (pre ++ [x]))%list with ((q :: pre) ++ [x])%list.
  rewrite IH by discriminate. now rewrite append_assoc, append_cons.
Qed.

(** The last component of an entry: none for the empty name. *)
Lemma concat_tail_inj pre n1 n2 :
  pre <> [] ->
  String.concat "/" (pre ++ (if String.eqb n1 "" then [] else [n1]))%list
  = String.concat "/" (pre ++ (if String.eqb n2 "" then [] else [n2]))%list ->
  n1 = n2.
Proof.
  intros Hpre.
  destruct (String.eqb_spec n1 "") as [-> | H1];
    destruct (String.eqb_spec n2 "") as [-> | H2];
    rewrite ?app_nil_r, ?concat_snoc by exact Hpre; intros Heq.
  - reflexivity.
  - apply (f_equal String.length) in Heq.
    rewrite string_length_app in Heq. simpl in Heq. lia.
  - apply (f_equal String.length) in Heq.
    rewrite string_length_app in Heq. simpl in Heq. lia.
  - apply String.app_inj in Heq. now injection Heq.
Qed.

(** Two names in the same directory of the cache lead to the same place only
    when they are the same name. *)
Lemma resolve_entry_inj fs cacheDir mid n1 n2 :
  IsAbs (cwd fs) = true ->
  simple mid -> mid <> "" -> simple n1 -> simple n2 ->
  resolve fs (Join [cacheDir; mid; n1]) = resolve fs (Join [cacheDir; mid; n2]) ->
  n1 = n2.
Proof.
  intros Hcwd Hmid Hne H1 H2.
  rewrite !resolve_entry by assumption.
  unfold render. rewrite !rev_push. intros Heq. injection Heq as Heq.
  change (rev (base_stack fs cacheDir) ++ mid :: ?t)%list
    with (rev (base_stack fs cacheDir) ++ [mid] ++ t)%list in Heq.
  revert Heq.
  change (rev (base_stack fs cacheDir)
          ++ mid :: (if String.eqb n1 "" then [] else [n1]))%list
    with (rev (base_stack fs cacheDir)
          ++ [mid] ++ (if String.eqb n1 "" then [] else [n1]))%list.
  change (rev (base_stack fs cacheDir)
          ++ mid :: (if String.eqb n2 "" then [] else [n2]))%list
    with (rev (base_stack fs cacheDir)
          ++ [mid] ++ (if String.eqb n2 "" then [] else [n2]))%list.
  rewrite !app_assoc. apply concat_tail_inj.
  destruct (rev (base_stack fs cacheDir)); discriminate.
Qed.

(** An entry of the cache and an entry of another directory of the cache are
    different places. *)
Lemma resolve_action_object fs cacheDir a o :
  IsAbs (cwd fs) = true ->
  simple a -> simple o ->
  resolve fs (Join [cacheDir; "action"; a]) <> resolve fs (Join [cacheDir; "object"; o]).
Proof.
  intros Hcwd Ha Ho.
  assert (Hsa : simple "action") by (repeat split; discriminate).
  assert (Hso : simple "object") by (repeat split; discriminate).
  rewrite (resolve_entry fs _ "action" a Hcwd Hsa) by (try discriminate; assumption).
  rewrite (resolve_entry fs _ "object" o Hcwd Hso) by (try discriminate; assumption).
  unfold render. rewrite !rev_push. intros Heq.
  injection Heq as Heq. now apply concat_action_object in Heq.
Qed.

(** The place of an entry is an absolute clean path: resolving it again
    changes nothing. *)
Lemma resolve_entry_idem fs cacheDir mid n :
  IsAbs (cwd fs) = true ->
  simple mid -> mid <> "" -> simple n ->
  resolve fs (resolve fs (Join [cacheDir; mid; n]))
  = resolve fs (Join [cacheDir; mid; n]).
Proof.
  intros Hcwd Hmid Hne Hn.
  rewrite resolve_entry by assumption.
  unfold resolve at 1. rewrite IsAbs_render. apply Clean_render.
  apply Forall_rev, push_proper; try assumption. apply base_stack_proper.
Qed.

Lemma Clean_trailing_slash x : x <> "" -> Clean (x ++ String "/" "") = Clean x.
Proof.
  intros Hx. unfold Clean.
  destruct x as [| c x]; [congruence |].
  rewrite append_cons.
  change (String c (x ++ String "/" "")) with (String c x ++ String "/" "")%string.
  rewrite IsAbs_app by discriminate.
  unfold clean_comps. rewrite split_slash_app, fold_left_app. reflexivity.
Qed.

Lemma Join_two_three cacheDir mid :
  mid <> "" -> Join [cacheDir; mid] = Join [cacheDir; mid; ""].
Proof.
  intros Hne. rewrite (Join_three _ _ _ Hne). unfold Join.
  destruct (String.eqb_spec cacheDir "") as [-> | Hcd].
  - destruct (String.eqb_spec mid ""); [contradiction |].
    simpl String.concat. now rewrite Clean_trailing_slash.
  - simpl String.concat.
    change (cacheDir ++ "/" ++ mid)%string with (cacheDir ++ String "/" mid)%string.
    rewrite <- (Clean_trailing_slash (cacheDir ++ String "/" mid)).
    + now rewrite append_assoc, append_cons.
    + destruct cacheDir; [congruence | discriminate].
Qed.

Lemma simple_empty : simple "".
Proof. repeat split; discriminate. Qed.

Lemma parent_dir_render cs :
  Forall proper cs -> parent_dir (render cs) = render (removelast cs).
Proof.
  intros Hcs. unfold parent_dir, clean_comps.
  now rewrite split_slash_render, rev_involutive.
Qed.

(** The directory of an entry with a name is the directory of the cache that
    the entry belongs to. *)
Lemma parent_dir_entry fs cacheDir mid n :
  IsAbs (cwd fs) = true ->
  simple mid -> mid <> "" -> simple n -> n <> "" ->
  parent_dir (resolve fs (Join [cacheDir; mid; n]))
  = resolve fs (Join [cacheDir; mid]).
Proof.
  intros Hcwd Hmid Hne Hn Hnn.
  rewrite (Join_two_three _ _ Hne).
  rewrite !resolve_entry by (try assumption; apply simple_empty).
  rewrite parent_dir_render.
  - f_equal. unfold push.
    destruct (String.eqb_spec n ""); [contradiction |].
    simpl String.eqb. cbn [rev].
    now rewrite removelast_last.
  - apply Forall_rev, push_proper; try assumption. apply base_stack_proper.
Qed.

Lemma enc_simple b : simple (Cache.enc b).
Proof.
  apply all_hex_simple. pose proof (enc_is_hex b) as Hh.
  unfold is_hex_string in Hh. now apply andb_true_iff in Hh as [Hh _].
Qed.

Lemma enc_nonempty b : b <> [] -> Cache.enc b <> "".
Proof. destruct b; [congruence | discriminate]. Qed.

(** X2: the keys that the engine passes never leave the cache directory:
    for a non-empty action id the marker file lies directly in
    [<cacheDir>/action], for a non-empty output id the object file lies
    directly in [<cacheDir>/object]; the key of an empty id is that directory
    itself. *)
Theorem enc_keys_stay_in_cache_dir p fs (actionID outputID : list byte) :
  IsAbs (cwd fs) = true ->
  actionID <> [] ->
  outputID <> [] ->
  parent_dir (resolve fs (LocalStore.actionPath p (Cache.enc actionID)))
  = resolve fs (Join [LocalStore.cacheDir p; "action"])
  /\ parent_dir (resolve fs (LocalStore.objPath p (Cache.enc outputID)))
     = resolve fs (Join [LocalStore.cacheDir p; "object"])
  /\ resolve fs (LocalStore.actionPath p (Cache.enc []))
     = resolve fs (Join [LocalStore.cacheDir p; "action"])
  /\ resolve fs (LocalStore.objPath p (Cache.enc []))
     = resolve fs (Join [LocalStore.cacheDir p; "object"]).
Proof.
  intros Hcwd Ha Ho.
  assert (Hsa : simple "action") by (repeat split; discriminate).
  assert (Hso : simple "object") by (repeat split; discriminate).
  unfold LocalStore.actionPath, LocalStore.objPath.
  repeat split.
  - apply parent_dir_entry; auto using enc_simple, enc_nonempty; discriminate.
  - apply parent_dir_entry; auto using enc_simple, enc_nonempty; discriminate.
  - change (Cache.enc []) with "". now rewrite <- Join_two_three by discriminate.
  - change (Cache.enc []) with "". now rewrite <- Join_two_three by discriminate.
Qed.

Lemma enc_keys_stay_in_cache_dir_witness :
  parent_dir (resolve ex_disk (LocalStore.actionPath ex_store (Cache.enc [x61])))
  = resolve ex_disk (Join [LocalStore.cacheDir ex_store; "action"]).
Proof.
  apply (enc_keys_stay_in_cache_dir ex_store ex_disk [x61] [x62]).
  - reflexivity.
  - discriminate.
  - discriminate.
Defined.

(** ** How entries of the local store live together *)

(** What a [Put] touches, whatever its result: the object file, and the
    marker file when it succeeds. *)
Lemma local_Put_frame p actionId objectId body fs r fs' :
  LocalStore.Put p actionId objectId body fs = (r, fs') ->
  cwd fs' = cwd fs
  /\ (snd r <> None -> fst r = "")
  /\ forall key,
       key <> resolve fs (resolve fs (LocalStore.objPath p objectId)) ->
       (key <> resolve fs (LocalStore.actionPath p actionId) \/ snd r <> None) ->
       nodes fs' !! key = nodes fs !! key.
Proof.
  unfold LocalStore.Put. rewrite Abs_resolve.
  set (d := resolve fs (LocalStore.objPath p objectId)).
  unfold os_Create. destruct (writable fs (resolve fs d)).
  { intros [= <- <-]. repeat split; auto. }
  unfold io_Copy. destruct (rd_err body).
  { intros [= <- <-]. split; [reflexivity |]. split; [reflexivity |].
    intros key Hk _. simpl. now rewrite !lookup_insert_ne by congruence. }
  unfold os_WriteFile. destruct (writable _ _).
  { intros [= <- <-]. split; [reflexivity |]. split; [reflexivity |].
    intros key Hk _. simpl. now rewrite !lookup_insert_ne by congruence. }
  intros [= <- <-]. split; [reflexivity |]. split; [simpl; congruence |].
  intros key Hk [Hm | Hr]; [| simpl in Hr; congruence].
  simpl. rewrite !lookup_insert_ne; [reflexivity | congruence | congruence |].
  intros Heq. apply Hm. now rewrite <- Heq.
Qed.

(** A hit of [Get] rests on two files: while they stay as they are, so does
    the hit. *)
Lemma local_Get_hit_stable p actionId fs fs' objectId diskpath :
  LocalStore.Get p actionId fs = (objectId, diskpath, None) ->
  (objectId, diskpath) <> ("", "") ->
  cwd fs' = cwd fs ->
  nodes fs' !! resolve fs (LocalStore.actionPath p actionId)
  = nodes fs !! resolve fs (LocalStore.actionPath p actionId) ->
  nodes fs' !! resolve fs diskpath = nodes fs !! resolve fs diskpath ->
  LocalStore.Get p actionId fs' = (objectId, diskpath, None).
Proof.
  intros Hget Hne Hcwd Hmk Hobj.
  destruct (local_Get_hit_inv _ _ _ _ _ Hget Hne)
    as (data & size & fi & Hread & Hm & Habs & Hstat & Hsize).
  assert (Hres : forall name, resolve fs' name = resolve fs name).
  { intros name. unfold resolve. now rewrite Hcwd. }
  rewrite (local_Get_marker p actionId fs' data objectId size).
  - replace (Abs fs' (LocalStore.objPath p objectId)) with (Ok (A:=string) diskpath).
    2:{ rewrite <- Habs. unfold Abs, os_Getwd. now rewrite Hcwd. }
    replace (os_Stat fs' diskpath) with (Ok fi).
    2:{ rewrite <- Hstat. unfold os_Stat. now rewrite Hres, Hobj. }
    rewrite Hsize, Z.eqb_refl. reflexivity.
  - rewrite <- Hread. unfold os_ReadFile. now rewrite Hres, Hmk.
  - exact Hm.
Qed.

(** The places of the marker and of the object for keys of hexadecimal
    digits. *)
Lemma hex_keys_places p fs a1 a2 o1 o2 :
  IsAbs (cwd fs) = true ->
  all_hex a1 = true -> all_hex a2 = true ->
  all_hex o1 = true -> all_hex o2 = true ->
  (a1 <> a2 ->
   resolve fs (LocalStore.actionPath p a1) <> resolve fs (LocalStore.actionPath p a2))
  /\ (o1 <> o2 ->
      resolve fs (LocalStore.objPath p o1) <> resolve fs (LocalStore.objPath p o2))
  /\ resolve fs (LocalStore.actionPath p a1) <> resolve fs (LocalStore.objPath p o1)
  /\ resolve fs (resolve fs (LocalStore.objPath p o1))
     = resolve fs (LocalStore.objPath p o1).
Proof.
  intros Hcwd Ha1 Ha2 Ho1 Ho2.
  assert (Hsa : simple "action") by (repeat split; discriminate).
  assert (Hso : simple "object") by (repeat split; discriminate).
  apply all_hex_simple in Ha1, Ha2, Ho1, Ho2.
  unfold LocalStore.actionPath, LocalStore.objPath.
  repeat split.
  - intros Hne Heq. apply Hne.
    now apply (resolve_entry_inj fs (LocalStore.cacheDir p) "action").
  - intros Hne Heq. apply Hne.
    now apply (resolve_entry_inj fs (LocalStore.cacheDir p) "object").
  - now apply resolve_action_object.
  - now apply resolve_entry_idem.
Qed.

(** X4: a [Put] for one action leaves the entry of every other action as it
    is, when the keys are hexadecimal strings and the two entries name
    different objects: a hit of [Get] before the [Put] is the same hit after
    it, whether the [Put] succeeds or fails. *)
Theorem local_Put_keeps_other_entries p fs a1 o1 d1 a2 o2 body r fs' :
  IsAbs (cwd fs) = true ->
  all_hex a1 = true -> all_hex o1 = true ->
  all_hex a2 = true -> all_hex o2 = true ->
  o1 <> "" -> a1 <> a2 -> o1 <> o2 ->
  LocalStore.Get p a1 fs = (o1, d1, None) ->
  LocalStore.Put p a2 o2 body fs = (r, fs') ->
  LocalStore.Get p a1 fs' = (o1, d1, None).
Proof.
  intros Hcwd Ha1 Ho1 Ha2 Ho2 Hne Ha Ho Hget Hput.
  assert (Hpair : (o1, d1) <> ("", "")) by congruence.
  destruct (local_Get_hit_inv _ _ _ _ _ Hget Hpair)
    as (_ & _ & _ & _ & _ & Habs & _).
  rewrite Abs_resolve in Habs. injection Habs as <-.
  destruct (local_Put_frame _ _ _ _ _ _ _ Hput) as (Hwd & _ & Hframe).
  destruct (hex_keys_places p fs a1 a2 o1 o2 Hcwd Ha1 Ha2 Ho1 Ho2)
    as (Hmm & Hoo & Hmo1 & Hidem1).
  destruct (hex_keys_places p fs a2 a1 o2 o1 Hcwd Ha2 Ha1 Ho2 Ho1)
    as (_ & _ & Hmo2 & Hidem2).
  destruct (hex_keys_places p fs a1 a2 o2 o1 Hcwd Ha1 Ha2 Ho2 Ho1)
    as (_ & _ & Hm1o2 & _).
  destruct (hex_keys_places p fs a2 a1 o1 o2 Hcwd Ha2 Ha1 Ho1 Ho2)
    as (_ & _ & Hm2o1 & _).
  apply (local_Get_hit_stable p a1 fs fs' o1 _ Hget Hpair Hwd).
  - apply Hframe; [rewrite Hidem2; exact Hm1o2 | left; auto].
  - rewrite Hidem1. apply Hframe; [rewrite Hidem2; auto | left; congruence].
Qed.

(** X5: objects are addressed by their id alone.  When a [Put] for another
    action stores a payload under the object id that an entry already names,
    the file of that entry now holds the new payload; [Get] of the first
    action still hits if the new payload has the recorded size, and misses
    otherwise. *)
Theorem local_Put_same_object p fs a1 a2 o d1 fi body d2 fs' :
  IsAbs (cwd fs) = true ->
  all_hex a1 = true -> all_hex a2 = true -> all_hex o = true ->
  o <> "" -> a1 <> a2 ->
  LocalStore.Get p a1 fs = (o, d1, None) ->
  os_Stat fs d1 = Ok fi ->
  LocalStore.Put p a2 o body fs = ((d2, None), fs') ->
  d2 = d1
  /\ os_ReadFile fs' d1 = Ok (rd_data body)
  /\ LocalStore.Get p a1 fs'
     = if Size fi =? Z.of_nat (length (rd_data body))
       then (o, d1, None) else ("", "", None).
Proof.
  intros Hcwd Ha1 Ha2 Ho Hne Ha Hget Hstat Hput.
  assert (Hpair : (o, d1) <> ("", "")) by congruence.
  destruct (local_Get_hit_inv _ _ _ _ _ Hget Hpair)
    as (data & size & fi0 & Hread & Hm & Habs & Hstat0 & Hsize).
  assert (fi0 = fi) by congruence. subst fi0.
  destruct (local_Put_ok_inv _ _ _ _ _ _ _ Hput) as (Habs2 & _ & Hwd & _).
  assert (d2 = d1) by congruence. subst d2.
  rewrite Abs_resolve in Habs. injection Habs as Hd1.
  destruct (hex_keys_places p fs a1 a2 o o Hcwd Ha1 Ha2 Ho Ho)
    as (Hmm & _ & Hmo1 & Hidem).
  destruct (hex_keys_places p fs a2 a1 o o Hcwd Ha2 Ha1 Ho Ho)
    as (_ & _ & Hmo2 & _).
  assert (Hdiff : resolve fs (LocalStore.actionPath p a2) <> resolve fs d1).
  { rewrite <- Hd1, Hidem. exact Hmo2. }
  destruct (local_disk_after_Put _ _ _ _ _ _ _ Hdiff Hput)
    as (_ & Habs' & Hread' & Hstat').
  destruct (local_Put_frame _ _ _ _ _ _ _ Hput) as (_ & _ & Hframe).
  assert (Hres : forall name, resolve fs' name = resolve fs name).
  { intros name. unfold resolve. now rewrite Hwd. }
  split; [reflexivity |]. split; [exact Hread' |].
  rewrite (local_Get_marker p a1 fs' data o size).
  - rewrite Habs', Hstat'. simpl Size. rewrite <- Hsize.
    rewrite (Z.eqb_sym (Size fi)).
    now destruct (Z.of_nat (length (rd_data body)) =? Size fi).
  - rewrite <- Hread. unfold os_ReadFile. rewrite Hres.
    rewrite Hframe; [reflexivity | rewrite Hidem; exact Hmo1 | left; auto].
  - exact Hm.
Qed.

(** X6: a [Put] that fails returns no path and leaves every marker file as
    it was, so it adds no entry and redirects none (the object file it was
    writing may be left cut short). *)
Theorem local_failed_Put_keeps_markers p fs actionId objectId body d e fs' a' :
  IsAbs (cwd fs) = true ->
  all_hex objectId = true ->
  all_hex a' = true ->
  LocalStore.Put p actionId objectId body fs = ((d, Some e), fs') ->
  d = ""
  /\ os_ReadFile fs' (LocalStore.actionPath p a')
     = os_ReadFile fs (LocalStore.actionPath p a').
Proof.
  intros Hcwd Ho Ha' Hput.
  destruct (local_Put_frame _ _ _ _ _ _ _ Hput) as (Hwd & Hd & Hframe).
  split; [apply Hd; discriminate |].
  destruct (hex_keys_places p fs a' a' objectId objectId Hcwd Ha' Ha' Ho Ho)
    as (_ & _ & Hmo & Hidem).
  unfold os_ReadFile.
  replace (resolve fs' (LocalStore.actionPath p a'))
    with (resolve fs (LocalStore.actionPath p a'))
    by (unfold resolve; now rewrite Hwd).
  rewrite Hframe; [reflexivity | rewrite Hidem; exact Hmo | right; discriminate].
Qed.

(** ** The two tiers together *)

Lemma parse_digits_acc_nonneg s : forall acc n,
  0 <= acc -> parse_digits_acc s acc = Some n -> 0 <= n.
Proof.
  induction s as [| c s IH]; intros acc n Hacc; simpl.
  - now intros [= <-].
  - destruct (is_digit c) eqn:Hc; [| discriminate].
    apply IH. unfold is_digit in Hc. unfold digit_val.
    apply andb_true_iff in Hc as [Hlo _]. apply N.leb_le in Hlo. lia.
Qed.

(** [ParseInt] yields values of [int64] only. *)
Lemma ParseInt_range s n : ParseInt s = Ok n -> - 2 ^ 63 <= n < 2 ^ 63.
Proof.
  unfold ParseInt. destruct s as [| c rest]; [discriminate |].
  destruct (if Ascii.eqb c "+" then (false, rest)
            else if Ascii.eqb c "-" then (true, rest)
            else (false, String c rest)) as [neg ds].
  destruct (parse_digits ds) as [un |] eqn:Hp; [| discriminate].
  assert (Hun : 0 <= un).
  { unfold parse_digits in Hp. destruct ds; [discriminate |].
    eapply parse_digits_acc_nonneg; [| exact Hp]. lia. }
  destruct neg.
  - destruct (un <=? 2 ^ 63) eqn:Hle; [| discriminate].
    apply Z.leb_le in Hle. intros [= <-]. lia.
  - destruct (un <? 2 ^ 63) eqn:Hlt; [| discriminate].
    apply Z.ltb_lt in Hlt. intros [= <-]. lia.
Qed.

(** A hit of the local tier is the answer of the tiered store; the remote
    tier is not asked. *)
Lemma cos_Get_local_hit p actionId w objectId diskpath :
  LocalStore.Get (CosStore.localProvider p) actionId (disk w)
  = (objectId, diskpath, None) ->
  objectId <> "" -> diskpath <> "" ->
  CosStore.Get p actionId w = ((objectId, diskpath, None), w).
Proof.
  intros Hget Ho Hd. unfold CosStore.Get. rewrite Hget.
  destruct (String.eqb_spec objectId ""); [contradiction |].
  destruct (String.eqb_spec diskpath ""); [contradiction |]. reflexivity.
Qed.

(** [Get] of the tiered store on a local miss, when the remote tier has a
    well-formed entry and the write into the local store succeeds. *)
Lemma cos_Get_remote_entry p actionId w o objectId text size diskpath fs' :
  local_miss p actionId w ->
  reachable (remote w) = true ->
  remote_entry p actionId w = Some o ->
  Metadata o !! CosStore.objectIdKey = Some (Some objectId) ->
  Metadata o !! CosStore.sizeKey = Some (Some text) ->
  ParseInt text = Ok size ->
  LocalStore.Put (CosStore.localProvider p) actionId objectId (Body o) (disk w)
  = ((diskpath, None), fs') ->
  CosStore.Get p actionId w
  = (match os_Stat fs' diskpath with
     | Err err => CosStore.failure err
     | Ok fi =>
         if negb (Size fi =? size) then CosStore.notFound
         else (objectId, diskpath, None)
     end,
     {| disk := fs';
        remote := log_call (remote w)
                    (CallGetObject (CosStore.Bucket (CosStore.cos (CosStore.config p)))
                                   (CosStore.actionKey p actionId)) |}).
Proof.
  intros (o0 & d0 & Hlocal & Hempty) Hreach Hent Hoid Hsz Hparse Hput.
  unfold CosStore.Get. rewrite Hlocal.
  assert (Hgate : negb (String.eqb o0 "") && negb (String.eqb d0 "") = false).
  { destruct Hempty as [-> | ->]; [reflexivity |].
    rewrite String.eqb_refl. apply andb_false_r. }
  rewrite Hgate. unfold GetObject. rewrite Hreach.
  unfold remote_entry in Hent. rewrite Hent.
  unfold CosStore.lookUpObjectId, CosStore.lookUpSize.
  rewrite Hoid, Hsz, Hparse, Hput.
  destruct (os_Stat fs' diskpath) as [fi | err]; [| reflexivity].
  now destruct (negb (Size fi =? size)).
Qed.

(** The entry that a write into the local store leaves, for keys of
    hexadecimal digits. *)
Lemma local_entry_after_Put p actionId objectId body fs diskpath fs' :
  IsAbs (cwd fs) = true ->
  all_hex actionId = true -> all_hex objectId = true ->
  Z.of_nat (length (rd_data body)) < 2 ^ 63 ->
  LocalStore.Put p actionId objectId body fs = ((diskpath, None), fs') ->
  LocalStore.Get p actionId fs' = (objectId, diskpath, None)
  /\ os_ReadFile fs' diskpath = Ok (rd_data body)
  /\ os_Stat fs' diskpath
     = Ok {| Size := Z.of_nat (length (rd_data body));
             ModTime := now fs + 1; IsDir := false |}
  /\ diskpath <> "".
Proof.
  intros Hcwd Ha Ho Hsize Hput.
  destruct (local_Put_ok_inv _ _ _ _ _ _ _ Hput) as (Habs0 & _).
  assert (Hdiff : resolve fs (LocalStore.actionPath p actionId)
                  <> resolve fs diskpath).
  { now apply hex_marker_object_distinct with (objectId := objectId). }
  destruct (local_disk_after_Put _ _ _ _ _ _ _ Hdiff Hput)
    as (Hmarker & Habs & Hread & Hstat).
  assert (Hm : marker_of (Appendf_marker objectId (Z.of_nat (length (rd_data body))))
                         objectId (Z.of_nat (length (rd_data body)))).
  { apply marker_of_Appendf; [now apply all_hex_no_char | lia]. }
  split; [| split; [exact Hread | split; [exact Hstat |]]].
  - rewrite (local_Get_marker _ _ _ _ _ _ Hmarker Hm), Habs, Hstat.
    simpl Size. now rewrite Z.eqb_refl.
  - eapply Abs_nonempty; [apply objPath_nonempty | exact Habs0].
Qed.

(** X7: promotion.  On a local miss with a well-formed remote entry whose
    declared size is the length of its body, [Get] of the tiered store writes
    the body into the local store and returns the entry, after one
    [GetObject]; the same [Get] again is answered by the local tier, with no
    further remote call. *)
Theorem cos_Get_promotes p actionId w o objectId text diskpath fs' :
  IsAbs (cwd (disk w)) = true ->
  all_hex actionId = true -> all_hex objectId = true -> objectId <> "" ->
  local_miss p actionId w ->
  reachable (remote w) = true ->
  remote_entry p actionId w = Some o ->
  Metadata o !! CosStore.objectIdKey = Some (Some objectId) ->
  Metadata o !! CosStore.sizeKey = Some (Some text) ->
  ParseInt text = Ok (Z.of_nat (length (rd_data (Body o)))) ->
  LocalStore.Put (CosStore.localProvider p) actionId objectId (Body o) (disk w)
  = ((diskpath, None), fs') ->
  exists w1,
    CosStore.Get p actionId w = ((objectId, diskpath, None), w1)
    /\ disk w1 = fs'
    /\ calls (remote w1)
       = (calls (remote w)
          ++ [CallGetObject (CosStore.Bucket (CosStore.cos (CosStore.config p)))
                            (CosStore.actionKey p actionId)])%list
    /\ os_ReadFile fs' diskpath = Ok (rd_data (Body o))
    /\ CosStore.Get p actionId w1 = ((objectId, diskpath, None), w1).
Proof.
  intros Hcwd Ha Ho Hne Hmiss Hreach Hent Hoid Hsz Hparse Hput.
  pose proof (ParseInt_range _ _ Hparse) as Hrange.
  destruct (local_entry_after_Put _ _ _ _ _ _ _ Hcwd Ha Ho (proj2 Hrange) Hput)
    as (Hget & Hread & Hstat & Hd).
  eexists. split.
  - rewrite (cos_Get_remote_entry _ _ _ _ _ _ _ _ _
               Hmiss Hreach Hent Hoid Hsz Hparse Hput), Hstat.
    simpl Size. rewrite Z.eqb_refl. reflexivity.
  - repeat split; try reflexivity; [exact Hread |].
    now apply cos_Get_local_hit.
Qed.

(** X8: when the size declared by the remote entry is not the length of its
    body, [Get] of the tiered store is a miss; the body has been written into
    the local store all the same, with its real size, so the same [Get] again
    is a hit of the local tier. *)
Theorem cos_Get_declared_size_mismatch p actionId w o objectId text size diskpath fs' :
  IsAbs (cwd (disk w)) = true ->
  all_hex actionId = true -> all_hex objectId = true -> objectId <> "" ->
  local_miss p actionId w ->
  reachable (remote w) = true ->
  remote_entry p actionId w = Some o ->
  Metadata o !! CosStore.objectIdKey = Some (Some objectId) ->
  Metadata o !! CosStore.sizeKey = Some (Some text) ->
  ParseInt text = Ok size ->
  size <> Z.of_nat (length (rd_data (Body o))) ->
  Z.of_nat (length (rd_data (Body o))) < 2 ^ 63 ->
  LocalStore.Put (CosStore.localProvider p) actionId objectId (Body o) (disk w)
  = ((diskpath, None), fs') ->
  exists w1,
    CosStore.Get p actionId w = (("", "", None), w1)
    /\ disk w1 = fs'
    /\ CosStore.Get p actionId w1 = ((objectId, diskpath, None), w1).
Proof.
  intros Hcwd Ha Ho Hne Hmiss Hreach Hent Hoid Hsz Hparse Hdiff Hlen Hput.
  destruct (local_entry_after_Put _ _ _ _ _ _ _ Hcwd Ha Ho Hlen Hput)
    as (Hget & Hread & Hstat & Hd).
  eexists. split.
  - rewrite (cos_Get_remote_entry _ _ _ _ _ _ _ _ _
               Hmiss Hreach Hent Hoid Hsz Hparse Hput), Hstat.
    simpl Size.
    assert (Hneq : (Z.of_nat (length (rd_data (Body o))) =? size) = false)
      by (apply Z.eqb_neq; congruence).
    rewrite Hneq. reflexivity.
  - split; [reflexivity |]. now apply cos_Get_local_hit.
Qed.

Lemma os_Open_of_ReadFile fs name data :
  os_ReadFile fs name = Ok data -> os_Open fs name = Ok (bytes_NewReader data).
Proof.
  unfold os_ReadFile, os_Open.
  destruct (nodes fs !! resolve fs name) as [[d t | sz t] |]; try discriminate.
  now intros [= ->].
Qed.

(** [Put] of the tiered store, once the write into the local store has
    succeeded. *)
Lemma cos_Put_after_local p actionId objectId body w diskpath fs' :
  IsAbs (cwd (disk w)) = true ->
  all_hex actionId = true -> all_hex objectId = true ->
  Z.of_nat (length (rd_data body)) < 2 ^ 63 ->
  LocalStore.Put (CosStore.localProvider p) actionId objectId body (disk w)
  = ((diskpath, None), fs') ->
  CosStore.Put p actionId objectId body w
  = if Z.of_nat (length (rd_data body)) <? CosStore.MinUploadSize (CosStore.config p)
    then ((diskpath, None), {| disk := fs'; remote := remote w |})
    else
      ((diskpath,
        fst (PutObject (remote w) (CosStore.Bucket (CosStore.cos (CosStore.config p)))
               (CosStore.actionKey p actionId)
               (<[CosStore.objectIdKey := Some objectId]>
                  (<[CosStore.sizeKey :=
                       Some (FormatInt (Z.of_nat (length (rd_data body))))]> ∅))
               (bytes_NewReader (rd_data body))
               (Z.of_nat (length (rd_data body))))),
       {| disk := fs';
          remote :=
            snd (PutObject (remote w)
                   (CosStore.Bucket (CosStore.cos (CosStore.config p)))
                   (CosStore.actionKey p actionId)
                   (<[CosStore.objectIdKey := Some objectId]>
                      (<[CosStore.sizeKey :=
                           Some (FormatInt (Z.of_nat (length (rd_data body))))]> ∅))
                   (bytes_NewReader (rd_data body))
                   (Z.of_nat (length (rd_data body)))) |}).
Proof.
  intros Hcwd Ha Ho Hsize Hput.
  destruct (local_entry_after_Put _ _ _ _ _ _ _ Hcwd Ha Ho Hsize Hput)
    as (_ & Hread & Hstat & _).
  unfold CosStore.Put. rewrite Hput, Hstat. simpl Size.
  destruct (Z.of_nat (length (rd_data body))
            <? CosStore.MinUploadSize (CosStore.config p)); [reflexivity |].
  rewrite (os_Open_of_ReadFile _ _ _ Hread).
  now destruct (PutObject _ _ _ _ _ _).
Qed.

(** A [Put] of the tiered store without error has written into the local
    store. *)
Lemma cos_Put_ok_inv p actionId objectId body w diskpath w' :
  CosStore.Put p actionId objectId body w = ((diskpath, None), w') ->
  LocalStore.Put (CosStore.localProvider p) actionId objectId body (disk w)
  = ((diskpath, None), disk w').
Proof.
  unfold CosStore.Put.
  destruct (LocalStore.Put _ _ _ _ _) as [[d [e |]] fs]; [intros [=] |].
  destruct (os_Stat fs d) as [fi | e]; [| intros [=]].
  destruct (Size fi <? _); [now intros [= -> <-] |].
  destruct (os_Open fs d) as [file | e]; [| intros [=]].
  destruct (PutObject _ _ _ _ _ _) as [err c]. now intros [= -> -> <-].
Qed.

(** X9: what [Put] of the tiered store has stored, [Get] of the tiered store
    returns: after a [Put] without error, [Get] of the action is answered by
    the local tier with the object id and the path of the [Put], and the
    environment stays as it is: no remote call is made. *)
Theorem cos_Put_Get_roundtrip p actionId objectId body w diskpath w' :
  IsAbs (cwd (disk w)) = true ->
  all_hex actionId = true -> all_hex objectId = true -> objectId <> "" ->
  Z.of_nat (length (rd_data body)) < 2 ^ 63 ->
  CosStore.Put p actionId objectId body w = ((diskpath, None), w') ->
  CosStore.Get p actionId w' = ((objectId, diskpath, None), w')
  /\ os_ReadFile (disk w') diskpath = Ok (rd_data body).
Proof.
  intros Hcwd Ha Ho Hne Hsize Hput.
  apply cos_Put_ok_inv in Hput.
  destruct (local_entry_after_Put _ _ _ _ _ _ _ Hcwd Ha Ho Hsize Hput)
    as (Hget & Hread & _ & Hd).
  split; [| exact Hread]. now apply cos_Get_local_hit.
Qed.

(** X10: sharing through the remote tier.  When [Put] of the tiered store
    has uploaded an entry (the payload is not below the threshold and the
    service answers), [Get] for the same action on another disk, where the
    local tier misses, downloads it: it returns the object id of the [Put],
    and the local file holds the payload. *)
Theorem cos_Put_shares_entry p actionId objectId body w diskpath w'
  p2 w2 diskpath2 fs2 :
  IsAbs (cwd (disk w)) = true ->
  all_hex actionId = true -> all_hex objectId = true -> objectId <> "" ->
  Z.of_nat (length (rd_data body)) < 2 ^ 63 ->
  CosStore.MinUploadSize (CosStore.config p) <= Z.of_nat (length (rd_data body)) ->
  reachable (remote w) = true ->
  CosStore.Put p actionId objectId body w = ((diskpath, None), w') ->
  CosStore.Bucket (CosStore.cos (CosStore.config p2))
  = CosStore.Bucket (CosStore.cos (CosStore.config p)) ->
  remote w2 = remote w' ->
  IsAbs (cwd (disk w2)) = true ->
  local_miss p2 actionId w2 ->
  LocalStore.Put (CosStore.localProvider p2) actionId objectId
                 (bytes_NewReader (rd_data body)) (disk w2)
  = ((diskpath2, None), fs2) ->
  fst (CosStore.Get p2 actionId w2) = (objectId, diskpath2, None)
  /\ os_ReadFile fs2 diskpath2 = Ok (rd_data body).
Proof.
  intros Hcwd Ha Ho Hne Hsize Hthr Hreach Hput Hbucket Hremote Hcwd2 Hmiss Hput2.
  pose proof (cos_Put_ok_inv _ _ _ _ _ _ _ Hput) as Hlocal.
  rewrite (cos_Put_after_local _ _ _ _ _ _ _ Hcwd Ha Ho Hsize Hlocal) in Hput.
  assert (Hge : (Z.of_nat (length (rd_data body))
                 <? CosStore.MinUploadSize (CosStore.config p)) = false)
    by (apply Z.ltb_ge; lia).
  rewrite Hge in Hput. unfold PutObject in Hput. rewrite Hreach in Hput.
  simpl in Hput. injection Hput as Hw'.
  apply (f_equal remote) in Hw'. simpl in Hw'.
  set (entry := {| Metadata :=
                     <[CosStore.objectIdKey := Some objectId]>
                       (<[CosStore.sizeKey :=
                            Some (FormatInt (Z.of_nat (length (rd_data body))))]> ∅);
                   Body := bytes_NewReader (rd_data body) |}).
  assert (Hent : remote_entry p2 actionId w2 = Some entry).
  { unfold remote_entry. rewrite Hremote, <- Hw', Hbucket. simpl.
    apply lookup_insert_eq. }
  assert (Hreach2 : reachable (remote w2) = true).
  { rewrite Hremote, <- Hw'. exact Hreach. }
  assert (Hparse : ParseInt (FormatInt (Z.of_nat (length (rd_data body))))
                   = Ok (Z.of_nat (length (rd_data body))))
    by (apply ParseInt_FormatInt; lia).
  destruct (local_entry_after_Put (CosStore.localProvider p2) actionId objectId
              (bytes_NewReader (rd_data body)) (disk w2) diskpath2 fs2
              Hcwd2 Ha Ho Hsize Hput2)
    as (_ & Hread & Hstat & _).
  simpl rd_data in Hread, Hstat.
  rewrite (cos_Get_remote_entry p2 actionId w2 entry objectId
             (FormatInt (Z.of_nat (length (rd_data body))))
             (Z.of_nat (length (rd_data body))) diskpath2 fs2
             Hmiss Hreach2 Hent eq_refl eq_refl Hparse Hput2).
  rewrite Hstat. simpl. rewrite Z.eqb_refl. auto.
Qed.

(** X11: a failed upload is an error of [Put], yet the local copy is a valid
    entry.  When the payload is not below the threshold and the service does
    not answer, [Put] of the tiered store returns the local path together with
    an error, the remote tier holds what it held, and [Get] of the local store
    returns the entry. *)
Theorem cos_Put_upload_fails p actionId objectId body w diskpath fs' :
  IsAbs (cwd (disk w)) = true ->
  all_hex actionId = true -> all_hex objectId = true ->
  Z.of_nat (length (rd_data body)) < 2 ^ 63 ->
  CosStore.MinUploadSize (CosStore.config p) <= Z.of_nat (length (rd_data body)) ->
  reachable (remote w) = false ->
  LocalStore.Put (CosStore.localProvider p) actionId objectId body (disk w)
  = ((diskpath, None), fs') ->
  exists w',
    CosStore.Put p actionId objectId body w
    = ((diskpath, Some (ErrIO "request failed")), w')
    /\ disk w' = fs'
    /\ objects (remote w') = objects (remote w)
    /\ LocalStore.Get (CosStore.localProvider p) actionId fs'
       = (objectId, diskpath, None).
Proof.
  intros Hcwd Ha Ho Hsize Hthr Hreach Hput.
  destruct (local_entry_after_Put _ _ _ _ _ _ _ Hcwd Ha Ho Hsize Hput)
    as (Hget & _).
  rewrite (cos_Put_after_local _ _ _ _ _ _ _ Hcwd Ha Ho Hsize Hput).
  assert (Hge : (Z.of_nat (length (rd_data body))
                 <? CosStore.MinUploadSize (CosStore.config p)) = false)
    by (apply Z.ltb_ge; lia).
  rewrite Hge. unfold PutObject. rewrite Hreach. simpl.
  eexists. repeat split; try reflexivity. exact Hget.
Qed.

(** X12: [NewProvider] of the tiered store succeeds only for a cache
    directory that is named, with the service answering and the bucket among
    its buckets; it asks the service once.  The store it makes keeps the
    bucket, sits on the local store of that directory, and has a positive
    threshold: the configured one if positive, else 1024. *)
Theorem cos_NewProvider_ok config w p w' :
  CosStore.NewProvider config w = (Ok p, w') ->
  CosStore.CacheDir config <> ""
  /\ reachable (remote w) = true
  /\ In (CosStore.Bucket (CosStore.cos config)) (bucketNames (remote w))
  /\ calls (remote w') = (calls (remote w) ++ [CallListBuckets])%list
  /\ objects (remote w') = objects (remote w)
  /\ LocalStore.NewProvider (CosStore.CacheDir config) (disk w)
     = (Ok (CosStore.localProvider p), disk w')
  /\ CosStore.Bucket (CosStore.cos (CosStore.config p))
     = CosStore.Bucket (CosStore.cos config)
  /\ CosStore.MinUploadSize (CosStore.config p)
     = (if CosStore.MinUploadSize config <=? 0 then 1024
        else CosStore.MinUploadSize config)
  /\ 0 < CosStore.MinUploadSize (CosStore.config p).
Proof.
  unfold CosStore.NewProvider.
  destruct (String.eqb_spec (CosStore.CacheDir config) ""); [intros [=] |].
  set (config' := if CosStore.MinUploadSize config <=? 0 then _ else config).
  assert (Hdir : CosStore.CacheDir config' = CosStore.CacheDir config)
    by (subst config'; now destruct (CosStore.MinUploadSize config <=? 0)).
  assert (Hbucket : CosStore.Bucket (CosStore.cos config')
                    = CosStore.Bucket (CosStore.cos config))
    by (subst config'; now destruct (CosStore.MinUploadSize config <=? 0)).
  assert (Hthr : CosStore.MinUploadSize config'
                 = (if CosStore.MinUploadSize config <=? 0 then 1024
                    else CosStore.MinUploadSize config)
                 /\ 0 < CosStore.MinUploadSize config').
  { subst config'. destruct (CosStore.MinUploadSize config <=? 0) eqn:Hle.
    - split; reflexivity.
    - apply Z.leb_gt in Hle. auto. }
  rewrite Hdir, Hbucket.
  destruct (LocalStore.NewProvider _ _) as [[lp | e] fs]; [| intros [=]].
  unfold ListBuckets.
  destruct (reachable (remote w)) eqn:Hreach; [| intros [=]].
  destruct (existsb _ _) eqn:Hex; [| intros [=]].
  intros [= <- <-]. simpl.
  apply existsb_exists in Hex as (x & Hin & Hx%String.eqb_eq). subst x.
  destruct Hthr as [Hthr Hpos]. repeat split; auto.
Qed.

(** ** Requests and their responses *)

(** X13: what a [put] request stores, a [get] request for the same action
    finds.  With the local store, after [handlePut] has answered a request
    with an output id, [handleGet] for its action id answers with that output
    id, the length of the body as size, and the disk path of the [put]
    response. *)
Theorem handlePut_handleGet_roundtrip
  (h : @Cache.Handler LocalStore.provider) reqP w respP w1 reqG :
  IsAbs (cwd (disk w)) = true ->
  Req.OutputID reqP <> [] ->
  Z.of_nat (length (rd_data (default (bytes_NewReader []) (Req.Body reqP)))) < 2 ^ 63 ->
  Cache.handlePut h reqP w = ((Some respP, None), w1) ->
  Req.ActionID reqG = Req.ActionID reqP ->
  exists t,
    Cache.handleGet h reqG w1
    = ((Some {| Resp.ID := Req.ID reqG; Resp.Err := ""; Resp.KnownCommands := [];
                Resp.Miss := false; Resp.OutputID := Req.OutputID reqP;
                Resp.Size :=
                  Z.of_nat (length (rd_data (default (bytes_NewReader [])
                                                      (Req.Body reqP))));
                Resp.Time := Some t;
                Resp.DiskPath := Resp.DiskPath respP |}, None), w1)
    /\ Resp.ID respP = Req.ID reqP.
Proof.
  intros Hcwd Hout Hsize Hput Hact.
  unfold Cache.handlePut in Hput. cbn [Cache.Put Cache.local_Provider] in Hput.
  set (body := match Req.Body reqP with
               | Some r => r
               | None => bytes_NewReader []
               end) in *.
  change (default (bytes_NewReader []) (Req.Body reqP)) with body in *.
  destruct (LocalStore.Put (Cache.provider h) (Cache.enc (Req.ActionID reqP))
              (Cache.enc (Req.OutputID reqP)) body (disk w))
    as [[path [e |]] fs] eqn:Hlocal; [discriminate |].
  injection Hput as <- <-.
  assert (Ha : all_hex (Cache.enc (Req.ActionID reqP)) = true).
  { pose proof (enc_is_hex (Req.ActionID reqP)) as Hh. unfold is_hex_string in Hh.
    now apply andb_true_iff in Hh as [Hh _]. }
  assert (Ho : all_hex (Cache.enc (Req.OutputID reqP)) = true).
  { pose proof (enc_is_hex (Req.OutputID reqP)) as Hh. unfold is_hex_string in Hh.
    now apply andb_true_iff in Hh as [Hh _]. }
  destruct (local_entry_after_Put _ _ _ _ _ _ _ Hcwd Ha Ho Hsize Hlocal)
    as (Hget & _ & Hstat & Hd).
  exists (now (disk w) + 1). split; [| reflexivity].
  unfold Cache.handleGet. cbn [Cache.Get Cache.local_Provider disk].
  rewrite Hact, Hget.
  assert (Hne : String.eqb (Cache.enc (Req.OutputID reqP)) "" = false).
  { apply String.eqb_neq. now apply enc_nonempty. }
  rewrite Hne. simpl andb.
  unfold Cache.dec, Cache.enc. rewrite DecodeString_EncodeToString.
  unfold Cache.cacheHit. cbn [disk]. now rewrite Hstat.
Qed.

(** A worker that ends without error has written one response, which carries
    the id of its request; a worker that ends with an error has written
    nothing. *)
Lemma run_task_output {P : Type} `{Cache.Provider P} (h : @Cache.Handler P)
  t w out err w' out' :
  Cache.run_task h t w out = (err, w', out') ->
  match err with
  | None =>
      map Resp.ID (Cache.written out')
      = (map Resp.ID (Cache.written out) ++ [Req.ID (task_request t)])%list
  | Some _ => out' = out
  end.
Proof.
  unfold Cache.run_task.
  assert (Hresp : forall resp e w0,
            (match t with
             | Cache.TaskGet req => Cache.handleGet h req w
             | Cache.TaskPut req => Cache.handlePut h req w
             end) = ((resp, e), w0) ->
            e = None ->
            exists r, resp = Some r /\ Resp.ID r = Req.ID (task_request t)).
  { intros resp e w0. destruct t as [req | req]; simpl task_request.
    - unfold Cache.handleGet.
      destruct (Cache.Get _ _ _) as [[[pid dp] [e0 |]] w1]; [intros [= <- <- <-]; discriminate |].
      destruct (String.eqb pid "" && String.eqb dp "").
      + unfold Cache.cacheMiss. intros [= <- <- <-] _. eauto.
      + destruct (Cache.dec pid) as [oid [e1 |]]; [intros [= <- <- <-]; discriminate |].
        unfold Cache.cacheHit. destruct (os_Stat _ _).
        * intros [= <- <- <-] _. eauto.
        * intros [= <- <- <-]. discriminate.
    - unfold Cache.handlePut.
      destruct (Cache.Put _ _ _ _ _) as [[path [e0 |]] w1].
      + intros [= <- <- <-]. discriminate.
      + intros [= <- <- <-] _. eauto. }
  destruct (match t with
            | Cache.TaskGet req => Cache.handleGet h req w
            | Cache.TaskPut req => Cache.handlePut h req w
            end) as [[resp e] w0] eqn:Hh.
  destruct e as [e |].
  - now intros [= <- <- <-].
  - destruct (Hresp resp None w0 eq_refl eq_refl) as (r & -> & Hid).
    unfold Cache.write.
    destruct (Cache.failAfter out) as [[| k] |]; intros [= <- <- <-];
      try reflexivity; simpl; rewrite map_app; simpl; now rewrite Hid.
Qed.

Lemma answered_app tr1 tr2 : answered (tr1 ++ tr2) = (answered tr1 ++ answered tr2)%list.
Proof.
  induction tr1 as [| ev tr1 IH]; [reflexivity |].
  destruct ev as [t | t [e |] | r e]; simpl; now rewrite ?IH.
Qed.

Lemma started_app tr1 tr2 : started (tr1 ++ tr2) = (started tr1 ++ started tr2)%list.
Proof.
  induction tr1 as [| ev tr1 IH]; [reflexivity |].
  destruct ev as [t | t e | r e]; simpl; now rewrite ?IH.
Qed.

Lemma ended_app tr1 tr2 : ended (tr1 ++ tr2) = (ended tr1 ++ ended tr2)%list.
Proof.
  induction tr1 as [| ev tr1 IH]; [reflexivity |].
  destruct ev as [t | t e | r e]; simpl; now rewrite ?IH.
Qed.

Lemma failures_app tr1 tr2 : failures (tr1 ++ tr2) = (failures tr1 ++ failures tr2)%list.
Proof.
  induction tr1 as [| ev tr1 IH]; [reflexivity |].
  destruct ev as [t | t [e |] | r [e |]]; simpl; now rewrite ?IH.
Qed.

Lemma answered_ended tr :
  failures tr = [] ->
  answered tr = map (fun t => Req.ID (task_request t)) (ended tr).
Proof.
  induction tr as [| ev tr IH]; [reflexivity |].
  destruct ev as [t | t [e |] | r [e |]]; simpl; try discriminate; intros Hf;
    now rewrite ?IH.
Qed.

Section SessionTraces.

Context {P : Type} `{Cache.Provider P}.
Variable h : @Cache.Handler P.

(** One move of a session, seen from the output and the trace: what is
    written is the answer of a worker that ends without error. *)
Lemma exec_answers l s s' :
  Cache.exec h l s = Some s' ->
  exists ids,
    answered (Cache.trace s') = (answered (Cache.trace s) ++ ids)%list
    /\ map Resp.ID (Cache.written (Cache.output s'))
       = (map Resp.ID (Cache.written (Cache.output s)) ++ ids)%list.
Proof.
  intros Hexec.
  exec_cases Hexec Go_started; simpl; rewrite ?answered_app; simpl;
    try (exists []; now rewrite !app_nil_r).
  repeat match goal with
         | Hp : ?p = (_, _) |- _ => is_var p; subst p
         end.
  match goal with
  | Hr : Cache.run_task _ _ _ _ = _ |- _ =>
      apply run_task_output in Hr; rename Hr into Hout
  end.
  match type of Hout with
  | match ?e with _ => _ end => destruct e as [e0 |]
  end.
  - subst. exists []. now rewrite !app_nil_r.
  - eexists. split; [reflexivity | exact Hout].
Qed.

(** Every worker started is in flight or has ended. *)
Lemma exec_started l s s' :
  Cache.exec h l s = Some s' ->
  length (started (Cache.trace s))
  = (length (Cache.inflight s) + length (ended (Cache.trace s)))%nat ->
  length (started (Cache.trace s'))
  = (length (Cache.inflight s') + length (ended (Cache.trace s')))%nat.
Proof.
  intros Hexec Hinv.
  exec_cases Hexec Go_started; simpl;
    rewrite ?started_app, ?ended_app, ?length_app; simpl; try lia.
  match goal with
  | Hl : Cache.inflight s !! _ = Some _ |- _ =>
      pose proof (lookup_length_pos _ _ _ Hl) as [Hlen Hpos]
  end.
  rewrite Hlen. lia.
Qed.

(** While the group has recorded no error, no worker and no [Close] has
    failed. *)
Lemma exec_failures l s s' :
  Cache.exec h l s = Some s' ->
  (errgroup.firstErr (Cache.group s) = None -> failures (Cache.trace s) = []) ->
  errgroup.firstErr (Cache.group s') = None -> failures (Cache.trace s') = [].
Proof.
  intros Hexec Hinv.
  exec_cases Hexec Go_started; simpl; rewrite ?failures_app; simpl;
    try (destruct (errgroup.firstErr (Cache.group s)); [discriminate |]);
    try (intros Hnone; subst; rewrite Hinv by reflexivity; reflexivity);
    try (intros Hnone; apply Hinv; congruence).
Qed.

(** X14: responses follow workers.  In every state that a session reaches,
    the ids of the responses written are those written before [Run], the id 0
    of the handshake, and then the ids of the requests whose worker has ended
    without error, in the order in which the workers ended; and every worker
    started is in flight or has ended. *)
Theorem responses_follow_workers input out w s0 s :
  Cache.Run_start h input out w = Ok s0 ->
  Cache.reaches h s0 s ->
  map Resp.ID (Cache.written (Cache.output s))
  = (map Resp.ID (Cache.written out) ++ 0 :: answered (Cache.trace s))%list
  /\ length (started (Cache.trace s))
     = (length (Cache.inflight s) + length (ended (Cache.trace s)))%nat.
Proof.
  intros Hstart Hreach.
  revert Hreach.
  apply (reaches_invariant h
           (fun x => map Resp.ID (Cache.written (Cache.output x))
                     = (map Resp.ID (Cache.written out)
                        ++ 0 :: answered (Cache.trace x))%list
                     /\ length (started (Cache.trace x))
                        = (length (Cache.inflight x)
                           + length (ended (Cache.trace x)))%nat)).
  - intros l s1 s2 [Hout Hcount] Hexec. split.
    + destruct (exec_answers _ _ _ Hexec) as (ids & -> & ->).
      rewrite Hout, <- app_assoc. reflexivity.
    + now apply (exec_started _ _ _ Hexec).
  - unfold Cache.Run_start, Cache.write in Hstart.
    destruct (Cache.failAfter out) as [[| k] |]; [discriminate | |];
      injection Hstart as <-; simpl; rewrite map_app; auto.
Qed.

(** X15: a session that returns no error has answered every request that it
    gave to a worker.  When [Run] returns nil, no worker and no [Close] has
    failed, every worker started has ended, and after the handshake exactly
    one response per worker was written, with the id of its request. *)
Theorem Run_nil_answers_all input out w s0 s :
  Cache.Run_start h input out w = Ok s0 ->
  Cache.reaches h s0 s ->
  Cache.Run_result s = Some None ->
  failures (Cache.trace s) = []
  /\ length (ended (Cache.trace s)) = length (started (Cache.trace s))
  /\ map Resp.ID (Cache.written (Cache.output s))
     = (map Resp.ID (Cache.written out)
        ++ 0 :: map (fun t => Req.ID (task_request t)) (ended (Cache.trace s)))%list.
Proof.
  intros Hstart Hreach Hres.
  apply Run_result_inv in Hres as (Herr & Hnil & _).
  assert (Hinv : map Resp.ID (Cache.written (Cache.output s))
                 = (map Resp.ID (Cache.written out)
                    ++ 0 :: answered (Cache.trace s))%list
                 /\ length (started (Cache.trace s))
                    = (length (Cache.inflight s)
                       + length (ended (Cache.trace s)))%nat
                 /\ (errgroup.firstErr (Cache.group s) = None ->
                     failures (Cache.trace s) = [])).
  { revert Hreach.
    apply (reaches_invariant h
             (fun x => map Resp.ID (Cache.written (Cache.output x))
                       = (map Resp.ID (Cache.written out)
                          ++ 0 :: answered (Cache.trace x))%list
                       /\ length (started (Cache.trace x))
                          = (length (Cache.inflight x)
                             + length (ended (Cache.trace x)))%nat
                       /\ (errgroup.firstErr (Cache.group x) = None ->
                           failures (Cache.trace x) = []))).
    - intros l s1 s2 (Hout & Hcount & Hfail) Hexec. split; [| split].
      + destruct (exec_answers _ _ _ Hexec) as (ids & -> & ->).
        rewrite Hout, <- app_assoc. reflexivity.
      + now apply (exec_started _ _ _ Hexec).
      + now apply (exec_failures _ _ _ Hexec).
    - unfold Cache.Run_start, Cache.write in Hstart.
      destruct (Cache.failAfter out) as [[| k] |]; [discriminate | |];
        injection Hstart as <-; simpl; rewrite map_app; auto. }
  destruct Hinv as (Hout & Hcount & Hfail).
  assert (Hf : failures (Cache.trace s) = []) by (apply Hfail; congruence).
  split; [exact Hf |]. split.
  - rewrite Hcount, Hnil. reflexivity.
  - now rewrite Hout, (answered_ended _ Hf).
Qed.

(** The turn of the reader on a frame that is not a [get], [put] or [close]
    request. *)
Lemma reader_iter_bad_frame f rest :
  match f with
  | Cache.FRequest req =>
      Req.Command req <> "get" /\ Req.Command req <> "put"
      /\ Req.Command req <> "close"
  | _ => True
  end ->
  exists e, Cache.reader_iter (f :: rest) = (Cache.Return (Some e), rest).
Proof.
  destruct f as [req | b | |]; intros Hbad; unfold Cache.reader_iter;
    cbn -[String.eqb]; eauto.
  destruct Hbad as (Hg & Hp & Hc).
  apply String.eqb_neq in Hg, Hp, Hc. rewrite Hg, Hp, Hc. eauto.
Qed.

(** When the reader returns an error, the session is over: see X16. *)
Lemma reader_error_aborts s e rest :
  Cache.well_formed s ->
  Cache.reader s = Cache.Reading ->
  Cache.reader_iter (Cache.input s) = (Cache.Return (Some e), rest) ->
  exists s',
    Cache.exec h Cache.LRead s = Some s'
    /\ Cache.reader s' = Cache.Returned
    /\ Cache.input s' = rest
    /\ errgroup.firstErr (Cache.group s') <> None
    /\ Cache.inflight s' = Cache.inflight s
    /\ Cache.output s' = Cache.output s
    /\ (forall s'', Cache.reaches h s' s'' ->
         Cache.input s'' = rest
         /\ forall r, Cache.Run_result s'' = Some r -> r <> None)
    /\ (exists s'' e', Cache.reaches h s' s''
                       /\ Cache.Run_result s'' = Some (Some e')).
Proof.
  intros Hwf Hr Hiter.
  assert (Hexec : Cache.exec h Cache.LRead s
                  = Some {| Cache.input := rest; Cache.reader := Cache.Returned;
                            Cache.inflight := Cache.inflight s;
                            Cache.env := Cache.env s;
                            Cache.output := Cache.output s;
                            Cache.group :=
                              errgroup.task_returns (Cache.group s) (Some e);
                            Cache.trace := Cache.trace s |}).
  { unfold Cache.exec. now rewrite Hr, Hiter. }
  eexists. split; [exact Hexec |].
  set (s' := {| Cache.input := rest |}) in *.
  assert (Herr : exists e', errgroup.firstErr (Cache.group s') = Some e').
  { simpl. destruct (errgroup.firstErr (Cache.group s)); eauto. }
  destruct Herr as [e' He'].
  assert (Hwf' : Cache.well_formed s') by (eapply exec_well_formed; eauto).
  repeat (split; [first [reflexivity | congruence] |]).
  split.
  - intros s'' Hreach.
    destruct (reaches_after_return h s' s'' eq_refl Hreach) as [_ Hin''].
    split; [exact Hin'' |].
    intros r Hres. apply Run_result_inv in Hres as [-> _].
    rewrite (reaches_firstErr h s' s'' e' He' Hreach). discriminate.
  - destruct (Run_returns h s' Hwf' eq_refl) as (s'' & Hreach & Hres).
    exists s'', e'. split; [exact Hreach |].
    now rewrite Hres, (reaches_firstErr h s' s'' e' He' Hreach).
Qed.

(** X16: a frame that is not a [get], [put] or [close] request ends the
    session.  Whether it is not JSON, a value of another kind, null, or a
    request with another command, the turn of the reader on it returns an
    error: no worker is started for it, nothing is written, nothing is read
    after it, [Run] returns, and it returns an error. *)
Theorem bad_frame_aborts_session s f rest :
  Cache.well_formed s ->
  Cache.reader s = Cache.Reading ->
  Cache.input s = f :: rest ->
  match f with
  | Cache.FRequest req =>
      Req.Command req <> "get" /\ Req.Command req <> "put"
      /\ Req.Command req <> "close"
  | _ => True
  end ->
  exists s',
    Cache.exec h Cache.LRead s = Some s'
    /\ Cache.reader s' = Cache.Returned
    /\ Cache.input s' = rest
    /\ errgroup.firstErr (Cache.group s') <> None
    /\ Cache.inflight s' = Cache.inflight s
    /\ Cache.output s' = Cache.output s
    /\ (forall s'', Cache.reaches h s' s'' ->
         Cache.input s'' = rest
         /\ forall r, Cache.Run_result s'' = Some r -> r <> None)
    /\ (exists s'' e', Cache.reaches h s' s''
                       /\ Cache.Run_result s'' = Some (Some e')).
Proof.
  intros Hwf Hr Hin Hbad.
  destruct (reader_iter_bad_frame f rest Hbad) as [e Hiter].
  apply (reader_error_aborts s e rest Hwf Hr). now rewrite Hin.
Qed.

(** X17: the end of the input ends the reader without error.  At the end of
    the stream the turn of the reader returns nil: the error of the group
    stays what it was, nothing is written; the workers in flight end, [Run]
    returns, and with no worker in flight and no error so far it returns nil
    at once. *)
Theorem end_of_input_is_clean s :
  Cache.well_formed s ->
  Cache.reader s = Cache.Reading ->
  Cache.input s = [] ->
  exists s',
    Cache.exec h Cache.LRead s = Some s'
    /\ Cache.reader s' = Cache.Returned
    /\ errgroup.firstErr (Cache.group s') = errgroup.firstErr (Cache.group s)
    /\ Cache.output s' = Cache.output s
    /\ Cache.env s' = Cache.env s
    /\ Cache.trace s' = Cache.trace s
    /\ (Cache.inflight s = [] ->
        Cache.Run_result s' = Some (errgroup.firstErr (Cache.group s)))
    /\ (exists s'' r, Cache.reaches h s' s'' /\ Cache.Run_result s'' = Some r).
Proof.
  intros Hwf Hr Hin.
  assert (Hexec : Cache.exec h Cache.LRead s
                  = Some {| Cache.input := []; Cache.reader := Cache.Returned;
                            Cache.inflight := Cache.inflight s;
                            Cache.env := Cache.env s;
                            Cache.output := Cache.output s;
                            Cache.group :=
                              errgroup.task_returns (Cache.group s) None;
                            Cache.trace := Cache.trace s |}).
  { unfold Cache.exec. now rewrite Hr, Hin. }
  eexists. split; [exact Hexec |].
  set (s' := {| Cache.input := [] |}) in *.
  assert (Hwf' : Cache.well_formed s') by (eapply exec_well_formed; eauto).
  assert (Herr : errgroup.firstErr (Cache.group s')
                 = errgroup.firstErr (Cache.group s)).
  { simpl. now destruct (errgroup.firstErr (Cache.group s)). }
  split; [reflexivity |]. split; [exact Herr |].
  repeat (split; [reflexivity |]).
  split.
  - intros Hnil. unfold Cache.well_formed in Hwf. rewrite Hr, Hnil in Hwf.
    subst s'. unfold Cache.Run_result, errgroup.Wait. simpl. rewrite Hnil, Hwf.
    simpl. now destruct (errgroup.firstErr (Cache.group s)).
  - destruct (Run_returns h s' Hwf' eq_refl) as (s'' & Hreach & Hres). eauto.
Qed.

End SessionTraces.

(** ** [NewProvider] of the local store *)

Lemma resolve_cwd fs fs' name :
  cwd fs' = cwd fs -> resolve fs' name = resolve fs name.
Proof. unfold resolve. now intros ->. Qed.

(** [os.MkdirAll] keeps what is on the disk. *)
Lemma mkdir_chain_keeps cs : forall fs prefix e fs',
  mkdir_chain fs prefix cs = (e, fs') ->
  cwd fs' = cwd fs
  /\ forall k n, nodes fs !! k = Some n -> nodes fs' !! k = Some n.
Proof.
  induction cs as [| c cs IH]; intros fs prefix e fs' Hm; cbn [mkdir_chain] in Hm.
  - injection Hm as <- <-. auto.
  - set (key := if String.eqb prefix "/" then _ else _) in Hm.
    destruct (nodes fs !! key) as [[d t | sz t] |] eqn:Hk.
    + injection Hm as <- <-. auto.
    + eapply IH; eauto.
    + apply IH in Hm as [Hc Hn]. split; [exact Hc |].
      intros k n Hkn. apply Hn. simpl. rewrite lookup_insert_ne; auto. congruence.
Qed.

Lemma chain_key pre c :
  Forall proper pre ->
  (if String.eqb (render pre) "/" then render pre ++ c
   else render pre ++ "/" ++ c)%string
  = render (pre ++ [c]).
Proof.
  intros Hpre. destruct pre as [| p l].
  - reflexivity.
  - assert (Hne : String.eqb (render (p :: l)) "/" = false).
    { apply String.eqb_neq. unfold render.
      apply Forall_cons in Hpre as [[_ Hp] _].
      destruct p as [| x p]; [congruence |].
      destruct l; simpl; discriminate. }
    rewrite Hne. unfold render.
    rewrite concat_snoc by discriminate.
    now rewrite !append_assoc.
Qed.

(** When [os.MkdirAll] returns no error, the last directory of the chain is
    on the disk. *)
Lemma mkdir_chain_dir cs : forall pre fs fs',
  cs <> [] ->
  Forall proper pre -> Forall proper cs ->
  mkdir_chain fs (render pre) cs = (None, fs') ->
  exists sz t, nodes fs' !! render (pre ++ cs) = Some (Directory sz t).
Proof.
  induction cs as [| c cs IH]; intros pre fs fs' Hne Hpre Hcs Hm; [congruence |].
  cbn [mkdir_chain] in Hm. rewrite (chain_key pre c Hpre) in Hm.
  apply Forall_cons in Hcs as [Hc Hcs].
  assert (Hpre' : Forall proper (pre ++ [c])).
  { apply Forall_app. split; [exact Hpre | now constructor]. }
  destruct (nodes fs !! render (pre ++ [c])) as [[d t | sz t] |] eqn:Hk;
    [discriminate | |].
  - destruct cs as [| c2 cs].
    + injection Hm as <-. eauto.
    + replace (pre ++ c :: c2 :: cs)%list with ((pre ++ [c]) ++ c2 :: cs)%list
        by now rewrite <- app_assoc.
      eapply IH; eauto; discriminate.
  - destruct cs as [| c2 cs].
    + injection Hm as <-. simpl. rewrite lookup_insert_eq. eauto.
    + replace (pre ++ c :: c2 :: cs)%list with ((pre ++ [c]) ++ c2 :: cs)%list
        by now rewrite <- app_assoc.
      eapply IH; eauto; discriminate.
Qed.

Lemma MkdirAll_dir fs cacheDir mid fs' :
  IsAbs (cwd fs) = true ->
  simple mid -> mid <> "" ->
  os_MkdirAll fs (Join [cacheDir; mid]) = (None, fs') ->
  cwd fs' = cwd fs
  /\ (forall k n, nodes fs !! k = Some n -> nodes fs' !! k = Some n)
  /\ exists sz t,
       nodes fs' !! resolve fs (Join [cacheDir; mid]) = Some (Directory sz t).
Proof.
  intros Hcwd Hs Hne Hm. unfold os_MkdirAll in Hm.
  destruct (mkdir_chain_keeps _ _ _ _ _ Hm) as [Hc Hkeep].
  split; [exact Hc |]. split; [exact Hkeep |].
  rewrite (Join_two_three cacheDir mid Hne) in *.
  rewrite (resolve_entry fs cacheDir mid "" Hcwd Hs Hne simple_empty) in *.
  assert (Hp : Forall proper (rev (push "" (mid :: base_stack fs cacheDir)))).
  { apply Forall_rev, push_proper; auto using simple_empty, base_stack_proper. }
  unfold clean_comps in Hm. rewrite (split_slash_render _ Hp), rev_involutive in Hm.
  change "/" with (render []) in Hm.
  apply mkdir_chain_dir in Hm; auto.
  unfold push. simpl. intros Heq. apply (f_equal (@length string)) in Heq.
  rewrite length_app in Heq. simpl in Heq. lia.
Qed.

(** X18: a store made by [NewProvider] is ready for use.  [NewProvider]
    keeps the cleaned name of the cache directory, and on the disk that it
    leaves, a [Put] with non-empty hexadecimal keys and a body that reads to
    its end returns no error, unless a directory sits where the marker or the
    object file goes; [Get] then returns the entry. *)
Theorem local_NewProvider_prepares_Put cacheDir fs p fs1 actionId objectId body :
  IsAbs (cwd fs) = true ->
  LocalStore.NewProvider cacheDir fs = (Ok p, fs1) ->
  all_hex actionId = true -> actionId <> "" ->
  all_hex objectId = true -> objectId <> "" ->
  rd_err body = None ->
  Z.of_nat (length (rd_data body)) < 2 ^ 63 ->
  (forall fi, os_Stat fs1 (LocalStore.actionPath p actionId) = Ok fi ->
              IsDir fi = false) ->
  (forall fi, os_Stat fs1 (LocalStore.objPath p objectId) = Ok fi ->
              IsDir fi = false) ->
  LocalStore.cacheDir p = Clean cacheDir
  /\ exists diskpath fs2,
       LocalStore.Put p actionId objectId body fs1 = ((diskpath, None), fs2)
       /\ LocalStore.Get p actionId fs2 = (objectId, diskpath, None)
       /\ os_ReadFile fs2 diskpath = Ok (rd_data body).
Proof.
  intros Hcwd Hnew Ha Hane Ho Hone Hbody Hsize Hamark Hobj.
  assert (Hsa : simple "action") by (repeat split; discriminate).
  assert (Hso : simple "object") by (repeat split; discriminate).
  unfold LocalStore.NewProvider in Hnew.
  destruct (os_MkdirAll fs (Join [Clean cacheDir; "action"]))
    as [[e |] fsA] eqn:HmA; [discriminate |].
  destruct (os_MkdirAll fsA (Join [Clean cacheDir; "object"]))
    as [[e |] fsB] eqn:HmB; [discriminate |].
  injection Hnew as <- <-.
  split; [reflexivity |].
  apply MkdirAll_dir in HmA as (HcA & _ & szA & tA & HdA);
    [| exact Hcwd | exact Hsa | discriminate].
  apply MkdirAll_dir in HmB as (HcB & HkeepB & szB & tB & HdB);
    [| now rewrite HcA | exact Hso | discriminate].
  apply HkeepB in HdA.
  assert (Hc1 : cwd fsB = cwd fs) by congruence.
  assert (Hcwd1 : IsAbs (cwd fsB) = true) by now rewrite Hc1.
  rewrite <- (resolve_cwd fs fsB _ Hc1) in HdA.
  rewrite <- (resolve_cwd fsA fsB _ HcB) in HdB.
  set (p := {| LocalStore.cacheDir := Clean cacheDir |}) in *.
  change (Clean cacheDir) with (LocalStore.cacheDir p) in HdA, HdB.
  destruct (hex_keys_places p fsB actionId actionId objectId objectId
              Hcwd1 Ha Ha Ho Ho) as (_ & _ & Hdiff & Hidem).
  set (ka := resolve fsB (LocalStore.actionPath p actionId)) in *.
  set (ko := resolve fsB (LocalStore.objPath p objectId)) in *.
  assert (Hpa : parent_dir ka = resolve fsB (Join [LocalStore.cacheDir p; "action"])).
  { apply parent_dir_entry; auto using all_hex_simple; discriminate. }
  assert (Hpo : parent_dir ko = resolve fsB (Join [LocalStore.cacheDir p; "object"])).
  { apply parent_dir_entry; auto using all_hex_simple; discriminate. }
  assert (Hwo : writable fsB ko = None).
  { unfold writable. rewrite Hpo, HdB.
    destruct (nodes fsB !! ko) as [[d t | sz t] |] eqn:Hk; try reflexivity.
    specialize (Hobj {| Size := sz; ModTime := t; IsDir := true |}).
    unfold os_Stat in Hobj. fold ko in Hobj. rewrite Hk in Hobj.
    now specialize (Hobj eq_refl). }
  assert (Hao : resolve fsB (Join [LocalStore.cacheDir p; "action"]) <> ko).
  { rewrite (Join_two_three _ "action") by discriminate.
    apply resolve_action_object; auto using simple_empty, all_hex_simple. }
  assert (Hput : exists fs2,
             LocalStore.Put p actionId objectId body fsB = ((ko, None), fs2)).
  { unfold LocalStore.Put. rewrite Abs_resolve. fold ko.
    unfold os_Create. rewrite Hidem, Hwo.
    unfold io_Copy. rewrite Hbody.
    unfold os_WriteFile.
    assert (Hres : resolve (set_node (set_node fsB ko (File [] (now fsB))) ko
                              (File (match nodes (set_node fsB ko (File [] (now fsB))) !! ko with
                                     | Some (File data _) => data
                                     | _ => []
                                     end ++ rd_data body)
                                    (now (set_node fsB ko (File [] (now fsB))))))
                           (LocalStore.actionPath p actionId) = ka)
      by (apply resolve_cwd; reflexivity).
    rewrite Hres.
    unfold writable. simpl nodes.
    rewrite !lookup_insert_ne by congruence.
    rewrite Hpa, HdA.
    destruct (nodes fsB !! ka) as [[d t | sz t] |] eqn:Hk; eauto.
    specialize (Hamark {| Size := sz; ModTime := t; IsDir := true |}).
    unfold os_Stat in Hamark. fold ka in Hamark. rewrite Hk in Hamark.
    now specialize (Hamark eq_refl). }
  destruct Hput as [fs2 Hput]. exists ko, fs2. split; [exact Hput |].
  destruct (local_entry_after_Put _ _ _ _ _ _ _ Hcwd1 Ha Ho Hsize Hput)
    as (Hget & Hread & _). auto.
Qed.

(** ** The endpoints of [cos ping] *)

Lemma append_inv_head (a b c : string) : (a ++ b = a ++ c)%string -> b = c.
Proof.
  induction a as [| x a IH]; rewrite ?append_nil_l; [auto |].
  rewrite !append_cons. intros Heq. injection Heq as Heq. auto.
Qed.

Lemma genEndpoints_map prefix :
  Ping.genEndpoints prefix
  = map (fun tail => (prefix ++ tail)%string)
        (map (fun region =>
                ("." ++ region ++ "." ++ "cloud-object-storage.appdomain.cloud")%string)
             Ping.regions).
Proof. reflexivity. Qed.

(** X19: [cos ping] pings no endpoint twice.  For every prefix
    [genEndpoints] gives one endpoint per region, all different; and whatever
    the flags, the endpoints that the command collects are pairwise different,
    eleven for each flag set. *)
Theorem ping_endpoints_distinct (prefix : string) (o : Ping.cosPingCmdOpts) :
  NoDup (Ping.genEndpoints prefix)
  /\ length (Ping.genEndpoints prefix) = length Ping.regions
  /\ NoDup (Ping.endpoints o)
  /\ length (Ping.endpoints o)
     = (11 * (Nat.b2n (Ping.public o) + Nat.b2n (Ping.private o)
              + Nat.b2n (Ping.direct o)))%nat.
Proof.
  split; [| split; [reflexivity |]].
  - rewrite genEndpoints_map. apply NoDup_fmap_2.
    + intros b c. apply append_inv_head.
    + apply (bool_decide_unpack _). vm_compute. exact I.
  - destruct o as [[|] [|] [|]]; split; try reflexivity;
      apply (bool_decide_unpack _); vm_compute; exact I.
Qed.

(** ** The properties at concrete states *)

Lemma local_roundtrip_enc_keys_witness :
  LocalStore.Get ex_store (Cache.enc [x61])
    (snd (LocalStore.Put ex_store (Cache.enc [x61]) (Cache.enc [x62])
            (bytes_NewReader [x01; x02]) ex_disk))
  = (Cache.enc [x62], "/tmp/go-cache/object/62", None).
Proof.
  apply (local_roundtrip_enc_keys ex_store [x61] [x62]
           (bytes_NewReader [x01; x02]) ex_disk "/tmp/go-cache/object/62").
  - reflexivity.
  - simpl. lia.
  - vm_compute. reflexivity.
Defined.

Lemma local_Put_keeps_other_entries_witness :
  LocalStore.Get ex_store "6161"
    (snd (LocalStore.Put ex_store "6363" "6464" (bytes_NewReader [x03]) stored_disk))
  = ("6262", "/tmp/go-cache/object/6262", None).
Proof.
  apply (local_Put_keeps_other_entries ex_store stored_disk
           "6161" "6262" "/tmp/go-cache/object/6262" "6363" "6464"
           (bytes_NewReader [x03])
           (fst (LocalStore.Put ex_store "6363" "6464" (bytes_NewReader [x03])
                   stored_disk))).
  - reflexivity.
  - reflexivity.
  - reflexivity.
  - reflexivity.
  - reflexivity.
  - discriminate.
  - discriminate.
  - discriminate.
  - vm_compute. reflexivity.
  - vm_compute. reflexivity.
Defined.

Lemma local_Put_same_object_witness :
  LocalStore.Get ex_store "6161"
    (snd (LocalStore.Put ex_store "6363" "6262" (bytes_NewReader [x03]) stored_disk))
  = ("", "", None).
Proof.
  apply (local_Put_same_object ex_store stored_disk "6161" "6363" "6262"
           "/tmp/go-cache/object/6262"
           {| Size := 2; ModTime := 6; IsDir := false |}
           (bytes_NewReader [x03]) "/tmp/go-cache/object/6262").
  - reflexivity.
  - reflexivity.
  - reflexivity.
  - reflexivity.
  - discriminate.
  - discriminate.
  - vm_compute. reflexivity.
  - vm_compute. reflexivity.
  - vm_compute. reflexivity.
Defined.

Lemma local_failed_Put_keeps_markers_witness :
  os_ReadFile
    (snd (LocalStore.Put ex_store "6161" "6464" broken_body stored_disk))
    (LocalStore.actionPath ex_store "6161")
  = os_ReadFile stored_disk (LocalStore.actionPath ex_store "6161").
Proof.
  apply (local_failed_Put_keeps_markers ex_store stored_disk "6161" "6464"
           broken_body "" (ErrIO "broken")).
  - reflexivity.
  - reflexivity.
  - reflexivity.
  - vm_compute. reflexivity.
Defined.

Lemma cos_Get_promotes_witness :
  exists w1,
    CosStore.Get ex_tiered "6161" second_machine
    = (("6262", "/tmp/go-cache/object/6262", None), w1)
    /\ CosStore.Get ex_tiered "6161" w1
       = (("6262", "/tmp/go-cache/object/6262", None), w1).
Proof.
  destruct (cos_Get_promotes ex_tiered "6161" second_machine uploaded_object
              "6262" "4" "/tmp/go-cache/object/6262"
              (snd (LocalStore.Put ex_store "6161" "6262"
                      (bytes_NewReader [x01; x02; x03; x04]) ex_disk)))
    as (w1 & Hget & _ & _ & _ & Hagain).
  - reflexivity.
  - reflexivity.
  - reflexivity.
  - discriminate.
  - exists "", "". split; [vm_compute; reflexivity | left; reflexivity].
  - reflexivity.
  - vm_compute. reflexivity.
  - reflexivity.
  - reflexivity.
  - vm_compute. reflexivity.
  - vm_compute. reflexivity.
  - exists w1. auto.
Defined.

Lemma cos_Get_declared_size_mismatch_witness :
  exists w1,
    CosStore.Get ex_tiered "6161" mislabeled_world = (("", "", None), w1)
    /\ CosStore.Get ex_tiered "6161" w1
       = (("6262", "/tmp/go-cache/object/6262", None), w1).
Proof.
  destruct (cos_Get_declared_size_mismatch ex_tiered "6161" mislabeled_world
              mislabeled_object "6262" "5" 5 "/tmp/go-cache/object/6262"
              (snd (LocalStore.Put ex_store "6161" "6262"
                      (bytes_NewReader [x01; x02; x03; x04]) ex_disk)))
    as (w1 & Hget & _ & Hagain).
  - reflexivity.
  - reflexivity.
  - reflexivity.
  - discriminate.
  - exists "", "". split; [vm_compute; reflexivity | left; reflexivity].
  - reflexivity.
  - vm_compute. reflexivity.
  - reflexivity.
  - reflexivity.
  - vm_compute. reflexivity.
  - simpl. lia.
  - simpl. lia.
  - vm_compute. reflexivity.
  - exists w1. auto.
Defined.

Lemma cos_Put_Get_roundtrip_witness :
  CosStore.Get ex_tiered "6161" uploaded_world
  = (("6262", "/tmp/go-cache/object/6262", None), uploaded_world).
Proof.
  apply (cos_Put_Get_roundtrip ex_tiered "6161" "6262"
           (bytes_NewReader [x01; x02; x03; x04]) ex_world
           "/tmp/go-cache/object/6262" uploaded_world).
  - reflexivity.
  - reflexivity.
  - reflexivity.
  - discriminate.
  - simpl. lia.
  - vm_compute. reflexivity.
Defined.

Lemma cos_Put_shares_entry_witness :
  fst (CosStore.Get ex_tiered "6161" second_machine)
  = ("6262", "/tmp/go-cache/object/6262", None).
Proof.
  apply (cos_Put_shares_entry ex_tiered "6161" "6262"
           (bytes_NewReader [x01; x02; x03; x04]) ex_world
           "/tmp/go-cache/object/6262" uploaded_world
           ex_tiered second_machine "/tmp/go-cache/object/6262"
           (snd (LocalStore.Put ex_store "6161" "6262"
                   (bytes_NewReader [x01; x02; x03; x04]) ex_disk))).
  - reflexivity.
  - reflexivity.
  - reflexivity.
  - discriminate.
  - simpl. lia.
  - simpl. lia.
  - reflexivity.
  - vm_compute. reflexivity.
  - reflexivity.
  - reflexivity.
  - reflexivity.
  - exists "", "". split; [vm_compute; reflexivity | left; reflexivity].
  - vm_compute. reflexivity.
Defined.

Lemma cos_Put_upload_fails_witness :
  exists w',
    CosStore.Put ex_tiered "6161" "6262" (bytes_NewReader [x01; x02; x03; x04])
                 offline_world
    = (("/tmp/go-cache/object/6262", Some (ErrIO "request failed")), w')
    /\ LocalStore.Get ex_store "6161" (disk w')
       = ("6262", "/tmp/go-cache/object/6262", None).
Proof.
  destruct (cos_Put_upload_fails ex_tiered "6161" "6262"
              (bytes_NewReader [x01; x02; x03; x04]) offline_world
              "/tmp/go-cache/object/6262"
              (snd (LocalStore.Put ex_store "6161" "6262"
                      (bytes_NewReader [x01; x02; x03; x04]) ex_disk)))
    as (w' & Hput & Hdisk & _ & Hget).
  - reflexivity.
  - reflexivity.
  - reflexivity.
  - simpl. lia.
  - simpl. lia.
  - reflexivity.
  - vm_compute. reflexivity.
  - exists w'. rewrite Hdisk. auto.
Defined.

Lemma cos_NewProvider_ok_witness :
  calls (remote (snd (CosStore.NewProvider (CosStore.config ex_tiered)
                        {| disk := fs0; remote := remote ex_world |})))
  = [CallListBuckets]
  /\ 0 < CosStore.MinUploadSize (CosStore.config ex_tiered).
Proof.
  destruct (cos_NewProvider_ok (CosStore.config ex_tiered)
              {| disk := fs0; remote := remote ex_world |} ex_tiered
              (snd (CosStore.NewProvider (CosStore.config ex_tiered)
                      {| disk := fs0; remote := remote ex_world |})))
    as (_ & _ & _ & Hcalls & _ & _ & _ & _ & Hpos).
  - vm_compute. reflexivity.
  - split; [exact Hcalls | exact Hpos].
Defined.

Lemma handlePut_handleGet_roundtrip_witness :
  exists t,
    Cache.handleGet ex_handler get_request
      (snd (Cache.handlePut ex_handler put_request_ok ex_world))
    = ((Some {| Resp.ID := 1; Resp.Err := ""; Resp.KnownCommands := [];
                Resp.Miss := false; Resp.OutputID := [x62]; Resp.Size := 2;
                Resp.Time := Some t;
                Resp.DiskPath := "/tmp/go-cache/object/62" |}, None),
       snd (Cache.handlePut ex_handler put_request_ok ex_world)).
Proof.
  destruct (handlePut_handleGet_roundtrip ex_handler put_request_ok ex_world
              {| Resp.ID := 4; Resp.Err := ""; Resp.KnownCommands := [];
                 Resp.Miss := false; Resp.OutputID := []; Resp.Size := 0;
                 Resp.Time := None; Resp.DiskPath := "/tmp/go-cache/object/62" |}
              (snd (Cache.handlePut ex_handler put_request_ok ex_world))
              get_request)
    as (t & Hget & _).
  - reflexivity.
  - discriminate.
  - simpl. lia.
  - vm_compute. reflexivity.
  - reflexivity.
  - exists t. exact Hget.
Defined.

Lemma responses_follow_workers_witness :
  map Resp.ID (Cache.written (Cache.output served_run)) = [0; 1].
Proof.
  destruct (responses_follow_workers ex_handler
              [Cache.FRequest get_request; Cache.FRequest close_request]
              ex_out ex_world
              (ex_initial [Cache.FRequest get_request;
                           Cache.FRequest close_request])
              served_run)
    as [Hids _].
  - reflexivity.
  - exists [Cache.LAdmit; Cache.LRead; Cache.LSpawn; Cache.LEnd 0; Cache.LRead].
    vm_compute. reflexivity.
  - rewrite Hids. reflexivity.
Defined.

Lemma Run_nil_answers_all_witness :
  failures (Cache.trace served_run) = []
  /\ length (ended (Cache.trace served_run))
     = length (started (Cache.trace served_run)).
Proof.
  destruct (Run_nil_answers_all ex_handler
              [Cache.FRequest get_request; Cache.FRequest close_request]
              ex_out ex_world
              (ex_initial [Cache.FRequest get_request;
                           Cache.FRequest close_request])
              served_run)
    as (Hf & Hn & _).
  - reflexivity.
  - exists [Cache.LAdmit; Cache.LRead; Cache.LSpawn; Cache.LEnd 0; Cache.LRead].
    vm_compute. reflexivity.
  - vm_compute. reflexivity.
  - split; [exact Hf | exact Hn].
Defined.

Lemma bad_frame_aborts_session_witness :
  exists s',
    Cache.exec ex_handler Cache.LRead
      (ex_reading [Cache.FRequest unknown_request; Cache.FRequest get_request])
    = Some s'
    /\ Cache.reader s' = Cache.Returned
    /\ Cache.input s' = [Cache.FRequest get_request]
    /\ errgroup.firstErr (Cache.group s') <> None.
Proof.
  destruct (bad_frame_aborts_session ex_handler
              (ex_reading [Cache.FRequest unknown_request;
                           Cache.FRequest get_request])
              (Cache.FRequest unknown_request) [Cache.FRequest get_request])
    as (s' & Hexec & Hr & Hin & He & _).
  - reflexivity.
  - reflexivity.
  - reflexivity.
  - simpl. repeat split; discriminate.
  - exists s'. auto.
Defined.

Lemma end_of_input_is_clean_witness :
  exists s',
    Cache.exec ex_handler Cache.LRead (ex_reading []) = Some s'
    /\ Cache.Run_result s' = Some None.
Proof.
  destruct (end_of_input_is_clean ex_handler (ex_reading []))
    as (s' & Hexec & _ & _ & _ & _ & _ & Hres & _).
  - reflexivity.
  - reflexivity.
  - reflexivity.
  - exists s'. split; [exact Hexec | exact (Hres eq_refl)].
Defined.

Lemma local_NewProvider_prepares_Put_witness :
  exists diskpath fs2,
    LocalStore.Put ex_store "6161" "6262" (bytes_NewReader [x01; x02]) ex_disk
    = ((diskpath, None), fs2)
    /\ LocalStore.Get ex_store "6161" fs2 = ("6262", diskpath, None).
Proof.
  destruct (local_NewProvider_prepares_Put "/tmp/go-cache" fs0 ex_store ex_disk
              "6161" "6262" (bytes_NewReader [x01; x02]))
    as (_ & diskpath & fs2 & Hput & Hget & _).
  - reflexivity.
  - vm_compute. reflexivity.
  - reflexivity.
  - discriminate.
  - reflexivity.
  - discriminate.
  - reflexivity.
  - simpl. lia.
  - intros fi Hstat. vm_compute in Hstat. discriminate.
  - intros fi Hstat. vm_compute in Hstat. discriminate.
  - exists diskpath, fs2. auto.
Defined.
